(** * Investment Research Hub: data-acquisition and analytics core

    A shallow embedding of the cache helpers, the series-fetch functions
    and the portfolio statistics of [script.js], with the properties of
    the written specification stated and settled against it.

    JavaScript numbers are IEEE 754 binary64 values.  The arithmetic the
    script uses is collected in the class [Number]; it has two instances:
    - [float_number]: Rocq's primitive binary64 floats, bit-for-bit the
      arithmetic of the script (NaN, infinities, signed zero, rounding);
      statements about concrete inputs are evaluated in it;
    - [real_number]: the real numbers, for statements that are made in
      exact real arithmetic.
    [Math.sqrt] is the correctly rounded square root and [Math.pow(x, 2)]
    the correctly rounded square, as the engines compute them.

    The first part embeds the code, function by function and under the
    names of the script; the second part states and proves the
    properties. *)

From Stdlib Require Import ZArith Reals Lra Lia Floats Psatz.
From stdpp Require Import gmap strings list sorting pretty.

#[local] Set Warnings "-register-all".

(** ** Numbers *)

Class Number (T : Type) := {
  of_Z : Z -> T;                (* integer literals, array lengths, clocks *)
  num_add : T -> T -> T;
  num_sub : T -> T -> T;
  num_mul : T -> T -> T;
  num_div : T -> T -> T;
  num_neg : T -> T;
  Math_sqrt : T -> T;
  Math_floor : T -> option Z;   (* None on NaN and the infinities *)
  num_ltb : T -> T -> bool;     (* a < b *)
  num_eqb : T -> T -> bool;     (* a === b *)
  isNaN : T -> bool;
  isFinite : T -> bool
}.

Declare Scope num_scope.
Delimit Scope num_scope with num.
Infix "+!" := num_add (at level 50, left associativity) : num_scope.
Infix "-!" := num_sub (at level 50, left associativity) : num_scope.
Infix "*!" := num_mul (at level 40, left associativity) : num_scope.
Infix "/!" := num_div (at level 40, left associativity) : num_scope.
Infix "<?!" := num_ltb (at level 70, no associativity) : num_scope.
Infix "=?!" := num_eqb (at level 70, no associativity) : num_scope.
Local Open Scope num_scope.

Section Literals.
Context {T : Type} `{Number T}.

Definition of_nat (n : nat) : T := of_Z (Z.of_nat n).

(** The decimal literal [m]e-[k], for instance [decimal 5 2] for 0.05.
    Both operands are exactly representable for the literals of the
    script, so the single correctly rounded division yields the binary64
    value nearest to the decimal, which is the value of the literal. *)
Definition decimal (m : Z) (k : nat) : T := of_Z m /! of_Z (10 ^ Z.of_nat k).

(** [a > b] and [Math.pow(x, 2)]. *)
Definition num_gtb (a b : T) : bool := b <?! a.
Definition pow2 (x : T) : T := x *! x.
End Literals.

(** *** binary64 *)

Module F64.
Definition of_Z (z : Z) : float :=
  match z with
  | Z0 => PrimFloat.zero
  | Zpos _ => PrimFloat.of_uint63 (Uint63.of_Z z)
  | Zneg _ => PrimFloat.opp (PrimFloat.of_uint63 (Uint63.of_Z (- z)))
  end.

(** [Math.floor] through the mantissa and exponent of the value. *)
Definition floor (x : float) : option Z :=
  match Prim2SF x with
  | S754_zero _ => Some 0%Z
  | S754_finite s m e =>
      let n := (if s then Z.neg m else Z.pos m) in
      Some (if (0 <=? e)%Z then n * 2 ^ e else n / 2 ^ (- e))%Z
  | S754_infinity _ | S754_nan => None
  end.
End F64.

#[export] Instance float_number : Number float := {
  of_Z := F64.of_Z;
  num_add := PrimFloat.add;
  num_sub := PrimFloat.sub;
  num_mul := PrimFloat.mul;
  num_div := PrimFloat.div;
  num_neg := PrimFloat.opp;
  Math_sqrt := PrimFloat.sqrt;
  Math_floor := F64.floor;
  num_ltb := PrimFloat.ltb;
  num_eqb := PrimFloat.eqb;
  isNaN := PrimFloat.is_nan;
  isFinite := PrimFloat.is_finite
}.

(** *** exact reals

    [Rdiv x 0] is 0, where the script computes NaN or an infinity: the
    quotients of this instance are those of the script only where the
    divisor is not 0. *)

#[export] Instance real_number : Number R := {
  of_Z := IZR;
  num_add := Rplus;
  num_sub := Rminus;
  num_mul := Rmult;
  num_div := Rdiv;
  num_neg := Ropp;
  Math_sqrt := R_sqrt.sqrt;
  Math_floor := fun x => Some (Int_part x);
  num_ltb := fun a b => if Rlt_dec a b then true else false;
  num_eqb := fun a b => if Req_dec_T a b then true else false;
  isNaN := fun _ => false;
  isFinite := fun _ => true
}.

(** ** [Array.prototype.sort] with a comparator

    [gt a b] says that the comparator returns a positive number on
    [(a, b)].  The result of a consistent comparator does not depend on
    the engine's algorithm; it is computed here by a stable insertion
    sort. *)

Section Sort.
Context {A : Type} (gt : A -> A -> bool).

Fixpoint sort_insert (x : A) (l : list A) : list A :=
  match l with
  | [] => [x]
  | y :: l' => if gt x y then y :: sort_insert x l' else x :: y :: l'
  end.

Definition js_sort (l : list A) : list A := foldr sort_insert [] l.
End Sort.

(** ** Portfolio analytics dashboard ([setupPortfolioAnalytics])

    The statistics are the functions of [portfolioReturns] computed in the
    body of the function, under the names of its local constants. *)

Module PortfolioAnalytics.
Section Defs.
Context {T : Type} `{Number T}.

Definition meanReturn (portfolioReturns : list T) : T :=
  fold_left (fun a b => a +! b) portfolioReturns (of_Z 0)
    /! of_nat (length portfolioReturns).

Definition variance (portfolioReturns : list T) : T :=
  let meanReturn := meanReturn portfolioReturns in
  fold_left (fun sum r => sum +! pow2 (r -! meanReturn)) portfolioReturns (of_Z 0)
    /! of_nat (length portfolioReturns).

Definition dailyVol (portfolioReturns : list T) : T :=
  Math_sqrt (variance portfolioReturns).

Definition volatility (portfolioReturns : list T) : T :=
  dailyVol portfolioReturns *! Math_sqrt (of_Z 252) *! of_Z 100.

Definition sharpeRatio (portfolioReturns : list T) : T :=
  let volatility := volatility portfolioReturns in
  if volatility =?! of_Z 0 then of_Z 0
  else (meanReturn portfolioReturns *! of_Z 252) /! (volatility /! of_Z 100).

(** The loop state is [(cum, peak, maxDD)]. *)
Definition drawdown_step (st : T * T * T) (r : T) : T * T * T :=
  let '(cum, peak, maxDD) := st in
  let cum := cum +! r in
  let peak := if num_gtb cum peak then cum else peak in
  let drawdown := peak -! cum in
  let maxDD := if num_gtb drawdown maxDD then drawdown else maxDD in
  (cum, peak, maxDD).

Definition maxDD (portfolioReturns : list T) : T :=
  snd (fold_left drawdown_step portfolioReturns (of_Z 0, of_Z 0, of_Z 0)).

Definition maxDrawdown (portfolioReturns : list T) : T :=
  maxDD portfolioReturns *! of_Z 100.

(** [[...portfolioReturns].sort((a, b) => a - b)]: the comparator is
    positive when [a - b > 0]. *)
Definition by_difference (a b : T) : bool := num_gtb (a -! b) (of_Z 0).

Definition sortedReturns (portfolioReturns : list T) : list T :=
  js_sort by_difference portfolioReturns.

(** [Math.floor(sortedReturns.length * p)], as an array index. *)
Definition idx (p : T) (sortedReturns : list T) : option nat :=
  match Math_floor (of_nat (length sortedReturns) *! p) with
  | Some z => if (0 <=? z)%Z then Some (Z.to_nat z) else None
  | None => None
  end.

(** [-sortedReturns[idx] * 100].  [None] stands for the NaN that the
    script computes from [undefined] when the index is outside the
    array. *)
Definition VaR (p : T) (portfolioReturns : list T) : option T :=
  let sortedReturns := sortedReturns portfolioReturns in
  i ← idx p sortedReturns;
  v ← sortedReturns !! i;
  Some (num_neg v *! of_Z 100).

Definition var95 : list T -> option T := VaR (decimal 5 2).
Definition var99 : list T -> option T := VaR (decimal 1 2).
End Defs.
End PortfolioAnalytics.

(** ** Portfolio statistics ([renderPortfolioStats])

    The average daily return, the volatility and the Sharpe ratio, as the
    function computes them from its [portfolioReturns]. *)

Module PortfolioStats.
Section Defs.
Context {T : Type} `{Number T}.

Definition meanDaily (portfolioReturns : list T) : T :=
  let meanDaily := fold_left (fun acc r => acc +! r) portfolioReturns (of_Z 0) in
  if (0 <? length portfolioReturns)%nat
  then meanDaily /! of_nat (length portfolioReturns) else of_Z 0.

Definition variance (portfolioReturns : list T) : T :=
  let meanDaily := meanDaily portfolioReturns in
  let variance :=
    fold_left (fun acc r => acc +! pow2 (r -! meanDaily)) portfolioReturns (of_Z 0) in
  if (0 <? length portfolioReturns)%nat
  then variance /! of_nat (length portfolioReturns) else of_Z 0.

Definition volatility (portfolioReturns : list T) : T :=
  Math_sqrt (variance portfolioReturns).

Definition annualisedReturn (portfolioReturns : list T) : T :=
  meanDaily portfolioReturns *! of_Z 252.

Definition annualisedVol (portfolioReturns : list T) : T :=
  volatility portfolioReturns *! Math_sqrt (of_Z 252).

Definition sharpe (portfolioReturns : list T) : T :=
  if negb (annualisedVol portfolioReturns =?! of_Z 0)
  then annualisedReturn portfolioReturns /! annualisedVol portfolioReturns
  else of_Z 0.
End Defs.
End PortfolioStats.

(** ** Rebasing a series to 100

    A series value is [Some v] for a number and [None] for [null] or
    [undefined] (the two values that [v != null] rejects). *)

Section Normalize.
Context {T : Type} `{Number T}.

(** [normalize] of [renderStockOverview].  [list_find] returns the index
    found by [findIndex] together with the element read at it. *)
Definition normalize (values : list (option T)) : list (option T) :=
  let base :=
    match list_find is_Some values with
    | Some (baseIndex, Some v) => v
    | _ => of_Z 1
    end in
  fmap (fun v => match v with
                | Some v => Some ((v /! base) *! of_Z 100)
                | None => None
                end) values.

(** [btcNorm] and [ethNorm] of [renderCryptoOverview]:
    [values.map((v, i) => (v / values[0]) * 100)]. *)
Definition cryptoNorm (values : list T) : list T :=
  match values with
  | [] => []
  | v0 :: _ => fmap (fun v => (v /! v0) *! of_Z 100) values
  end.
End Normalize.

(** ** Pearson correlation *)

(** The read [M[i][j]] of a matrix. *)
Definition entry {A : Type} (M : list (list A)) (i j : nat) : option A :=
  row ← M !! i; row !! j.

Section Correlation.
Context {T : Type} `{Number T}.

(** [corr] of [renderPortfolioCorrelation].  With
    [n = Math.min(a.length, b.length)], the loops over [i < n] read the
    pairs [(a[i], b[i])], which are the elements of [zip a b]. *)
Definition mean_step : T * T -> T * T -> T * T :=
  fun '(meanA, meanB) '(x, y) => (meanA +! x, meanB +! y).

Definition corr_step (meanA meanB : T) : T * T * T -> T * T -> T * T * T :=
  fun '(cov, varA, varB) '(x, y) =>
    let da := x -! meanA in
    let db := y -! meanB in
    (cov +! da *! db, varA +! da *! da, varB +! db *! db).

Definition corr (a b : list T) : T :=
  let n := Nat.min (length a) (length b) in
  if (n =? 0)%nat then of_Z 0 else
  let '(meanA, meanB) := fold_left mean_step (zip a b) (of_Z 0, of_Z 0) in
  let meanA := meanA /! of_nat n in
  let meanB := meanB /! of_nat n in
  let '(cov, varA, varB) :=
    fold_left (corr_step meanA meanB) (zip a b) (of_Z 0, of_Z 0, of_Z 0) in
  let denom := Math_sqrt (varA *! varB) in
  if denom =?! of_Z 0 then of_Z 0 else cov /! denom.

(** [tickers.map(rowKey => tickers.map(colKey => corr(..., ...)))], on
    the return series in ticker order. *)
Definition corrMatrix (returns : list (list T)) : list (list T) :=
  fmap (fun rowKey => fmap (fun colKey => corr rowKey colKey) returns) returns.

(** [correlationMatrix] of [setupPortfolioAnalytics]. *)
Definition row_mean (n : nat) (arr : list T) : T :=
  fold_left (fun a b => a +! b) arr (of_Z 0) /! of_nat n.

Definition row_std (n : nat) (arr : list T) : T :=
  let mean := row_mean n arr in
  Math_sqrt (fold_left (fun sum x => sum +! pow2 (x -! mean)) arr (of_Z 0)
             /! of_nat n).

(** The loop over [k < n].  A read [data[i][k]] outside its row yields
    [undefined], which turns [cov] into NaN for good: [None]. *)
Definition cov_step (di dj : list T) (mi mj : T) (cov : option T) (k : nat) : option T :=
  cov ← cov; x ← di !! k; y ← dj !! k;
  Some (cov +! (x -! mi) *! (y -! mj)).

Definition cov_loop (n : nat) (di dj : list T) (mi mj : T) : option T :=
  fold_left (cov_step di dj mi mj) (seq 0 n) (Some (of_Z 0)).

(** The same step on a pair [(data[i][k], data[j][k])] that was read
    inside both rows. *)
Definition cov_pair (mi mj : T) (cov : T) (xy : T * T) : T :=
  cov +! (xy.1 -! mi) *! (xy.2 -! mj).

Definition matrix_entry (n : nat) (di dj : list T) : option T :=
  cov ← cov_loop n di dj (row_mean n di) (row_mean n dj);
  Some ((cov /! of_nat n) /! (row_std n di *! row_std n dj)).

(** [None] is the TypeError of [data[0].length] on an empty [data]. *)
Definition correlationMatrix (data : list (list T)) : option (list (list (option T))) :=
  match data with
  | [] => None
  | d0 :: _ =>
      let n := length d0 in
      Some (fmap (fun di => fmap (fun dj => matrix_entry n di dj) data) data)
  end.
End Correlation.

(** ** JavaScript values and JSON

    [jsval] are the values that the cache helpers store and return.  A
    string held by [localStorage] is viewed up to [JSON.parse]: it is
    either a JSON text, given by the value it denotes, or a string that
    [JSON.parse] rejects. *)

Inductive jsval (T : Type) : Type :=
| JUndefined
| JNull
| JBool (b : bool)
| JNum (x : T)
| JStr (s : string)
| JArr (elements : list (jsval T))
| JObj (fields : list (string * jsval T)).

Arguments JUndefined {T}.
Arguments JNull {T}.
Arguments JBool {T} b.
Arguments JNum {T} x.
Arguments JStr {T} s.
Arguments JArr {T} elements.
Arguments JObj {T} fields.

Inductive text (T : Type) : Type :=
| JsonText (v : jsval T)
| OtherText (s : string).

Arguments JsonText {T} v.
Arguments OtherText {T} s.

Section Values.
Context {T : Type} `{Number T}.

(** Truthiness, as [!raw] and [cached || fallback()] test it. *)
Definition truthy (v : jsval T) : bool :=
  match v with
  | JUndefined | JNull => false
  | JBool b => b
  | JNum x => negb ((x =?! of_Z 0) || isNaN x)
  | JStr s => negb (String.eqb s "")
  | JArr _ | JObj _ => true
  end.

Definition text_truthy (raw : text T) : bool :=
  match raw with
  | JsonText _ => true
  | OtherText s => negb (String.eqb s "")
  end.

Fixpoint assoc (k : string) (fields : list (string * jsval T)) : option (jsval T) :=
  match fields with
  | [] => None
  | (k', v) :: fields' => if String.eqb k k' then Some v else assoc k fields'
  end.

(** The property read [v.k] of an own data property.  [None] is the
    TypeError of reading a property of [null] or [undefined]. *)
Definition get (v : jsval T) (k : string) : option (jsval T) :=
  match v with
  | JUndefined | JNull => None
  | JObj fields => Some (default JUndefined (assoc k fields))
  | _ => Some JUndefined
  end.

(** The value denoted by the text [JSON.stringify(v)]: [undefined] is
    left out of objects and becomes [null] in arrays, NaN and the
    infinities become [null], and -0 is written 0.  [None] says that
    [JSON.stringify] returns [undefined]. *)
Fixpoint json_value (v : jsval T) : option (jsval T) :=
  match v with
  | JUndefined => None
  | JNull => Some JNull
  | JBool b => Some (JBool b)
  | JNum x =>
      Some (if isFinite x then JNum (if x =?! of_Z 0 then of_Z 0 else x) else JNull)
  | JStr s => Some (JStr s)
  | JArr elements =>
      Some (JArr ((fun e => default JNull (json_value e)) <$> elements))
  | JObj fields =>
      Some (JObj ((fix members (fields : list (string * jsval T)) :=
                     match fields with
                     | [] => []
                     | (k, e) :: fields' =>
                         match json_value e with
                         | Some j => (k, j) :: members fields'
                         | None => members fields'
                         end
                     end) fields))
  end.

(** [setItem] stores the string of its argument; for [undefined] that is
    the string "undefined", which is no JSON text. *)
Definition JSON_stringify (v : jsval T) : text T :=
  match json_value v with
  | Some j => JsonText j
  | None => OtherText "undefined"
  end.

(** [None] is the SyntaxError of [JSON.parse]. *)
Definition JSON_parse (raw : text T) : option (jsval T) :=
  match raw with
  | JsonText v => Some v
  | OtherText _ => None
  end.
End Values.

(** The value that [JSON.stringify] writes for a number, as in
    [json_value]. *)
Definition json_number {T : Type} `{Number T} (x : T) : jsval T :=
  if isFinite x then JNum (if x =?! of_Z 0 then of_Z 0 else x) else JNull.

(** The members that [JSON.stringify] writes for an object, as in
    [json_value]. *)
Definition json_members {T : Type} `{Number T} (fields : list (string * jsval T))
  : list (string * jsval T) :=
  omap (fun '(k, e) => pair k <$> json_value e) fields.

(** ** [localStorage] and the cache helpers *)

Record localStorage (T : Type) : Type := {
  items : gmap string (text T);
  available : bool   (* false: every access throws (storage disabled) *)
}.

Arguments items {T} _.
Arguments available {T} _.

Section Cache.
Context {T : Type} `{Number T}.

(** [None] is the exception thrown by the access. *)
Definition setItem (k : string) (v : text T) (ls : localStorage T) : option (localStorage T) :=
  if available ls
  then Some {| items := <[k := v]> (items ls); available := available ls |}
  else None.

Definition getItem (k : string) (ls : localStorage T) : option (option (text T)) :=
  if available ls then Some (items ls !! k) else None.

Definition cache_key (key : string) : string := "investHubCache:" +:+ key.

(** [now] is the reading of [Date.now()]. *)
Definition saveToCache (key : string) (data : jsval T) (now : Z) (ls : localStorage T)
  : localStorage T :=
  let payload := JObj [("timestamp", JNum (of_Z now)); ("data", data)] in
  match setItem (cache_key key) (JSON_stringify payload) ls with
  | Some ls' => ls'
  | None => ls
  end.

Definition loadFromCache (key : string) (ls : localStorage T) : jsval T :=
  match getItem (cache_key key) ls with
  | Some (Some raw) =>
      if negb (text_truthy raw) then JNull
      else match JSON_parse raw with
           | Some parsed =>
               match get parsed "data" with
               | Some data => data
               | None => JNull
               end
           | None => JNull
           end
  | Some None => JNull
  | None => JNull
  end.
End Cache.

(** ** Providers

    A provider answers a request with a JSON body or not at all
    ([Rejected]: [fetch] or [res.json()] rejects).  A body is given by the
    fields that the client reads; a numeric field holds the number that
    the client extracts from it ([parseFloat] or [Number] of the field,
    NaN when it cannot be parsed). *)

Inductive reply (B : Type) : Type :=
| Rejected
| Body (json : B).

Arguments Rejected {B}.
Arguments Body {B} json.

Definition body {B : Type} (r : reply B) : option B :=
  match r with
  | Rejected => None
  | Body json => Some json
  end.

Record series (T : Type) : Type := { labels : list string; values : list T }.
Arguments labels {T} _.
Arguments values {T} _.
Arguments Build_series {T} _ _.

(** [bar_ts] is [bar.t || bar.timestamp || bar.start || ''] and [bar_c]
    the number read from [bar.c ?? bar.close]. *)
Record bar (T : Type) : Type := { bar_ts : string; bar_c : T }.
Arguments bar_ts {T} _.
Arguments bar_c {T} _.

(** [json.bars] and [json.data.bars]; [None] when the field is missing. *)
Record alpaca_json (T : Type) : Type := {
  alpaca_bars : option (list (bar T));
  alpaca_data_bars : option (list (bar T))
}.
Arguments alpaca_bars {T} _.
Arguments alpaca_data_bars {T} _.

(** [json['Time Series (Daily)']]: the closes ['4. close'] by date. *)
Record alpha_json (T : Type) : Type := {
  time_series_daily : option (list (string * T))
}.
Arguments time_series_daily {T} _.

Record eia_item (T : Type) : Type := { period : string; value : T }.
Arguments period {T} _.
Arguments value {T} _.

(** [json?.response?.data] *)
Record eia_json (T : Type) : Type := { response_data : option (list (eia_item T)) }.
Arguments response_data {T} _.

Record twelve_item (T : Type) : Type := { datetime : string; close : T }.
Arguments datetime {T} _.
Arguments close {T} _.

Record twelve_json (T : Type) : Type := { twelve_values : option (list (twelve_item T)) }.
Arguments twelve_values {T} _.

Inductive request : Type :=
| AlpacaBars (symbol : string)
| AlphaVantageDaily (symbol : string)
| EIASeries (id : string)
| TwelveTimeSeries (symbol : string).

(** What the outside answers during one call: the providers, the clock
    and the successive results of [Math.random()]. *)
Record world (T : Type) : Type := {
  alpaca : string -> reply (alpaca_json T);
  alphavantage : string -> reply (alpha_json T);
  eia : string -> reply (eia_json T);
  twelvedata : string -> reply (twelve_json T);
  Date_now : Z;
  Math_random : nat -> T
}.
Arguments alpaca {T} _ _.
Arguments alphavantage {T} _ _.
Arguments eia {T} _ _.
Arguments twelvedata {T} _ _.
Arguments Date_now {T} _.
Arguments Math_random {T} _ _.

(** The state that a fetch works on: the cache and, in order, the requests
    sent so far. *)
Record state (T : Type) : Type := {
  storage : localStorage T;
  requests : list request
}.
Arguments storage {T} _.
Arguments requests {T} _.
Arguments Build_state {T} _ _.

Definition M (T A : Type) : Type := state T -> A * state T.

Definition ret {T A : Type} (a : A) : M T A := fun st => (a, st).

Definition bind {T A B : Type} (m : M T A) (k : A -> M T B) : M T B :=
  fun st => let '(a, st') := m st in k a st'.

Notation "'let*' x ':=' m 'in' k" := (bind m (fun x => k))
  (at level 10, x name, m at level 100, k at level 200).

(** [await fetch(url)] followed by [await res.json()]. *)
Definition http {T B : Type} (r : request) (answer : reply B) : M T (option B) :=
  fun st => (body answer, {| storage := storage st; requests := requests st ++ [r] |}).

Definition save {T : Type} `{Number T} (key : string) (data : jsval T) (now : Z) : M T unit :=
  fun st => (tt, {| storage := saveToCache key data now (storage st);
                    requests := requests st |}).

Definition load {T : Type} `{Number T} (key : string) : M T (jsval T) :=
  fun st => (loadFromCache key (storage st), st).

(** [Math.sin], which binary64 leaves to the engine. *)
Class Trig (T : Type) := { Math_sin : T -> T }.

#[export] Instance real_trig : Trig R := { Math_sin := Rtrigo_def.sin }.

(** [date.toISOString().substring(0, 10)] of the instant [ms]
    milliseconds after the epoch, for the years 0000 to 9999. *)
Definition pad (width : nat) (n : Z) : string :=
  let digits := pretty n in
  String.concat "" (replicate (width - String.length digits) "0") +:+ digits.

Definition iso_date (ms : Z) : string :=
  let z := (ms / 86400000 + 719468)%Z in
  let era := (z / 146097)%Z in
  let doe := (z - era * 146097)%Z in
  let yoe := ((doe - doe / 1460 + doe / 36524 - doe / 146096) / 365)%Z in
  let doy := (doe - (365 * yoe + yoe / 4 - yoe / 100))%Z in
  let mp := ((5 * doy + 2) / 153)%Z in
  let d := (doy - (153 * mp + 2) / 5 + 1)%Z in
  let m := (if (mp <? 10)%Z then mp + 3 else mp - 9)%Z in
  let y := (yoe + era * 400 + (if (m <=? 2)%Z then 1 else 0))%Z in
  pad 4 y +:+ "-" +:+ pad 2 m +:+ "-" +:+ pad 2 d.

Section Fetch.
Context {T : Type} `{Number T}.

Definition series_to_js (s : series T) : jsval T :=
  JObj [("labels", JArr (JStr <$> labels s)); ("values", JArr (JNum <$> values s))].

Definition all_numbers (values : list T) : bool :=
  forallb (fun v => negb (isNaN v)) values.

(** *** Equities ([fetchEquitySeries]) *)

(** The body of [fetchFromAlpaca] after the response; [None] is an
    exception, which the function catches to return [null]. *)
(** [json.bars || (json.data && json.data.bars) || []]; an array, even an
    empty one, is truthy. *)
Definition bars_of (json : alpaca_json T) : list (bar T) :=
  match alpaca_bars json with
  | Some bars => bars
  | None => default [] (alpaca_data_bars json)
  end.

Definition alpaca_series (json : alpaca_json T) : option (series T) :=
  let bars := bars_of json in
  if (length bars =? 0)%nat then None else
  let labels :=
    (fun bar => let ts := bar_ts bar in
                if negb (String.eqb ts "") then String.substring 0 10 ts else "") <$> bars in
  let values := bar_c <$> bars in
  if all_numbers values then Some {| labels := labels; values := values |} else None.

Definition fetchFromAlpaca (w : world T) (symbol : string) : M T (option (series T)) :=
  let* json := http (AlpacaBars symbol) (alpaca w symbol) in
  ret (json ≫= alpaca_series).

(** The [try] block of the AlphaVantage fallback after the response. *)
Definition alphavantage_series (json : alpha_json T) : option (series T) :=
  series ← time_series_daily json;
  let keys := js_sort (fun a b => String.ltb b a) (fst <$> series) in
  let dates := drop (length keys - 30) keys in
  values ← mapM (fun date => (fun found => found.2.2)
                               <$> list_find (fun entry => entry.1 = date) series) dates;
  if all_numbers values then Some {| labels := dates; values := values |} else None.

Section Sample.
Context `{Trig T}.

Definition sample (symbol : string) : series T :=
  let labels := (fun i => "Day " +:+ pretty (i + 1)%nat) <$> seq 0 30 in
  let base : T := if String.eqb symbol "TSLA" then of_Z 250 else of_Z 450 in
  let values :=
    (fun i => base +! Math_sin (of_nat i /! of_Z 5) *! of_Z 8 +! of_nat i *! decimal 5 1)
      <$> seq 0 30 in
  {| labels := labels; values := values |}.

Definition fetchEquitySeries (w : world T) (symbol : string) : M T (series T) :=
  let* alpacaData := fetchFromAlpaca w symbol in
  match alpacaData with
  | Some alpacaData => ret alpacaData
  | None =>
      let* json := http (AlphaVantageDaily symbol) (alphavantage w symbol) in
      ret (default (sample symbol) (json ≫= alphavantage_series))
  end.
End Sample.

(** *** Twelve Data ([fetchTwelveSeries]) *)

Definition twelve_series (json : twelve_json T) : option (series T) :=
  items ← twelve_values json;
  Some {| labels := reverse (datetime <$> items); values := reverse (close <$> items) |}.

Definition fetchTwelveSeries (w : world T) (symbol : string) : M T (option (series T)) :=
  let* json := http (TwelveTimeSeries symbol) (twelvedata w symbol) in
  ret (json ≫= twelve_series).

(** *** WTI crude oil ([fetchOilPriceSeries]) *)

Definition oil_fallback (w : world T) : series T :=
  let today := Date_now w in
  {| labels := (fun k => let i := Z.of_nat (364 - k) in
                         iso_date (today - i * 24 * 3600 * 1000)) <$> seq 0 365;
     values := (fun k => let i := (364 - k)%nat in
                         let base := of_Z 60 +! (of_Z 365 -! of_nat i) *! decimal 2 2 in
                         base +! (Math_random w k -! decimal 5 1) *! of_Z 2) <$> seq 0 365 |}.

(** The [try] block after the response, up to the two arrays.  The
    comparator answers -1 for two items of the same period, in either
    order: where the engine puts them is not determined by the script,
    and they are kept here in the order of the response. *)
Definition eia_series (json : eia_json T) : option (series T) :=
  series ← response_data json;
  if (length series =? 0)%nat then None else
  let series := js_sort (fun a b => String.ltb (period b) (period a)) series in
  Some {| labels := period <$> series; values := value <$> series |}.

Definition fetchOilPriceSeries (w : world T) : M T (jsval T) :=
  let* json := http (EIASeries "PET.RWTC.D") (eia w "PET.RWTC.D") in
  match json ≫= eia_series with
  | Some s =>
      let* _ := save "oilPriceSeries" (series_to_js s) (Date_now w) in
      ret (series_to_js s)
  | None =>
      let* cached := load "oilPriceSeries" in
      ret (if truthy cached then cached else series_to_js (oil_fallback w))
  end.
End Fetch.

(** ** Further parts of the script

    The functions below surround the ones above in [script.js]: the
    sibling of the oil fetch, the code that feeds the portfolio
    statistics, and the pure computations of the renderers. *)

(** *** Henry Hub natural gas ([fetchGasPriceSeries]) *)

Section Gas.
Context {T : Type} `{Number T}.

Definition gas_fallback (w : world T) : series T :=
  let today := Date_now w in
  {| labels := (fun k => let i := Z.of_nat (364 - k) in
                         iso_date (today - i * 24 * 3600 * 1000)) <$> seq 0 365;
     values := (fun k => let i := (364 - k)%nat in
                         let base := decimal 25 1 +! (of_Z 365 -! of_nat i) *! decimal 5 3 in
                         base +! (Math_random w k -! decimal 5 1) *! decimal 3 1) <$> seq 0 365 |}.

Definition fetchGasPriceSeries (w : world T) : M T (jsval T) :=
  let* json := http (EIASeries "NG.RNGWHHD.D") (eia w "NG.RNGWHHD.D") in
  match json ≫= eia_series with
  | Some s =>
      let* _ := save "gasPriceSeries" (series_to_js s) (Date_now w) in
      ret (series_to_js s)
  | None =>
      let* cached := load "gasPriceSeries" in
      ret (if truthy cached then cached else series_to_js (gas_fallback w))
  end.
End Gas.

(** *** From prices to returns ([renderPortfolioPerformance],
    [fetchHistoryData], [renderPortfolioStats] and the charts beside it)

    A dataset is an array of numbers and [null]s: [Some v] and [None]. *)

Section Pipeline.
Context {T : Type} `{Number T}.

(** The rebasing of [fetchHistoryData] and [renderPortfolioPerformance]:
    [series.map(v => v !== null && base ? (v / base) * 100 : null)] with
    [base] the first value that is not [null], or 1. *)
Definition normalized (series : list (option T)) : list (option T) :=
  let base :=
    match list_find is_Some series with
    | Some (baseIndex, Some v) => v
    | _ => of_Z 1
    end in
  fmap (fun v => match v with
                | Some v => if truthy (JNum base) then Some ((v /! base) *! of_Z 100) else None
                | None => None
                end) series.

(** [toReturns] of [renderPortfolioStats]; the same loop is written out in
    [renderPortfolioCorrelation], [renderPortfolioHistogram] and
    [computeStats]. *)
Fixpoint toReturns (series : list (option T)) : list T :=
  match series with
  | prev :: ((curr :: _) as rest) =>
      match prev, curr with
      | Some prev, Some curr => ((curr -! prev) /! prev) :: toReturns rest
      | _, _ => toReturns rest
      end
  | _ => []
  end.

(** [totalReturn] of [renderPortfolioStats]: [start] and [end] are the
    first and the last value that is not [null]; a missing one is
    [undefined], which is falsy. *)
Definition totalReturn (series : list (option T)) : T :=
  match list_find is_Some series, list_find is_Some (reverse series) with
  | Some (_, Some start), Some (_, Some end_) =>
      if truthy (JNum end_) && truthy (JNum start)
      then (end_ -! start) /! start else of_Z 0
  | _, _ => of_Z 0
  end.

(** The contribution of one ticker to [betaSum]. *)
Definition beta_step (meanAsset meanBench : T) : T * T -> T * T -> T * T :=
  fun '(cov, varBench) '(x, y) =>
    (cov +! (x -! meanAsset) *! (y -! meanBench), varBench +! pow2 (y -! meanBench)).

Definition beta (assetReturns benchmarkReturns : list T) : T :=
  let n := Nat.min (length assetReturns) (length benchmarkReturns) in
  let '(meanAsset, meanBench) :=
    fold_left mean_step (zip assetReturns benchmarkReturns) (of_Z 0, of_Z 0) in
  if (0 <? n)%nat then
    let meanAsset := meanAsset /! of_nat n in
    let meanBench := meanBench /! of_nat n in
    let '(cov, varBench) :=
      fold_left (beta_step meanAsset meanBench) (zip assetReturns benchmarkReturns)
        (of_Z 0, of_Z 0) in
    let cov := cov /! of_nat n in
    let varBench := varBench /! of_nat n in
    if negb (varBench =?! of_Z 0) then cov /! varBench else of_Z 1
  else of_Z 1.

(** [portfolioReturns] of [renderPortfolioStats]: [datasets] holds the
    series in the order of [Object.keys].  A read outside a series yields
    [undefined], which [!= null] rejects like [null]. *)
Definition day_step (i : nat) : T * nat -> list (option T) -> T * nat :=
  fun '(sumR, count) series =>
    match mjoin (series !! (i - 1)%nat), mjoin (series !! i) with
    | Some prev, Some curr => (sumR +! (curr -! prev) /! prev, S count)
    | _, _ => (sumR, count)
    end.

Definition portfolioReturns (datasets : list (list (option T))) : list T :=
  match datasets with
  | [] => []
  | firstSeries :: _ =>
      fmap (fun i => let '(sumR, count) := fold_left (day_step i) datasets (of_Z 0, 0%nat) in
                     if (0 <? count)%nat then sumR /! of_nat count else of_Z 0)
           (seq 1 (length firstSeries - 1))
  end.

(** [computeStats] of [renderPortfolioRiskReturn]: the pair [(avg, std)]. *)
Definition computeStats (series : list (option T)) : T * T :=
  let returns := toReturns series in
  let n := length returns in
  if (n =? 0)%nat then (of_Z 0, of_Z 0) else
  let mean := fold_left (fun sum r => sum +! r) returns (of_Z 0) /! of_nat n in
  let variance := fold_left (fun variance r => variance +! pow2 (r -! mean)) returns (of_Z 0) in
  let variance := variance /! of_nat n in
  let std := Math_sqrt variance in
  (mean *! of_Z 252, std *! Math_sqrt (of_Z 252)).

(** [returnsMap] and [matrix] of [renderPortfolioCorrelation], which it
    computes for two tickers or more. *)
Definition returnsMatrix (datasets : list (list (option T))) : list (list T) :=
  corrMatrix (toReturns <$> datasets).
End Pipeline.

(** *** The series of the performance chart ([renderPortfolioPerformance])

    The loop over [tickers], up to the assignments [datasets[sym] = ...],
    which are returned in the order in which the loop makes them, and the
    final [labels]. *)

Section Performance.
Context {T : Type} `{Number T} `{Trig T}.

(** The requests that [fetchEquitySeries] sends for one symbol. *)
Definition equity_requests (w : world T) (sym : string) : list request :=
  AlpacaBars sym ::
  match body (alpaca w sym) ≫= alpaca_series with
  | Some _ => []
  | None => [AlphaVantageDaily sym]
  end.

(** [tickers.indexOf(sym)] *)
Definition indexOf (tickers : list string) (sym : string) : Z :=
  match list_find (fun t => t = sym) tickers with
  | Some (i, _) => Z.of_nat i
  | None => -1
  end.

(** [fetchEquitySeries] first; [fetchTwelveSeries] when [series] is still
    [null] after it. *)
Definition performance_series (w : world T) (sym : string) : M T (option (series T)) :=
  let* res := fetchEquitySeries w sym in
  let series :=
    if truthy (series_to_js res)
       && truthy (default JUndefined (get (series_to_js res) "labels"))
       && truthy (default JUndefined (get (series_to_js res) "values"))
    then Some res else None in
  match series with
  | Some series => ret (Some series)
  | None => fetchTwelveSeries w sym
  end.

Definition performance_fallback (tickers : list string) (sym : string) : list (option T) :=
  (fun i => Some (of_Z 100 +! Math_sin (of_nat i /! of_Z 3) *! of_Z 5
                  +! of_nat i *! of_Z (indexOf tickers sym + 1))) <$> seq 0 30.

(** One round, from the [labels] before it ([labels0]) to the [labels]
    after it and the array assigned to [datasets[sym]]. *)
Definition performance_round (w : world T) (tickers : list string)
    (labels0 : list string) (sym : string) : M T (list string * list (option T)) :=
  let* series := performance_series w sym in
  let labels1 :=
    match series with
    | Some series => if (length labels0 =? 0)%nat then labels series else labels0
    | None => labels0
    end in
  let days := (fun i => "Day " +:+ pretty (i + 1)%nat) <$> seq 0 30 in
  match series with
  | Some series =>
      if (0 <? length (values series))%nat
      then ret (labels1, normalized (Some <$> values series))
      else ret (if (length labels1 =? 0)%nat then days else labels1,
                performance_fallback tickers sym)
  | None =>
      ret (if (length labels1 =? 0)%nat then days else labels1,
           performance_fallback tickers sym)
  end.

Fixpoint performance_rounds (w : world T) (tickers : list string)
    (labels : list string) (rest : list string)
  : M T (list string * list (string * list (option T))) :=
  match rest with
  | [] => ret (labels, [])
  | sym :: rest =>
      let* round := performance_round w tickers labels sym in
      let* result := performance_rounds w tickers round.1 rest in
      ret (result.1, (sym, round.2) :: result.2)
  end.

Definition performance_datasets (w : world T) (tickers : list string)
  : M T (list string * list (string * list (option T))) :=
  performance_rounds w tickers [] tickers.
End Performance.

(** *** [Math.min] and [Math.max]

    On binary64: NaN when an argument is NaN, and -0 below +0. *)

Class MinMax (T : Type) := { Math_min : T -> T -> T; Math_max : T -> T -> T }.

#[export] Instance float_minmax : MinMax float := {
  Math_min := fun a b =>
    if (PrimFloat.is_nan a || PrimFloat.is_nan b)%bool then nan
    else if PrimFloat.ltb a b then a
    else if PrimFloat.ltb b a then b
    else if PrimFloat.get_sign a then a else b;
  Math_max := fun a b =>
    if (PrimFloat.is_nan a || PrimFloat.is_nan b)%bool then nan
    else if PrimFloat.ltb a b then b
    else if PrimFloat.ltb b a then a
    else if PrimFloat.get_sign a then b else a
}.

#[export] Instance real_minmax : MinMax R := { Math_min := Rmin; Math_max := Rmax }.

(** *** The histogram of daily returns ([renderPortfolioHistogram]) *)

Section Histogram.
Context {T : Type} `{Number T} `{MinMax T}.

(** The returns of all series, in the order of [Object.values]. *)
Definition all_returns (datasets : list (list (option T))) : list T :=
  datasets ≫= toReturns.

Definition binCount : nat := 10.

(** [(maxVal - minVal) / binCount || 0.001] *)
Definition binSize (minVal maxVal : T) : T :=
  let size := (maxVal -! minVal) /! of_nat binCount in
  if truthy (JNum size) then size else decimal 1 3.

(** The index of the bin of [val] after the two clamps.  When the
    quotient is an infinity so is [idx], which the clamps bring to the
    first or the last bin; when it is NaN so is [idx], both tests fail and
    [counts[idx]++] does not touch a bin: [None]. *)
Definition bin_index (minVal binSize val : T) : option nat :=
  let q := (val -! minVal) /! binSize in
  match Math_floor q with
  | Some idx =>
      Some (if (idx <? 0)%Z then 0%nat
            else if (Z.of_nat binCount <=? idx)%Z then (binCount - 1)%nat
            else Z.to_nat idx)
  | None =>
      if isNaN q then None
      else if q <?! of_Z 0 then Some 0%nat else Some (binCount - 1)%nat
  end.

(** One round of [returns.forEach]. *)
Definition count_step (minVal binSize : T) (counts : list nat) (val : T) : list nat :=
  match bin_index minVal binSize val with
  | Some idx => alter S idx counts
  | None => counts
  end.

(** [counts] after the loop; [None] when there is no return and the
    function returns before drawing. *)
Definition histogram (datasets : list (list (option T))) : option (list nat) :=
  match all_returns datasets with
  | [] => None
  | r :: returns =>
      let minVal := fold_left Math_min returns r in
      let maxVal := fold_left Math_max returns r in
      let binSize := binSize minVal maxVal in
      Some (fold_left (count_step minVal binSize) (r :: returns) (replicate binCount 0%nat))
  end.
End Histogram.

(** *** The synthetic portfolio of [setupPortfolioAnalytics]

    [random k] is the result of the call number [k] of [Math.random()],
    and [prices] holds, for each symbol, [lastWatchlistData[sym].price]
    when it is a number. *)

Section SyntheticPortfolio.
Context {T : Type} `{Number T}.

Definition numDays : nat := 60.

Record holding : Type := {
  price : T;
  weight : T;
  first_draw : nat   (* the call of [Math.random()] that gives its first return *)
}.

(** [assetReturns[i][j]] for the holding whose loop starts at [start]. *)
Definition drift (random : nat -> T) (start j : nat) : T :=
  (random (start + j)%nat -! decimal 4 1) *! decimal 2 2.

Fixpoint holdings (random : nat -> T) (next : nat) (randWeights : list T)
    (prices : list (option T)) : list holding :=
  match prices, randWeights with
  | data_price :: prices, w :: randWeights =>
      let '(price, next) :=
        match data_price with
        | Some price => (price, next)
        | None => (of_Z 100 +! random next *! of_Z 100, S next)
        end in
      {| price := price; weight := w; first_draw := next |}
        :: holdings random (next + numDays) randWeights prices
  | _, _ => []
  end.

Definition randWeights (random : nat -> T) (symbols : nat) : list T :=
  let randWeights := random <$> seq 0 symbols in
  let totalRand := fold_left (fun a b => a +! b) randWeights (of_Z 0) in
  (fun w => w /! totalRand) <$> randWeights.

Definition syntheticReturns (random : nat -> T) (prices : list (option T)) : list T :=
  let holdings := holdings random (length prices) (randWeights random (length prices)) prices in
  (fun d => fold_left (fun value h => value +! drift random (first_draw h) d *! weight h)
                      holdings (of_Z 0)) <$> seq 0 numDays.
End SyntheticPortfolio.

Arguments holding T : clear implicits.

(** *** Synthetic candles ([generateSample] of [fetchOHLC])

    A candle is [y = [open, high, low, close]]; candle [i] makes the calls
    [4 i] to [4 i + 3] of [Math.random()]. *)

Section Candles.
Context {T : Type} `{Number T} `{MinMax T}.

Definition candle (random : nat -> T) (base : T) (i : nat) : T * T * T * T :=
  let open := base +! (random (4 * i)%nat -! decimal 5 1) *! of_Z 5 in
  let close := open +! (random (4 * i + 1)%nat -! decimal 5 1) *! of_Z 5 in
  let high := Math_max open close +! random (4 * i + 2)%nat *! of_Z 3 in
  let low := Math_min open close -! random (4 * i + 3)%nat *! of_Z 3 in
  (open, high, low, close).

Fixpoint candles (random : nat -> T) (base : T) (i n : nat) : list (T * T * T * T) :=
  match n with
  | O => []
  | S n =>
      let y := candle random base i in
      y :: candles random y.2 (S i) n
  end.

Definition generateSample (random : nat -> T) : list (T * T * T * T) :=
  candles random (of_Z 400) 0 30.
End Candles.

(** A candle whose low and high enclose its open and close, less than
    8.5 apart. *)
Definition well_formed (y : R * R * R * R) : Prop :=
  let '(open, high, low, close) := y in
  (low <= open <= high /\ low <= close <= high /\ high - low < 8.5)%R.

(** *** The energy charts ([renderEnergyCharts], [renderEnergyStats]) *)

Section Energy.
Context {T : Type} `{Number T}.

(** The points of the oil chart: the last [days] points of the series,
    thinned out to every [sampleInterval]-th one and the last.  A value
    missing at an index is [undefined]: [None]. *)
Definition sampled {A B : Type} (days : Z) (labels : list A) (values : list B)
  : list (A * option B) :=
  let len := length labels in
  let sliceStart := Z.to_nat (Z.max 0 (Z.of_nat len - days)) in
  let slicedLabels := drop sliceStart labels in
  let slicedValues := drop sliceStart values in
  let sampleInterval := Nat.max 1 (length slicedLabels / 12) in
  omap (fun '(idx, lab) =>
          if ((idx mod sampleInterval =? 0) || (idx =? length slicedLabels - 1))%nat
          then Some (lab, slicedValues !! idx) else None)
       (imap pair slicedLabels).

(** The donut of the energy mix: the last value of every fuel, as shares
    of their total, in descending order. *)
Definition lastValues (datasets : list (string * list T)) : list T :=
  (fun d => default (of_Z 0) (last d.2)) <$> datasets.

Definition shares (datasets : list (string * list T)) : list (string * T) :=
  let lastValues := lastValues datasets in
  let sum := fold_left (fun sum v => sum +! v) lastValues (of_Z 0) in
  let total := if truthy (JNum sum) then sum else of_Z 1 in
  zip (fst <$> datasets) ((fun v => (v /! total) *! of_Z 100) <$> lastValues).

Definition by_share (a b : string * T) : bool := num_gtb (b.2 -! a.2) (of_Z 0).

Definition sortedShares (datasets : list (string * list T)) : list (string * T) :=
  js_sort by_share (shares datasets).

(** [dominantFuel] of [renderEnergyStats].  [maxVal] starts at
    [-Infinity], which is [None] here; [val], after [|| 0], is no NaN, so
    that [val > -Infinity] fails only for [val = -Infinity]. *)
Definition dominant_step (lastIdx : nat)
    (st : option T * option string) (entry : string * list T) : option T * option string :=
  let '(fuel, series) := entry in
  let val := match series !! lastIdx with
             | Some v => if truthy (JNum v) then v else of_Z 0
             | None => of_Z 0
             end in
  let greater :=
    match st.1 with
    | Some maxVal => num_gtb val maxVal
    | None => isFinite val || num_gtb val (of_Z 0)
    end in
  if greater then (Some val, Some fuel) else st.

Definition dominantFuel (labels : list string) (datasets : list (string * list T))
  : option string :=
  if (0 <? length labels)%nat
  then (fold_left (dominant_step (length labels - 1)) datasets (None, None)).2
  else None.
End Energy.

(** *** Candles and moving average of a token ([renderCryptoCandleChart])

    Candle [i] makes the calls [2 i] and [2 i + 1] of [Math.random()];
    [prev] is the close before it, [None] for the first candle. *)

Section CryptoCandles.
Context {T : Type} `{Number T} `{MinMax T}.

Fixpoint crypto_candles (random : nat -> T) (prev : option T) (i : nat) (closes : list T)
  : list (T * T * T * T) :=
  match closes with
  | [] => []
  | close :: closes =>
      let open := match prev with None => close | Some prev => prev end in
      let maxVal := Math_max open close in
      let minVal := Math_min open close in
      let range := maxVal *! decimal 2 2 in
      let high := maxVal +! random (2 * i)%nat *! range in
      let low := Math_max (minVal -! random (2 * i + 1)%nat *! range) (of_Z 0) in
      (open, high, low, close) :: crypto_candles random (Some close) (S i) closes
  end.

(** [ma]: [null] for the first four days, then the mean of
    [closes.slice(i - 4, i + 1)]. *)
Definition movingAverage (closes : list T) : list (option T) :=
  imap (fun i _ =>
          if (i <? 4)%nat then None
          else let window := take 5 (drop (i - 4) closes) in
               Some (fold_left (fun sum v => sum +! v) window (of_Z 0) /! of_Z 5))
       closes.
End CryptoCandles.

(** *** Open interest below and above the median strike
    ([renderCallPutRatioChart])

    An entry of [data.oi] that is no number, or NaN, counts as 0; such an
    entry, like a missing one, is [None]. *)

Section CallPut.
Context {T : Type} `{Number T}.

Definition median (strikes : list T) : option T :=
  let sortedStrikes := js_sort PortfolioAnalytics.by_difference strikes in
  sortedStrikes !! (length sortedStrikes / 2)%nat.

(** [strike <= median] *)
Definition num_leb (a b : T) : bool := (a <?! b) || (a =?! b).

(** The loop state is [(lowerOI, higherOI)]. *)
Definition oi_step (median : T) (oi : list (option T)) (st : T * T) (entry : nat * T) : T * T :=
  let '(lowerOI, higherOI) := st in
  let '(idx, strike) := entry in
  let oiVal := match mjoin (oi !! idx) with
               | Some v => if isNaN v then of_Z 0 else v
               | None => of_Z 0
               end in
  if num_leb strike median then (lowerOI +! oiVal, higherOI)
  else (lowerOI, higherOI +! oiVal).

(** [(lowerPct, higherPct)] *)
Definition callPutPercentages (strikes : list T) (oi : list (option T)) : T * T :=
  let '(lowerOI, higherOI) :=
    match median strikes with
    | Some median => fold_left (oi_step median oi) (imap pair strikes) (of_Z 0, of_Z 0)
    | None => (of_Z 0, of_Z 0)
    end in
  let '(lowerOI, higherOI) :=
    if (lowerOI =?! of_Z 0) && (higherOI =?! of_Z 0) then (of_Z 1, of_Z 1)
    else (lowerOI, higherOI) in
  let total := lowerOI +! higherOI in
  ((lowerOI /! total) *! of_Z 100, (higherOI /! total) *! of_Z 100).
End CallPut.

(** *** Stock fundamentals ([fetchStockFundamentals])

    The answer of the OVERVIEW endpoint, when it passes the test of the
    function (an object that is not empty and has no [Note]), is given by
    the numbers that [parseFloat] reads from its five fields, NaN for a
    field that is missing or unreadable; an answer that fails the test is
    [None]. *)

Record overview (T : Type) : Type := {
  PERatio : T;
  MarketCapitalization : T;
  EPS : T;
  Beta : T;
  DividendYield : T
}.
Arguments PERatio {T} _.
Arguments MarketCapitalization {T} _.
Arguments EPS {T} _.
Arguments Beta {T} _.
Arguments DividendYield {T} _.

Section Fundamentals.
Context {T : Type} `{Number T}.

(** [isNaN(x) ? null : x] *)
Definition number_or_null (x : T) : jsval T := if isNaN x then JNull else JNum x.

Definition fundamentals_result (data : overview T) : jsval T :=
  JObj [("pe", number_or_null (PERatio data));
        ("marketCap", number_or_null (MarketCapitalization data));
        ("eps", number_or_null (EPS data));
        ("beta", number_or_null (Beta data));
        ("dividendYield", number_or_null (DividendYield data))].

Definition fundamentals_fallback : jsval T :=
  JObj [("pe", JNull); ("marketCap", JNull); ("eps", JNull); ("beta", JNull);
        ("dividendYield", JNull)].

(** The result and the storage after the call; [now] is the reading of
    [Date.now()] in [saveToCache]. *)
Definition fetchStockFundamentals (answer : reply (option (overview T))) (now : Z)
    (symbol : string) (ls : localStorage T) : jsval T * localStorage T :=
  match mjoin (body answer) with
  | Some data =>
      let result := fundamentals_result data in
      (result, saveToCache ("fundamentals:" +:+ symbol) result now ls)
  | None =>
      let cached := loadFromCache ("fundamentals:" +:+ symbol) ls in
      (if truthy cached then cached else fundamentals_fallback, ls)
  end.
End Fundamentals.

(** *** The arguments of [correlationMatrix] and the test [==]
    ([setupPortfolioAnalytics]) *)

Section CorrelationInput.
Context {T : Type} `{Number T}.

(** [assetReturns], the argument of [correlationMatrix]: one row of
    [numDays] returns for each symbol. *)
Definition assetReturns (random : nat -> T) (prices : list (option T)) : list (list T) :=
  (fun h => drift random (first_draw h) <$> seq 0 numDays)
    <$> holdings random (length prices) (randWeights random (length prices)) prices.

(** [M[i][j] == M[j][i]] on two entries of [correlationMatrix], where
    [None] is a NaN. *)
Definition entry_eqb (a b : option T) : bool :=
  match a, b with
  | Some x, Some y => x =?! y
  | _, _ => false
  end.
End CorrelationInput.

(** *** Option chains ([fetchOptionData])

    [Math.exp], which binary64 leaves to the engine. *)
Class Exp (T : Type) := { Math_exp : T -> T }.

#[export] Instance real_exp : Exp R := { Math_exp := exp }.

(** [Math.abs], [Math.round] and [x.toFixed(digits)] read back as a
    number ([Number] or [parseFloat] of the string).  [toFixed] writes the
    decimal with [digits] decimals that is nearest to [x], the larger one
    of two, keeps the sign of a negative [x], and writes a number from
    10^21 on as [String] does; the number read back is the binary64 value
    nearest to that decimal. *)
Class Rounding (T : Type) := {
  Math_abs : T -> T;
  Math_round : T -> T;
  toFixed : nat -> T -> T
}.

Definition float_round (x : float) : float :=
  match Prim2SF x with
  | S754_finite s m e =>
      if (0 <=? e)%Z then x else
      let n := (if s then Z.neg m else Z.pos m) in
      let q := ((2 * n + 2 ^ (- e)) / 2 ^ (1 - e))%Z in     (* floor (x + 1/2) *)
      if (q =? 0)%Z then (if s then (-0)%float else 0%float) else F64.of_Z q
  | _ => x
  end.

Definition float_toFixed (digits : nat) (x : float) : float :=
  match Prim2SF x with
  | S754_finite s m e =>
      let scale := (10 ^ Z.of_nat digits)%Z in
      if ((0 <=? e) && (10 ^ 21 <=? Z.pos m * 2 ^ e))%Z then x else
      let n := (if 0 <=? e then Z.pos m * 2 ^ e * scale
                else (2 * Z.pos m * scale + 2 ^ (- e)) / 2 ^ (1 - e))%Z in
      match n with
      | Zpos n => SF2Prim (SFdiv prec emax (S754_finite s n 0)
                                            (S754_finite false (Z.to_pos scale) 0))
      | _ => if s then (-0)%float else 0%float
      end
  | S754_zero _ => 0%float
  | _ => x
  end.

#[export] Instance float_rounding : Rounding float := {
  Math_abs := PrimFloat.abs;
  Math_round := float_round;
  toFixed := float_toFixed
}.

#[export] Instance real_rounding : Rounding R := {
  Math_abs := Rabs;
  Math_round := fun x => IZR (Int_part (x + 1 / 2));
  toFixed := fun digits x =>
    if Rle_dec (10 ^ 21) (Rabs x) then x else
    let scale := IZR (10 ^ Z.of_nat digits) in
    ((if Rlt_dec x 0 then -1 else 1)
     * IZR (Int_part (Rabs x * scale + 1 / 2)) / scale)%R
}.


(** One element of [json.results], by the fields that the function
    reads: [item.option?.expiration_date], a string; [c.option?.strike_price],
    [c.implied_volatility] and [c.open_interest], numbers; and the four
    fields of [c.greeks || {}], which count when their [typeof] is
    ['number'].  [None] is [undefined] or [null]. *)
Record contract (T : Type) : Type := {
  expiration_date : option string;
  strike_price : option T;
  implied_volatility : option T;
  open_interest : option T;
  greeks_delta : option T;
  greeks_gamma : option T;
  greeks_theta : option T;
  greeks_vega : option T
}.
Arguments expiration_date {T} _.
Arguments strike_price {T} _.
Arguments implied_volatility {T} _.
Arguments open_interest {T} _.
Arguments greeks_delta {T} _.
Arguments greeks_gamma {T} _.
Arguments greeks_theta {T} _.
Arguments greeks_vega {T} _.

(** [json.results]: [None] when it is missing or not an array. *)
Record polygon_json (T : Type) : Type := { polygon_results : option (list (contract T)) }.
Arguments polygon_results {T} _.

(** The names that the object literal [grouped] inherits from
    [Object.prototype]: [grouped[exp]] is truthy for them before any
    assignment, and it has no [push]. *)
Definition inherited : list string :=
  ["constructor"; "hasOwnProperty"; "isPrototypeOf"; "propertyIsEnumerable";
   "toLocaleString"; "toString"; "valueOf"; "__proto__"; "__defineGetter__";
   "__defineSetter__"; "__lookupGetter__"; "__lookupSetter__"].

Section OptionData.
Context {T : Type} `{Number T} `{MinMax T} `{Exp T} `{Rounding T}.

(** The rounds of the loop of [sample]: [i] from 80 to 120 in steps of 5. *)
Definition sample_points : list Z := (fun k => 80 + 5 * Z.of_nat k)%Z <$> seq 0 9.

Definition sample_strikes (underlying : string) : list T :=
  (fun i => of_Z i *! (if String.eqb underlying "TSLA" then of_Z 10 else of_Z 1))
    <$> sample_points.

Definition sample_iv (underlying : string) : list T :=
  (fun i => let baseVol := if String.eqb underlying "TSLA" then decimal 6 1 else decimal 3 1 in
            let diff := Math_abs (of_Z i -! of_Z 100) in
            toFixed 2 ((baseVol +! diff /! of_Z 200) *! of_Z 100)) <$> sample_points.

Definition sample_oi : list T :=
  (fun i => let peak := of_Z 100 in
            let oiVal := Math_max (of_Z 1000 -! pow2 (of_Z i -! peak) *! of_Z 10) (of_Z 100) in
            Math_round oiVal) <$> sample_points.

Definition sample_delta : list T :=
  (fun i => let x := (of_Z i -! of_Z 100) /! of_Z 20 in
            let d := of_Z 1 /! (of_Z 1 +! Math_exp (num_neg x)) in
            toFixed 3 d) <$> sample_points.

Definition sample_gamma : list T :=
  (fun i => let g := Math_exp (num_neg (pow2 ((of_Z i -! of_Z 100) /! of_Z 15)))
                     *! decimal 1 1 in
            toFixed 4 g) <$> sample_points.

Definition sample_theta : list T :=
  (fun i => let t := num_neg (decimal 2 2)
                     -! decimal 1 2
                        *! Math_exp (num_neg (pow2 ((of_Z i -! of_Z 100) /! of_Z 20))) in
            toFixed 4 t) <$> sample_points.

Definition sample_vega : list T :=
  (fun i => let v := Math_exp (num_neg (pow2 ((of_Z i -! of_Z 100) /! of_Z 18)))
                     *! decimal 2 1 in
            toFixed 4 v) <$> sample_points.

(** [sample()] of [fetchOptionData] *)
Definition option_sample (underlying : string) : jsval T :=
  JObj [("strikes", JArr (JNum <$> sample_strikes underlying));
        ("iv", JArr (JNum <$> sample_iv underlying));
        ("oi", JArr (JNum <$> sample_oi));
        ("delta", JArr (JNum <$> sample_delta));
        ("gamma", JArr (JNum <$> sample_gamma));
        ("theta", JArr (JNum <$> sample_theta));
        ("vega", JArr (JNum <$> sample_vega))].

(** What the second [forEach] pushes for one contract. *)
Record chain_row : Type := {
  row_strike : T;
  row_iv : T;
  row_oi : T;
  row_delta : option T;
  row_gamma : option T;
  row_theta : option T;
  row_vega : option T
}.

(** [strike && vol != null && interest != null] *)
Definition chain_row_of (c : contract T) : option chain_row :=
  match strike_price c, implied_volatility c, open_interest c with
  | Some strike, Some vol, Some interest =>
      if truthy (JNum strike)
      then Some {| row_strike := strike; row_iv := vol *! of_Z 100; row_oi := interest;
                   row_delta := greeks_delta c; row_gamma := greeks_gamma c;
                   row_theta := greeks_theta c; row_vega := greeks_vega c |}
      else None
  | _, _, _ => None
  end.

(** [typeof x === 'number' ? x : null] *)
Definition number_else_null (x : option T) : jsval T :=
  match x with
  | Some x => JNum x
  | None => JNull
  end.

Definition chain_result (rows : list chain_row) : jsval T :=
  JObj [("strikes", JArr ((fun r => JNum (row_strike r)) <$> rows));
        ("iv", JArr ((fun r => JNum (row_iv r)) <$> rows));
        ("oi", JArr ((fun r => JNum (row_oi r)) <$> rows));
        ("delta", JArr ((fun r => number_else_null (row_delta r)) <$> rows));
        ("gamma", JArr ((fun r => number_else_null (row_gamma r)) <$> rows));
        ("theta", JArr ((fun r => number_else_null (row_theta r)) <$> rows));
        ("vega", JArr ((fun r => number_else_null (row_vega r)) <$> rows))].

(** [exp] of the first [forEach], when it is truthy. *)
Definition expiry (item : contract T) : option string :=
  match expiration_date item with
  | Some exp => if String.eqb exp "" then None else Some exp
  | None => None
  end.

(** The [try] block after the response, up to [result]; [None] is an
    exception: no results, an expiry that names an inherited property
    ([grouped[exp].push] is not a function), or no expiry at all
    ([grouped[undefined]] has no [forEach]).  The indices are sorted by the
    difference of their strikes, which orders the rows by strike and keeps
    the order of equal strikes. *)
Definition option_chain (underlying : string) (json : polygon_json T) : option (jsval T) :=
  results ← polygon_results json;
  if (length results =? 0)%nat then None else
  let grouped := omap (fun item => (fun exp => (exp, item)) <$> expiry item) results in
  if existsb (fun entry => bool_decide (entry.1 ∈ inherited)) grouped then None else
  let expiries := js_sort (fun a b => String.ltb b a) (grouped.*1) in
  nearest ← head expiries;
  let contracts := (filter (fun entry => entry.1 = nearest) grouped).*2 in
  let rows := omap chain_row_of contracts in
  let sorted := js_sort (fun a b => num_gtb (row_strike a -! row_strike b) (of_Z 0)) rows in
  Some (if (0 <? length sorted)%nat then chain_result sorted else option_sample underlying).

(** The result and the storage after the call; [now] is the reading of
    [Date.now()] in [saveToCache]. *)
Definition fetchOptionData (answer : reply (polygon_json T)) (now : Z)
    (underlying : string) (ls : localStorage T) : jsval T * localStorage T :=
  match body answer ≫= option_chain underlying with
  | Some result => (result, saveToCache ("optionData:" +:+ underlying) result now ls)
  | None =>
      let cached := loadFromCache ("optionData:" +:+ underlying) ls in
      (if truthy cached then cached else option_sample underlying, ls)
  end.
End OptionData.

Arguments chain_row T : clear implicits.

(** ** The Sharpe ratio in the words of the specification

    "Annualization: mean daily return × 252; daily volatility × √252" and
    "Sharpe ratio: annualized_return / annualized_volatility; defined as 0
    when volatility is 0".  The mean is the sum over the number of
    returns and the daily volatility the root of the mean squared
    deviation, summed from left to right. *)

Module AnalyticsSpec.
Section Defs.
Context {T : Type} `{Number T}.

Definition mean (returns : list T) : T :=
  fold_left (fun a b => a +! b) returns (of_Z 0) /! of_nat (length returns).

Definition daily_volatility (returns : list T) : T :=
  Math_sqrt (fold_left (fun sum r => sum +! pow2 (r -! mean returns)) returns (of_Z 0)
             /! of_nat (length returns)).

Definition annualized_return (returns : list T) : T := mean returns *! of_Z 252.

Definition annualized_volatility (returns : list T) : T :=
  daily_volatility returns *! Math_sqrt (of_Z 252).

Definition sharpe_ratio (returns : list T) : T :=
  if annualized_volatility returns =?! of_Z 0 then of_Z 0
  else annualized_return returns /! annualized_volatility returns.
End Defs.
End AnalyticsSpec.

(** ** Inputs and engines of the examples

    Three sequences of [Math.random()] results, and a sine for binary64:
    the values of [Math.sin] at the thirty arguments of [sample], i / 5
    for i < 30, and 0 elsewhere. *)

Definition draws : nat -> float := fun k => of_nat (k mod 61 + 1) /! of_Z 64.

Definition draws8 : nat -> float := fun k => of_nat ((k * 5 + 1) mod 101) /! of_Z 101.

Definition zero_weights : nat -> float :=
  fun k => if (k <? 3)%nat then 0%float else 0.5%float.

Definition sines : list (float * float) :=
  [(0, 0);
   (0x1.999999999999ap-3, 0x1.96dff233dd2bcp-3);
   (0x1.999999999999ap-2, 0x1.8ec3ae92b676bp-2);
   (0x1.3333333333333p-1, 0x1.2118d17a54159p-1);
   (0x1.999999999999ap-1, 0x1.6f494c2bffecdp-1);
   (0x1.0000000000000p+0, 0x1.aed548f090ceep-1);
   (0x1.3333333333333p+0, 0x1.dd343a21a55c4p-1);
   (0x1.6666666666666p+0, 0x1.f88cddf44e102p-1);
   (0x1.999999999999ap+0, 0x1.ffc81c7e042c5p-1);
   (0x1.ccccccccccccdp+0, 0x1.f29c281bd15f0p-1);
   (0x1.0000000000000p+1, 0x1.d18f6ead1b446p-1);
   (0x1.199999999999ap+1, 0x1.9df33d9aad708p-1);
   (0x1.3333333333333p+1, 0x1.59d64f5c3d19bp-1);
   (0x1.4cccccccccccdp+1, 0x1.07efcbba085bbp-1);
   (0x1.6666666666666p+1, 0x1.57072235de5c8p-2);
   (0x1.8000000000000p+1, 0x1.210386db6d55bp-3);
   (0x1.999999999999ap+1, -0x1.de33739e82d32p-5);
   (0x1.b333333333333p+1, -0x1.05ac910ff4c6cp-2);
   (0x1.ccccccccccccdp+1, -0x1.c524143f0d1f1p-2);
   (0x1.e666666666666p+1, -0x1.39456ffecc09dp-1);
   (0x1.0000000000000p+2, -0x1.837b9dddc1eaep-1);
   (0x1.0cccccccccccdp+2, -0x1.be3f2dfd012d8p-1);
   (0x1.199999999999ap+2, -0x1.e7386314528efp-1);
   (0x1.2666666666666p+2, -0x1.fcc51135decb9p-1);
   (0x1.3333333333333p+2, -0x1.fe0949a0c3e00p-1);
   (0x1.4000000000000p+2, -0x1.eaf81f5e09933p-1);
   (0x1.4cccccccccccdp+2, -0x1.c4542b2ba24d7p-1);
   (0x1.599999999999ap+2, -0x1.8ba7c97320570p-1);
   (0x1.6666666666666p+2, -0x1.433561796f5bbp-1);
   (0x1.7333333333333p+2, -0x1.dbc0ac78edfd8p-2)]%float.

Fixpoint table_lookup (x : float) (table : list (float * float)) : float :=
  match table with
  | [] => 0%float
  | (a, v) :: table => if PrimFloat.eqb x a then v else table_lookup x table
  end.

Definition table_sin : Trig float := {| Math_sin := fun x => table_lookup x sines |}.

(** ** Proof tools *)

(** Unfolding the arithmetic of the class at the reals. *)
Ltac real_ops :=
  cbn [of_Z num_add num_sub num_mul num_div num_neg Math_sqrt Math_floor
       num_ltb num_eqb isNaN isFinite real_number] in *.

(** *** The value of a binary64 number

    Statements about all binary64 inputs are proved on the integers: a
    finite number is a whole multiple of 2^-1074, and the operations of
    the script round the exact result to the nearest number, ties to
    even, as [SpecFloat] specifies them. *)

(** Round to nearest, ties to even, of [M / 2^n]. *)
Definition rne (M n : Z) : Z :=
  let q := (M / 2 ^ n)%Z in
  match (2 * (M mod 2 ^ n) ?= 2 ^ n)%Z with
  | Lt => q
  | Gt => (q + 1)%Z
  | Eq => if Z.even q then q else (q + 1)%Z
  end.

(** The position of the remainder [r] below a unit of [B]. *)
Definition loc_of (r B : Z) : location :=
  if (r =? 0)%Z then loc_Exact else loc_Inexact (2 * r ?= B)%Z.

(** The exponent of the last bit that binary64 keeps of the value
    [W * 2^u]. *)
Definition cexp (u W : Z) : Z := Z.max (Z.log2 W + 1 + u - 53) (-1074).

(** [rnd u W] is the binary64 number nearest to [W * 2^u], ties to even,
    in units of 2^-1074; [rnds] is the same for either sign. *)
Definition rnd (u W : Z) : Z := (rne W (cexp u W - u) * 2 ^ (cexp u W + 1074))%Z.

Definition rnds (u W : Z) : Z := if (W <? 0)%Z then (- rnd u (- W))%Z else rnd u W.

(** Overflow: a rounded value of 2^1024 or more is an infinity.  The
    infinities are placed beyond every finite value. *)
Definition INF : Z := (2 ^ 2100)%Z.

Definition clamp (v : Z) : Z :=
  if (2 ^ 2098 <=? v)%Z then INF else if (v <=? - 2 ^ 2098)%Z then (- INF)%Z else v.

(** The value of a number in units of 2^-1074. *)
Definition SF2Z (x : spec_float) : Z :=
  match x with
  | S754_finite s m e => cond_Zopp s (Zpos m * 2 ^ (e + 1074))
  | S754_infinity s => cond_Zopp s INF
  | S754_zero _ | S754_nan => 0%Z
  end.

Definition F2Z (x : float) : Z := SF2Z (Prim2SF x).

Definition SFfinite (x : spec_float) : bool :=
  match x with
  | S754_zero _ | S754_finite _ _ _ => true
  | S754_infinity _ | S754_nan => false
  end.


(** *** The bounds of the synthetic series

    The finitely many binary64 sums that bound the values of [sample] and
    of [oil_fallback]: for a sine of -1 and 1, and for a random number of
    0 and 1. *)

Definition sample_check (base : float) (i : nat) : bool :=
  let c := (of_nat i *! decimal 5 1 : float) in
  is_finite c && is_finite (base + -1 * 8) && is_finite (base + 1 * 8)
  && is_finite (base + -1 * 8 + c) && is_finite (base + 1 * 8 + c)
  && PrimFloat.ltb 0 (base + -1 * 8 + c).

Definition oil_check (k : nat) : bool :=
  let i := (364 - k)%nat in
  let base := (of_Z 60 +! (of_Z 365 -! of_nat i) *! decimal 2 2 : float) in
  is_finite base && is_finite (base + (0 - 0.5) * 2) && is_finite (base + (1 - 0.5) * 2)
  && PrimFloat.ltb 0 (base + (0 - 0.5) * 2).


(** * Properties *)

(** ** Arithmetic of the two instances *)

(** The decimal literals of the script, as binary64 values. *)
Example decimal_literals :
  decimal (T := float) 5 2 = 0x1.999999999999ap-5%float /\
  decimal 1 2 = 0x1.47ae147ae147bp-7%float /\
  decimal 2 2 = 0x1.47ae147ae147bp-6%float /\
  decimal 5 1 = 0.5%float.
Proof. vm_compute. repeat split; reflexivity. Qed.

Example floor_examples :
  Math_floor 2.5%float = Some 2%Z /\ Math_floor (-2.5)%float = Some (-3)%Z /\
  Math_floor (T := float) (of_nat 60 *! decimal 5 2) = Some 3%Z /\
  Math_floor (T := float) (of_nat 100 *! decimal 1 2) = Some 1%Z /\
  Math_floor (nan : float) = None.
Proof. vm_compute. repeat split; reflexivity. Qed.

Lemma float_mul_comm (x y : float) : x *! y = y *! x.
Proof.
  apply Prim2SF_inj. cbn. rewrite !mul_spec. unfold SF64mul, SFmul.
  destruct (Prim2SF x) as [sx|sx| |sx mx ex], (Prim2SF y) as [sy|sy| |sy my ey];
    try reflexivity; rewrite ?(xorb_comm sx sy); try reflexivity.
  by rewrite (Pos.mul_comm mx my), (Z.add_comm ex ey).
Qed.

Lemma real_mul_comm (x y : R) : x *! y = y *! x.
Proof. cbn. apply Rmult_comm. Qed.

Lemma real_eqb_true (x y : R) : (x =?! y) = true <-> x = y.
Proof. cbn. destruct (Req_dec_T x y); split; congruence. Qed.

Lemma real_ltb_true (x y : R) : (x <?! y) = true <-> (x < y)%R.
Proof. cbn. destruct (Rlt_dec x y); split; congruence. Qed.

Lemma real_of_nat (n : nat) : of_nat (T := R) n = INR n.
Proof. unfold of_nat. cbn. by rewrite INR_IZR_INZ. Qed.

(** ** Binary64 arithmetic

    Rounding to nearest is monotone, and the operations of binary64 are
    the exact operations followed by it. *)

Section Rne.
Local Open Scope Z_scope.

Lemma rne_bounds (M n : Z) : M / 2 ^ n <= rne M n <= M / 2 ^ n + 1.
Proof. unfold rne. destruct (2 * (M mod 2 ^ n) ?= 2 ^ n), (Z.even (M / 2 ^ n)); lia. Qed.

Lemma rne_exact (k n : Z) : 0 <= n -> rne (k * 2 ^ n) n = k.
Proof.
  intros Hn. assert (0 < 2 ^ n) by (apply Z.pow_pos_nonneg; lia).
  unfold rne. rewrite Z.mod_mul, Z.div_mul by lia.
  destruct (Z.compare_spec (2 * 0) (2 ^ n)); lia.
Qed.

Lemma rne_mono (M1 M2 n : Z) : 0 <= n -> M1 <= M2 -> rne M1 n <= rne M2 n.
Proof.
  intros Hn HM. assert (HB : 0 < 2 ^ n) by (apply Z.pow_pos_nonneg; lia).
  pose proof (Z.div_le_mono M1 M2 (2 ^ n) HB HM) as Hq.
  pose proof (rne_bounds M1 n). pose proof (rne_bounds M2 n).
  destruct (Z.eq_dec (M1 / 2 ^ n) (M2 / 2 ^ n)) as [Heq|Hne]; [| lia].
  pose proof (Z.div_mod M1 (2 ^ n)). pose proof (Z.div_mod M2 (2 ^ n)).
  assert (Hr : M1 mod 2 ^ n <= M2 mod 2 ^ n) by nia.
  unfold rne. rewrite Heq.
  destruct (Z.compare_spec (2 * (M1 mod 2 ^ n)) (2 ^ n)),
           (Z.compare_spec (2 * (M2 mod 2 ^ n)) (2 ^ n)),
           (Z.even (M2 / 2 ^ n)); lia.
Qed.

Lemma rne_nonneg (M n : Z) : 0 <= n -> 0 <= M -> 0 <= rne M n.
Proof.
  intros Hn HM. pose proof (rne_bounds M n).
  assert (0 <= M / 2 ^ n) by (apply Z.div_pos; [lia | apply Z.pow_pos_nonneg; lia]). lia.
Qed.

(** Rounding does not depend on the unit in which the value is written. *)
Lemma rne_shift (M n j : Z) : 0 <= n -> 0 <= j -> rne (M * 2 ^ j) (n + j) = rne M n.
Proof.
  intros Hn Hj.
  assert (0 < 2 ^ n) by (apply Z.pow_pos_nonneg; lia).
  assert (0 < 2 ^ j) by (apply Z.pow_pos_nonneg; lia).
  unfold rne. rewrite Z.pow_add_r by lia.
  rewrite Z.div_mul_cancel_r by lia.
  rewrite Z.mul_mod_distr_r by lia.
  replace (2 * (M mod 2 ^ n * 2 ^ j)) with (2 * (M mod 2 ^ n) * 2 ^ j) by ring.
  by rewrite <- Zmult_compare_compat_r by lia.
Qed.
End Rne.

(** The shifts of [SpecFloat]. *)

Section Shr.
Local Open Scope Z_scope.

Lemma iter_pos_nat {A : Type} (f : A -> A) (p : positive) (x : A) :
  SpecFloat.iter_pos f p x = Nat.iter (Pos.to_nat p) f x.
Proof.
  revert x. induction p as [p IH|p IH|]; intros x; cbn [SpecFloat.iter_pos].
  - rewrite !IH, Pos2Nat.inj_xI. cbn [Nat.iter Nat.mul].
    rewrite Nat.add_0_r, <- Nat.iter_add, <- Nat.iter_succ_r. done.
  - rewrite !IH, Pos2Nat.inj_xO. cbn [Nat.mul].
    by rewrite Nat.add_0_r, <- Nat.iter_add.
  - done.
Qed.

Lemma shr_1_nonneg (m : Z) (r s : bool) :
  0 <= m ->
  shr_1 {| shr_m := m; shr_r := r; shr_s := s |}
  = {| shr_m := m / 2; shr_r := Z.odd m; shr_s := r || s |}.
Proof.
  intros Hm. rewrite <- Z.div2_div.
  destruct m as [|[p|p|]|]; try lia; reflexivity.
Qed.

Lemma loc_of_shr_record_Exact (mrs : shr_record) :
  loc_of_shr_record mrs = loc_Exact <-> shr_r mrs || shr_s mrs = false.
Proof. destruct mrs as [m [|] [|]]; cbn; split; congruence. Qed.

Lemma shr_iter (M : Z) (i : nat) :
  0 <= M ->
  let mrs := Nat.iter i shr_1 {| shr_m := M; shr_r := false; shr_s := false |} in
  shr_m mrs = M / 2 ^ Z.of_nat i /\
  loc_of_shr_record mrs = loc_of (M mod 2 ^ Z.of_nat i) (2 ^ Z.of_nat i).
Proof.
  intros HM. induction i as [|i IH]; cbn zeta.
  - cbn. rewrite Z.div_1_r, Z.mod_1_r. done.
  - rewrite Nat.iter_succ. cbn zeta in IH.
    destruct (Nat.iter i shr_1 _) as [m r s]. cbn [shr_m] in IH. destruct IH as [-> Hloc].
    set (B := 2 ^ Z.of_nat i) in *.
    assert (HB : 0 < B) by (apply Z.pow_pos_nonneg; lia).
    assert (HB2 : 2 ^ Z.of_nat (S i) = B * 2).
    { rewrite Nat2Z.inj_succ, Z.pow_succ_r by lia. unfold B. ring. }
    rewrite HB2.
    assert (Hq : 0 <= M / B) by (apply Z.div_pos; lia).
    rewrite shr_1_nonneg by exact Hq. cbn [shr_m].
    split; [by rewrite Z.div_div by lia |].
    rewrite Z.rem_mul_r by lia. rewrite Zmod_odd.
    pose proof (Z.mod_pos_bound M B HB) as Hrho.
    set (rho := M mod B) in *.
    assert (Hrs : r || s = false <-> rho = 0).
    { rewrite <- (loc_of_shr_record_Exact {| shr_m := M / B; shr_r := r; shr_s := s |}).
      rewrite Hloc. unfold loc_of. destruct (Z.eqb_spec rho 0); split; congruence. }
    unfold loc_of. destruct (Z.odd (M / B)), (r || s) eqn:Ers; cbn [loc_of_shr_record].
    + assert (rho <> 0) by (intros Hz; apply Hrs in Hz; discriminate Hz).
      destruct (Z.eqb_spec (rho + B * 1) 0); [lia |].
      destruct (Z.compare_spec (2 * (rho + B * 1)) (B * 2)); try lia. done.
    + assert (rho = 0) by (by apply Hrs).
      destruct (Z.eqb_spec (rho + B * 1) 0); [lia |].
      destruct (Z.compare_spec (2 * (rho + B * 1)) (B * 2)); try lia. done.
    + assert (rho <> 0) by (intros Hz; apply Hrs in Hz; discriminate Hz).
      destruct (Z.eqb_spec (rho + B * 0) 0); [lia |].
      destruct (Z.compare_spec (2 * (rho + B * 0)) (B * 2)); try lia. done.
    + assert (rho = 0) by (by apply Hrs).
      destruct (Z.eqb_spec (rho + B * 0) 0); [done | lia].
Qed.

Lemma round_nearest_even_loc_of (M n : Z) :
  0 <= n -> round_nearest_even (M / 2 ^ n) (loc_of (M mod 2 ^ n) (2 ^ n)) = rne M n.
Proof.
  intros Hn. assert (0 < 2 ^ n) by (apply Z.pow_pos_nonneg; lia).
  unfold loc_of, rne. destruct (Z.eqb_spec (M mod 2 ^ n) 0) as [->|Hne]; cbn.
  - rewrite Z.mul_0_r. destruct (Z.compare_spec 0 (2 ^ n)); lia.
  - by destruct (2 * (M mod 2 ^ n) ?= 2 ^ n).
Qed.

(** [shr] by [n >= 0] positions, then [round_nearest_even]. *)
Lemma shr_round (M e n : Z) :
  0 <= M -> 0 <= n ->
  let '(mrs, e') := shr {| shr_m := M; shr_r := false; shr_s := false |} e n in
  round_nearest_even (shr_m mrs) (loc_of_shr_record mrs) = rne M n /\ e' = e + n.
Proof.
  intros HM Hn. destruct n as [|p|p]; [| | lia].
  - cbn [shr shr_m loc_of_shr_record round_nearest_even].
    split; [| lia]. unfold rne. rewrite Z.pow_0_r, Z.div_1_r, Z.mod_1_r. done.
  - cbn [shr]. rewrite iter_pos_nat.
    destruct (shr_iter M (Pos.to_nat p) HM) as [Hm Hloc].
    rewrite positive_nat_Z in Hm, Hloc.
    rewrite Hm, Hloc. split; [| done]. apply round_nearest_even_loc_of. lia.
Qed.
End Shr.

Section Rnd.
Local Open Scope Z_scope.

Lemma digits2_pos_size (m : positive) : digits2_pos m = Pos.size m.
Proof. induction m as [m IH|m IH|]; cbn; by rewrite ?IH. Qed.

Lemma Zdigits2_log2 (m : positive) : Zdigits2 (Zpos m) = Z.log2 (Zpos m) + 1.
Proof.
  cbn [Zdigits2]. rewrite digits2_pos_size.
  destruct m as [m|m|]; cbn [Pos.size Z.log2]; lia.
Qed.

Lemma log2_mul_pow2 (M j : Z) : 0 < M -> 0 <= j -> Z.log2 (M * 2 ^ j) = Z.log2 M + j.
Proof.
  intros HM Hj. rewrite <- Z.shiftl_mul_pow2 by lia. apply Z.log2_shiftl; lia.
Qed.

Lemma cexp_ge (u W : Z) : -1074 <= cexp u W.
Proof. unfold cexp. lia. Qed.

Lemma cexp_mono (u W1 W2 : Z) : W1 <= W2 -> cexp u W1 <= cexp u W2.
Proof. intros HW. unfold cexp. pose proof (Z.log2_le_mono W1 W2 HW). lia. Qed.

Lemma two_pow_pos (n : Z) : 0 <= n -> 0 < 2 ^ n.
Proof. intros. apply Z.pow_pos_nonneg; lia. Qed.

Lemma two_pow_le (a b : Z) : 0 <= a <= b -> 2 ^ a <= 2 ^ b.
Proof. intros. apply Z.pow_le_mono_r; lia. Qed.

Lemma two_pow_lt (a b : Z) : 0 <= a < b -> 2 ^ a < 2 ^ b.
Proof. intros. apply Z.pow_lt_mono_r; lia. Qed.

Lemma rnd_0 (u : Z) : u <= -1074 -> rnd u 0 = 0.
Proof.
  intros Hu. unfold rnd. replace 0 with (0 * 2 ^ (cexp u 0 - u)) at 1 by ring.
  rewrite rne_exact by (pose proof (cexp_ge u 0); lia). ring.
Qed.

(** Below the significand of a value there are at most 53 bits. *)
Lemma rne_le_pow53 (u W : Z) : u <= cexp u W -> 0 <= W -> rne W (cexp u W - u) <= 2 ^ 53.
Proof.
  intros Hc HW.
  set (n := cexp u W - u). assert (Hn : 0 <= n) by lia.
  rewrite <- (rne_exact (2 ^ 53) n Hn). apply rne_mono; [exact Hn |].
  rewrite <- Z.pow_add_r by lia.
  destruct (Z.eq_dec W 0) as [->|HW0]; [pose proof (two_pow_pos (53 + n)); lia |].
  pose proof (Z.log2_spec W) as [_ Hlt]; [lia |].
  assert (2 ^ Z.succ (Z.log2 W) <= 2 ^ (53 + n)).
  { apply two_pow_le. pose proof (Z.log2_nonneg W). unfold n, cexp. lia. }
  lia.
Qed.

(** In the normal range the significand has its 53 bits. *)
Lemma rne_ge_pow52 (u W : Z) :
  u <= cexp u W -> 0 < W -> -1074 < cexp u W -> 2 ^ 52 <= rne W (cexp u W - u).
Proof.
  intros Hu HW Hc.
  set (n := cexp u W - u). assert (Hn : 0 <= n) by lia.
  rewrite <- (rne_exact (2 ^ 52) n Hn). apply rne_mono; [exact Hn |].
  rewrite <- Z.pow_add_r by lia.
  pose proof (Z.log2_spec W HW) as [Hle _].
  assert (52 + n = Z.log2 W) as -> by (unfold n, cexp in *; lia).
  exact Hle.
Qed.

Lemma rnd_nonneg (u W : Z) : u <= -1074 -> 0 <= W -> 0 <= rnd u W.
Proof.
  intros Hu HW. unfold rnd. pose proof (cexp_ge u W).
  apply Z.mul_nonneg_nonneg; [apply rne_nonneg; lia | apply Z.pow_nonneg; lia].
Qed.

Lemma rnd_mono_nonneg (u W1 W2 : Z) :
  u <= -1074 -> 0 <= W1 <= W2 -> rnd u W1 <= rnd u W2.
Proof.
  intros Hu [HW1 HW].
  pose proof (cexp_ge u W1) as Hc1. pose proof (cexp_mono u W1 W2 HW) as Hc.
  unfold rnd.
  destruct (Z.eq_dec (cexp u W1) (cexp u W2)) as [Heq|Hne].
  - rewrite Heq. apply Z.mul_le_mono_nonneg_r; [apply Z.pow_nonneg; lia |].
    apply rne_mono; lia.
  - assert (Hlt : cexp u W1 < cexp u W2) by lia.
    pose proof (rne_le_pow53 u W1 ltac:(lia) HW1) as H1.
    assert (HW2 : 0 < W2).
    { destruct (Z.eq_dec W2 0) as [->|]; [| lia].
      assert (W1 = 0) as -> by lia. lia. }
    pose proof (rne_ge_pow52 u W2 ltac:(lia) HW2) as H2.
    trans (2 ^ 53 * 2 ^ (cexp u W1 + 1074)).
    { apply Z.mul_le_mono_nonneg_r; [apply Z.pow_nonneg; lia | exact H1]. }
    trans (2 ^ 52 * 2 ^ (cexp u W2 + 1074)).
    { rewrite <- !Z.pow_add_r by lia. apply two_pow_le. lia. }
    apply Z.mul_le_mono_nonneg_r; [apply Z.pow_nonneg; lia | apply H2; lia].
Qed.

Lemma rnds_opp (u W : Z) : u <= -1074 -> rnds u (- W) = - rnds u W.
Proof.
  intros Hu. unfold rnds.
  destruct (Z.ltb_spec (- W) 0), (Z.ltb_spec W 0); try lia.
  - by rewrite Z.opp_involutive.
  - assert (W = 0) as -> by lia. change (- 0) with 0. rewrite rnd_0 by exact Hu. done.
Qed.

Lemma rnds_mono (u W1 W2 : Z) : u <= -1074 -> W1 <= W2 -> rnds u W1 <= rnds u W2.
Proof.
  intros Hu HW. unfold rnds.
  destruct (Z.ltb_spec W1 0), (Z.ltb_spec W2 0); try lia.
  - pose proof (rnd_mono_nonneg u (- W2) (- W1) Hu). lia.
  - pose proof (rnd_nonneg u (- W1) Hu). pose proof (rnd_nonneg u W2 Hu). lia.
  - apply rnd_mono_nonneg; lia.
Qed.

Lemma clamp_mono (v1 v2 : Z) : v1 <= v2 -> clamp v1 <= clamp v2.
Proof.
  intros Hv. unfold clamp, INF.
  assert (2 ^ 2098 < 2 ^ 2100) by (apply two_pow_lt; lia).
  assert (0 < 2 ^ 2098) by (apply two_pow_pos; lia).
  repeat match goal with |- context [(?a <=? ?b)] => destruct (Z.leb_spec a b) end; lia.
Qed.

Lemma clamp_opp (v : Z) : clamp (- v) = - clamp v.
Proof.
  unfold clamp, INF.
  assert (0 < 2 ^ 2098) by (apply two_pow_pos; lia).
  repeat match goal with |- context [(?a <=? ?b)] => destruct (Z.leb_spec a b) end; lia.
Qed.

Lemma rnd_unit (u W j : Z) :
  u <= cexp u W -> 0 < W -> 0 <= j -> rnd (u - j) (W * 2 ^ j) = rnd u W.
Proof.
  intros Hu HW Hj. unfold rnd.
  assert (Hc : cexp (u - j) (W * 2 ^ j) = cexp u W).
  { unfold cexp. rewrite log2_mul_pow2 by lia. f_equal. lia. }
  rewrite Hc. f_equal.
  replace (cexp u W - (u - j)) with (cexp u W - u + j) by lia.
  apply rne_shift; lia.
Qed.

Lemma fexp_cexp (M : positive) (e : Z) :
  fexp prec emax (Zdigits2 (Zpos M) + e) = cexp e (Zpos M).
Proof. rewrite Zdigits2_log2. unfold fexp, cexp, emin, prec, emax. lia. Qed.

Lemma cond_Zopp_clamp (s : bool) (v : Z) : clamp (cond_Zopp s v) = cond_Zopp s (clamp v).
Proof. destruct s; cbn; [apply clamp_opp | done]. Qed.

Lemma clamp_small (v : Z) : - 2 ^ 2098 < v < 2 ^ 2098 -> clamp v = v.
Proof.
  intros Hv. unfold clamp.
  repeat match goal with |- context [(?a <=? ?b)] => destruct (Z.leb_spec a b) end; lia.
Qed.

Lemma clamp_large (v : Z) : 2 ^ 2098 <= v -> clamp v = INF.
Proof. intros Hv. unfold clamp. destruct (Z.leb_spec (2 ^ 2098) v); [done | lia]. Qed.

Lemma finite_value_bound (k c : Z) :
  0 <= k < 2 ^ 53 -> -1074 <= c <= 971 -> - 2 ^ 2098 < k * 2 ^ (c + 1074) < 2 ^ 2098.
Proof.
  intros Hk Hc.
  assert (0 < 2 ^ (c + 1074)) by (apply two_pow_pos; lia).
  assert (2 ^ (c + 1074) <= 2 ^ 2045) by (apply two_pow_le; lia).
  assert (2 ^ 2098 = 2 ^ 53 * 2 ^ 2045) as -> by (rewrite <- Z.pow_add_r; [done | lia..]).
  assert (0 < 2 ^ 2045) by (apply two_pow_pos; lia).
  assert (0 < 2 ^ 53) by (apply two_pow_pos; lia).
  nia.
Qed.

Lemma overflow_value_bound (k c : Z) :
  2 ^ 52 <= k -> 971 < c -> 2 ^ 2098 <= k * 2 ^ (c + 1074).
Proof.
  intros Hk Hc.
  assert (2 ^ 2046 <= 2 ^ (c + 1074)) by (apply two_pow_le; lia).
  assert (2 ^ 2098 = 2 ^ 52 * 2 ^ 2046) as -> by (rewrite <- Z.pow_add_r; [done | lia..]).
  assert (0 < 2 ^ 2046) by (apply two_pow_pos; lia).
  assert (0 < 2 ^ 52) by (apply two_pow_pos; lia).
  nia.
Qed.

(** The rounding of [SpecFloat], on a mantissa that is at or below its
    canonical exponent. *)
Lemma binary_round_aux_rnd (s : bool) (M : positive) (e : Z) :
  e <= cexp e (Zpos M) ->
  SF2Z (binary_round_aux prec emax s (Zpos M) e loc_Exact)
  = clamp (cond_Zopp s (rnd e (Zpos M))) /\
  binary_round_aux prec emax s (Zpos M) e loc_Exact <> S754_nan.
Proof.
  intros He. unfold binary_round_aux, shr_fexp. rewrite fexp_cexp.
  set (c := cexp e (Zpos M)) in *. cbn [shr_record_of_loc].
  pose proof (shr_round (Zpos M) e (c - e) ltac:(lia) ltac:(lia)) as Hshr.
  destruct (shr _ e (c - e)) as [mrs' e']. destruct Hshr as [Hk ->].
  rewrite Hk. replace (e + (c - e)) with c by lia.
  pose proof (cexp_ge e (Zpos M)) as Hc. fold c in Hc.
  pose proof (rne_le_pow53 e (Zpos M) He ltac:(lia)) as Hk53. fold c in Hk53.
  pose proof (rne_nonneg (Zpos M) (c - e) ltac:(lia) ltac:(lia)) as Hk0.
  assert (Hk52 : -1074 < c -> 2 ^ 52 <= rne (Zpos M) (c - e))
    by (apply rne_ge_pow52; [exact He | lia]).
  unfold rnd. fold c. set (k := rne (Zpos M) (c - e)) in *. clearbody k. clear Hk.
  rewrite cond_Zopp_clamp.
  assert (Hp : 0 < 2 ^ (c + 1074)) by (apply two_pow_pos; lia).
  destruct k as [|k|k]; [| | lia].
  - (* the value rounds to zero *)
    cbn [Zdigits2]. unfold shr.
    destruct (fexp prec emax (0 + c) - c) eqn:Hn.
    1,3: cbn; rewrite clamp_small by (pose proof (two_pow_pos 2098); lia);
         split; [by destruct s | done].
    exfalso. unfold fexp, emin, prec, emax in Hn. lia.
  - destruct (Z.eq_dec (Zpos k) (2 ^ 53)) as [Hk|Hk].
    + (* the significand carries into a 54th bit *)
      assert (k = 9007199254740992%positive) as -> by (apply Pos2Z.inj; exact Hk).
      replace (fexp prec emax (Zdigits2 9007199254740992 + c) - c) with 1
        by (unfold fexp, emin, prec, emax; cbn [Zdigits2 digits2_pos Pos.succ]; lia).
      cbn [shr SpecFloat.iter_pos shr_1 shr_record_of_loc shr_m].
      change (Z.pos 9007199254740992) with (2 ^ 53).
      destruct (Z.leb_spec (c + 1) (emax - prec)) as [Hfin|Hinf];
        unfold emax, prec in *; cbn [SF2Z]; (split; [| done]); f_equal.
      * rewrite clamp_small.
        { change (Z.pos 4503599627370496) with (2 ^ 52).
          rewrite <- !Z.pow_add_r by lia. f_equal. lia. }
        rewrite <- Z.pow_add_r by lia.
        pose proof (two_pow_pos (53 + (c + 1074))). pose proof (two_pow_lt (53 + (c + 1074)) 2098). lia.
      * rewrite clamp_large; [done |].
        rewrite <- Z.pow_add_r by lia. apply two_pow_le. lia.
    + (* the significand has at most 53 bits *)
      assert (Hlt : Zpos k < 2 ^ 53) by lia.
      assert (Hd : Zdigits2 (Zpos k) <= 53).
      { rewrite Zdigits2_log2. pose proof (Z.log2_lt_pow2 (Zpos k) 53 ltac:(lia)). lia. }
      assert (Hshr : shr {| shr_m := Zpos k; shr_r := false; shr_s := false |} c
                       (fexp prec emax (Zdigits2 (Zpos k) + c) - c)
                     = ({| shr_m := Zpos k; shr_r := false; shr_s := false |}, c)).
      { unfold shr. destruct (fexp prec emax (Zdigits2 (Zpos k) + c) - c) eqn:Hn; try done.
        exfalso. unfold fexp, emin, prec, emax in Hn. lia. }
      rewrite Hshr. cbn [shr_m].
      destruct (Z.leb_spec c (emax - prec)) as [Hfin|Hinf];
        unfold emax, prec in *; cbn [SF2Z]; (split; [| done]); f_equal.
      * rewrite clamp_small; [done |]. apply finite_value_bound; lia.
      * rewrite clamp_large; [done |]. apply overflow_value_bound; [apply Hk52 |]; lia.
Qed.

Lemma iter_xO_pow2 (m d : positive) : Zpos (Pos.iter xO m d) = Zpos m * 2 ^ Zpos d.
Proof.
  rewrite <- Z.shiftl_mul_pow2 by lia. cbn [Z.shiftl].
  apply (Pos.iter_swap_gen _ _ Zpos xO (Z.mul 2)). done.
Qed.

Lemma shl_align_spec (m : positive) (e e' : Z) :
  let '(m', e'') := shl_align m e e' in
  e'' = Z.min e e' /\ Zpos m' = Zpos m * 2 ^ (e - e'').
Proof.
  unfold shl_align. destruct (e' - e) as [|d|d] eqn:Hd.
  - split; [lia |]. replace (e - e) with 0 by lia. lia.
  - split; [lia |]. replace (e - e) with 0 by lia. lia.
  - split; [lia |]. rewrite iter_xO_pow2. do 2 f_equal. lia.
Qed.

Lemma binary_round_rnd (s : bool) (M : positive) (e : Z) :
  -1074 <= e ->
  SF2Z (binary_round prec emax s M e)
  = clamp (cond_Zopp s (rnd (-1074) (Zpos M * 2 ^ (e + 1074)))) /\
  binary_round prec emax s M e <> S754_nan.
Proof.
  intros He. unfold binary_round.
  change (Zpos (digits2_pos M)) with (Zdigits2 (Zpos M)). rewrite fexp_cexp.
  pose proof (shl_align_spec M e (cexp e (Zpos M))) as Hal.
  destruct (shl_align M e (cexp e (Zpos M))) as [mz ez]. destruct Hal as [Hez Hmz].
  pose proof (cexp_ge e (Zpos M)) as Hc.
  assert (Hcz : cexp ez (Zpos mz) = cexp e (Zpos M)).
  { rewrite Hmz. unfold cexp. rewrite log2_mul_pow2 by lia. f_equal. lia. }
  destruct (binary_round_aux_rnd s mz ez) as [Hv Hnan]; [lia |].
  split; [| exact Hnan]. rewrite Hv. do 2 f_equal.
  rewrite <- (rnd_unit ez (Zpos mz) (ez + 1074)) by lia.
  f_equal; [lia |]. rewrite Hmz, <- Z.mul_assoc, <- Z.pow_add_r by lia.
  do 2 f_equal. lia.
Qed.

Lemma binary_normalize_rnds (S e : Z) (szero : bool) :
  -1074 <= e ->
  SF2Z (binary_normalize prec emax S e szero) = clamp (rnds (-1074) (S * 2 ^ (e + 1074))) /\
  binary_normalize prec emax S e szero <> S754_nan.
Proof.
  intros He. assert (Hp : 0 < 2 ^ (e + 1074)) by (apply two_pow_pos; lia).
  unfold rnds. destruct S as [|M|M]; cbn [binary_normalize].
  - rewrite Z.mul_0_l. cbn [Z.ltb Z.compare]. rewrite rnd_0 by lia. done.
  - destruct (binary_round_rnd false M e He) as [Hv Hnan]. split; [| exact Hnan].
    rewrite Hv. destruct (Z.ltb_spec (Zpos M * 2 ^ (e + 1074)) 0); [lia | done].
  - destruct (binary_round_rnd true M e He) as [Hv Hnan]. split; [| exact Hnan].
    rewrite Hv. destruct (Z.ltb_spec (Zneg M * 2 ^ (e + 1074)) 0); [| lia].
    cbn [cond_Zopp]. do 3 f_equal. lia.
Qed.
End Rnd.

(** The operations of [SpecFloat] on values. *)

Section SpecOps.
Local Open Scope Z_scope.

Lemma bounded_spec (m : positive) (e : Z) :
  bounded prec emax m e = true -> cexp e (Zpos m) = e /\ -1074 <= e <= 971.
Proof.
  unfold bounded, canonical_mantissa. intros [Hc He]%andb_prop.
  apply Z.eqb_eq in Hc. apply Z.leb_le in He.
  change (Zpos (digits2_pos m)) with (Zdigits2 (Zpos m)) in Hc. rewrite fexp_cexp in Hc.
  pose proof (cexp_ge e (Zpos m)). unfold emax, prec in He. lia.
Qed.

(** The value of a finite number: below [2^53] units of its exponent,
    and at least [2^52] of them unless it is subnormal. *)
Lemma bounded_value (m : positive) (e : Z) :
  bounded prec emax m e = true ->
  0 < Zpos m * 2 ^ (e + 1074) < 2 ^ (e + 1127) /\
  (-1074 < e -> 2 ^ (e + 1126) <= Zpos m * 2 ^ (e + 1074)).
Proof.
  intros [Hc He]%bounded_spec. unfold cexp in Hc.
  pose proof (Z.log2_spec (Zpos m) ltac:(lia)) as [Hlo Hhi].
  pose proof (Z.log2_nonneg (Zpos m)) as Hl.
  assert (Hp : 0 < 2 ^ (e + 1074)) by (apply two_pow_pos; lia).
  assert (Hm : Zpos m < 2 ^ 53).
  { eapply Z.lt_le_trans; [exact Hhi |]. apply two_pow_le. lia. }
  replace (e + 1127) with (53 + (e + 1074)) by lia.
  replace (e + 1126) with (52 + (e + 1074)) by lia.
  rewrite (Z.pow_add_r 2 53 (e + 1074)), (Z.pow_add_r 2 52 (e + 1074)) by lia. split.
  - split; [apply Z.mul_pos_pos; lia |]. by apply Z.mul_lt_mono_pos_r.
  - intros Hn. assert (Z.log2 (Zpos m) = 52) as Hl52 by lia. rewrite Hl52 in Hlo.
    apply Z.mul_le_mono_nonneg_r; lia.
Qed.

Lemma bounded_small (m : positive) (e : Z) :
  bounded prec emax m e = true -> 0 < Zpos m * 2 ^ (e + 1074) < 2 ^ 2098.
Proof.
  intros Hb. destruct (bounded_value m e Hb) as [[H0 Hlt] _].
  apply bounded_spec in Hb as [_ He].
  pose proof (two_pow_le (e + 1127) 2098 ltac:(lia)). lia.
Qed.

Lemma rnd_bounded (m : positive) (e : Z) :
  bounded prec emax m e = true ->
  rnd (-1074) (Zpos m * 2 ^ (e + 1074)) = Zpos m * 2 ^ (e + 1074).
Proof.
  intros [Hc He]%bounded_spec.
  replace (-1074) with (e - (e + 1074)) at 1 by lia.
  rewrite rnd_unit by lia. unfold rnd. rewrite Hc, Z.sub_diag.
  rewrite <- (Z.mul_1_r (Zpos m)) at 1. change 1 with (2 ^ 0) at 1.
  by rewrite rne_exact.
Qed.

Lemma SF2Z_small (x : spec_float) :
  valid_binary x = true -> SFfinite x = true -> - 2 ^ 2098 < SF2Z x < 2 ^ 2098.
Proof.
  intros Hv Hf. pose proof (two_pow_pos 2098 ltac:(lia)).
  destruct x as [s|s| |s m e]; try done; cbn [SF2Z]; try lia.
  pose proof (bounded_small m e Hv). destruct s; cbn [cond_Zopp]; lia.
Qed.

Lemma rnds_valid (x : spec_float) :
  valid_binary x = true -> SFfinite x = true ->
  clamp (rnds (-1074) (SF2Z x)) = SF2Z x.
Proof.
  intros Hv Hf.
  assert (Hr : rnds (-1074) (SF2Z x) = SF2Z x).
  { destruct x as [s|s| |s m e]; try done; cbn [SF2Z]; try (by apply rnd_0).
    pose proof (bounded_small m e Hv). unfold rnds.
    destruct s; cbn [cond_Zopp].
    - destruct (Z.ltb_spec (- (Zpos m * 2 ^ (e + 1074))) 0); [| lia].
      by rewrite Z.opp_involutive, rnd_bounded.
    - destruct (Z.ltb_spec (Zpos m * 2 ^ (e + 1074)) 0); [lia |].
      by rewrite rnd_bounded. }
  rewrite Hr. apply clamp_small, SF2Z_small; assumption.
Qed.

Lemma aligned_value (s : bool) (m : positive) (e ez : Z) :
  -1074 <= ez <= e ->
  cond_Zopp s (Zpos (shl_align m e ez).1) * 2 ^ (ez + 1074)
  = cond_Zopp s (Zpos m * 2 ^ (e + 1074)).
Proof.
  intros He. pose proof (shl_align_spec m e ez) as Hal.
  destruct (shl_align m e ez) as [m' e']. cbn [fst]. destruct Hal as [-> ->].
  rewrite Z.min_r by lia.
  assert (Zpos m * 2 ^ (e - ez) * 2 ^ (ez + 1074) = Zpos m * 2 ^ (e + 1074)) as Heq.
  { rewrite <- Z.mul_assoc, <- Z.pow_add_r by lia. do 2 f_equal. lia. }
  destruct s; cbn [cond_Zopp]; lia.
Qed.

Lemma SFadd_value (x y : spec_float) :
  valid_binary x = true -> valid_binary y = true ->
  SFfinite x = true -> SFfinite y = true ->
  SF2Z (SFadd prec emax x y) = clamp (rnds (-1074) (SF2Z x + SF2Z y)) /\
  SFadd prec emax x y <> S754_nan.
Proof.
  intros Hx Hy Fx Fy.
  destruct x as [sx|sx| |sx mx ex], y as [sy|sy| |sy my ey]; try done.
  - split; [| by destruct sx, sy]. cbn [SF2Z]. unfold rnds. cbn.
    rewrite rnd_0 by lia. by destruct sx, sy.
  - cbn [SFadd]. split; [| done].
    change (SF2Z (S754_zero sx)) with 0. rewrite Z.add_0_l. by rewrite rnds_valid.
  - cbn [SFadd]. split; [| done].
    change (SF2Z (S754_zero sy)) with 0. rewrite Z.add_0_r. by rewrite rnds_valid.
  - cbn [SFadd]. cbn [valid_binary] in Hx, Hy.
    apply bounded_spec in Hx as [_ Hex], Hy as [_ Hey].
    destruct (binary_normalize_rnds
                (cond_Zopp sx (Zpos (shl_align mx ex (Z.min ex ey)).1)
                 + cond_Zopp sy (Zpos (shl_align my ey (Z.min ex ey)).1))
                (Z.min ex ey) false) as [Hv Hnan]; [lia |].
    split; [| exact Hnan]. rewrite Hv. do 2 f_equal.
    rewrite Z.mul_add_distr_r, !aligned_value by lia. done.
Qed.

Lemma SFopp_value (x : spec_float) : SF2Z (SFopp x) = - SF2Z x.
Proof. destruct x as [s|s| |s m e]; try done; destruct s; cbn; lia. Qed.

Lemma SFsub_value (x y : spec_float) :
  valid_binary x = true -> valid_binary y = true ->
  SFfinite x = true -> SFfinite y = true ->
  SF2Z (SFsub prec emax x y) = clamp (rnds (-1074) (SF2Z x - SF2Z y)) /\
  SFsub prec emax x y <> S754_nan.
Proof.
  intros Hx Hy Fx Fy.
  destruct x as [sx|sx| |sx mx ex], y as [sy|sy| |sy my ey]; try done.
  - split; [| by destruct sx, sy]. cbn [SF2Z]. unfold rnds. cbn.
    rewrite rnd_0 by lia. by destruct sx, sy.
  - cbn [SFsub]. split; [| done].
    change (SF2Z (S754_zero sx)) with 0. rewrite Z.sub_0_l.
    change (S754_finite (negb sy) my ey) with (SFopp (S754_finite sy my ey)).
    rewrite SFopp_value, rnds_opp, clamp_opp, rnds_valid by (done || lia). done.
  - cbn [SFsub]. split; [| done].
    change (SF2Z (S754_zero sy)) with 0. rewrite Z.sub_0_r. by rewrite rnds_valid.
  - cbn [SFsub]. cbn [valid_binary] in Hx, Hy.
    apply bounded_spec in Hx as [_ Hex], Hy as [_ Hey].
    destruct (binary_normalize_rnds
                (cond_Zopp sx (Zpos (shl_align mx ex (Z.min ex ey)).1)
                 - cond_Zopp sy (Zpos (shl_align my ey (Z.min ex ey)).1))
                (Z.min ex ey) false) as [Hv Hnan]; [lia |].
    split; [| exact Hnan]. rewrite Hv. do 2 f_equal.
    rewrite Z.mul_sub_distr_r, !aligned_value by lia. done.
Qed.

(** The product of two canonical mantissas lies at or below its canonical
    exponent. *)
Lemma product_exponent (mx my : positive) (ex ey : Z) :
  bounded prec emax mx ex = true -> bounded prec emax my ey = true ->
  ex + ey <= cexp (ex + ey) (Zpos (mx * my)).
Proof.
  intros [Hcx Hex]%bounded_spec [Hcy Hey]%bounded_spec.
  pose proof (Z.log2_mul_below (Zpos mx) (Zpos my) ltac:(lia) ltac:(lia)) as Hl.
  pose proof (Z.log2_nonneg (Zpos mx)). pose proof (Z.log2_nonneg (Zpos my)).
  rewrite Pos2Z.inj_mul. unfold cexp in *. lia.
Qed.

Lemma SFmul_value (x y : spec_float) :
  valid_binary x = true -> valid_binary y = true ->
  SFfinite x = true -> SFfinite y = true ->
  SF2Z (SFmul prec emax x y) = clamp (rnds (-2148) (SF2Z x * SF2Z y)) /\
  SFmul prec emax x y <> S754_nan.
Proof.
  intros Hx Hy Fx Fy.
  destruct x as [sx|sx| |sx mx ex], y as [sy|sy| |sy my ey]; try done.
  all: try (split; [| done]; cbn [SFmul SF2Z]; rewrite ?Z.mul_0_l, ?Z.mul_0_r;
            unfold rnds; cbn [Z.ltb Z.compare]; rewrite rnd_0 by lia; done).
  cbn [SFmul]. cbn [valid_binary] in Hx, Hy.
  pose proof (product_exponent mx my ex ey Hx Hy) as Hc.
  destruct (binary_round_aux_rnd (xorb sx sy) (mx * my) (ex + ey) Hc) as [Hv Hnan].
  split; [| exact Hnan]. rewrite Hv. f_equal.
  pose proof (bounded_small mx ex Hx). pose proof (bounded_small my ey Hy).
  apply bounded_spec in Hx as [_ Hex], Hy as [_ Hey].
  rewrite <- (rnd_unit (ex + ey) _ (ex + ey + 2148)) by lia.
  replace (ex + ey - (ex + ey + 2148)) with (-2148) by lia.
  assert (Heq : Zpos (mx * my) * 2 ^ (ex + ey + 2148)
                = Zpos mx * 2 ^ (ex + 1074) * (Zpos my * 2 ^ (ey + 1074))).
  { replace (ex + ey + 2148) with ((ex + 1074) + (ey + 1074)) by lia.
    rewrite Z.pow_add_r, Pos2Z.inj_mul by lia. ring. }
  rewrite Heq. cbn [SF2Z]. unfold rnds.
  set (X := Zpos mx * 2 ^ (ex + 1074)) in *. set (Y := Zpos my * 2 ^ (ey + 1074)) in *.
  assert (0 < X * Y) by (apply Z.mul_pos_pos; lia).
  destruct sx, sy; cbn [xorb cond_Zopp].
  - destruct (Z.ltb_spec (- X * - Y) 0); [lia |]. f_equal. lia.
  - destruct (Z.ltb_spec (- X * Y) 0); [| lia]. do 2 f_equal. lia.
  - destruct (Z.ltb_spec (X * - Y) 0); [| lia]. do 2 f_equal. lia.
  - destruct (Z.ltb_spec (X * Y) 0); [lia | done].
Qed.

(** The order of binary64 is the order of the values. *)
Lemma SFcompare_value (x y : spec_float) :
  valid_binary x = true -> valid_binary y = true ->
  x <> S754_nan -> y <> S754_nan ->
  SFcompare x y = Some (SF2Z x ?= SF2Z y).
Proof.
  intros Hx Hy Nx Ny.
  assert (HINF : 2 ^ 2098 < INF) by (apply two_pow_lt; lia).
  assert (H0 : 0 < 2 ^ 2098) by (apply two_pow_pos; lia).
  destruct x as [sx|sx| |sx mx ex], y as [sy|sy| |sy my ey]; try done;
    cbn [SFcompare SF2Z valid_binary] in *;
    try pose proof (bounded_small mx ex Hx); try pose proof (bounded_small my ey Hy).
  1-7: f_equal; symmetry;
       repeat match goal with s : bool |- _ => destruct s end; cbn [cond_Zopp];
       first [ by apply Z.compare_eq_iff | apply Z.compare_lt_iff; lia
             | apply Z.compare_gt_iff; lia ].
  destruct (bounded_value mx ex Hx) as [[_ Hxhi] Hxlo].
  destruct (bounded_value my ey Hy) as [[_ Hyhi] Hylo].
  apply bounded_spec in Hx as [_ Hex], Hy as [_ Hey].
  set (X := Zpos mx * 2 ^ (ex + 1074)) in *. set (Y := Zpos my * 2 ^ (ey + 1074)) in *.
  assert (Hlt : forall a b A B, -1074 <= a < b -> A < 2 ^ (a + 1127) ->
                  2 ^ (b + 1126) <= B -> A < B).
  { intros a b A B Hab HA HB. pose proof (two_pow_le (a + 1127) (b + 1126) ltac:(lia)). lia. }
  assert (Hxy : (X ?= Y) = match ex ?= ey with
                            | Eq => Pos.compare_cont Eq mx my
                            | Lt => Lt
                            | Gt => Gt
                            end).
  { destruct (Z.compare_spec ex ey) as [Heq|He|He].
    - unfold X, Y. rewrite Heq. rewrite <- Zmult_compare_compat_r; [done |].
      pose proof (two_pow_pos (ey + 1074)). lia.
    - apply Z.compare_lt_iff. apply (Hlt ex ey); [lia | done | apply Hylo; lia].
    - apply Z.compare_gt_iff. apply (Hlt ey ex); [lia | done | apply Hxlo; lia]. }
  f_equal. symmetry. destruct sx, sy; cbn [cond_Zopp].
  - rewrite Z.compare_opp, Z.compare_antisym, Hxy. by destruct (ex ?= ey).
  - apply Z.compare_lt_iff. lia.
  - apply Z.compare_gt_iff. lia.
  - exact Hxy.
Qed.
End SpecOps.

(** The operations of the script on values. *)

Section Binary64.
Local Open Scope Z_scope.
Implicit Types x y z : float.

Lemma SFcompare_refl (s : spec_float) :
  valid_binary s = true -> s <> S754_nan -> SFcompare s s = Some Eq.
Proof. intros Hv Hn. rewrite SFcompare_value by done. by rewrite Z.compare_refl. Qed.

Lemma is_nan_spec x : is_nan x = true <-> Prim2SF x = S754_nan.
Proof.
  unfold is_nan. rewrite FloatAxioms.eqb_spec. unfold SFeqb.
  pose proof (Prim2SF_valid x) as Hv.
  destruct (Prim2SF x) as [s|s| |s m e]; try done.
  all: rewrite SFcompare_refl by done; done.
Qed.

Lemma is_nan_false x : is_nan x = false <-> Prim2SF x <> S754_nan.
Proof. rewrite <- is_nan_spec. by destruct (is_nan x). Qed.

Lemma is_finite_spec x : is_finite x = SFfinite (Prim2SF x).
Proof.
  unfold is_finite, is_infinity. rewrite FloatAxioms.eqb_spec, FloatAxioms.abs_spec.
  destruct (is_nan x) eqn:E.
  - apply is_nan_spec in E. by rewrite E.
  - apply is_nan_false in E. cbn [orb].
    change (Prim2SF infinity) with (S754_infinity false).
    destruct (Prim2SF x) as [s|s| |s m e]; try done; by destruct s.
Qed.

Lemma finite_not_nan x : is_finite x = true -> is_nan x = false.
Proof. rewrite is_finite_spec, is_nan_false. by destruct (Prim2SF x). Qed.

Lemma compare_F2Z x y :
  is_nan x = false -> is_nan y = false ->
  SFcompare (Prim2SF x) (Prim2SF y) = Some (F2Z x ?= F2Z y).
Proof.
  intros Hx%is_nan_false Hy%is_nan_false. by apply SFcompare_value; try apply Prim2SF_valid.
Qed.

Lemma ltb_F2Z x y :
  is_nan x = false -> is_nan y = false -> PrimFloat.ltb x y = (F2Z x <? F2Z y).
Proof.
  intros Hx Hy. rewrite FloatAxioms.ltb_spec. unfold SFltb, Z.ltb. rewrite compare_F2Z by done.
  by destruct (F2Z x ?= F2Z y).
Qed.

Lemma leb_F2Z x y :
  is_nan x = false -> is_nan y = false -> PrimFloat.leb x y = (F2Z x <=? F2Z y).
Proof.
  intros Hx Hy. rewrite FloatAxioms.leb_spec. unfold SFleb, Z.leb. rewrite compare_F2Z by done.
  by destruct (F2Z x ?= F2Z y).
Qed.

Lemma eqb_F2Z x y :
  is_nan x = false -> is_nan y = false -> PrimFloat.eqb x y = (F2Z x =? F2Z y).
Proof.
  intros Hx Hy. rewrite FloatAxioms.eqb_spec. unfold SFeqb. rewrite compare_F2Z by done.
  destruct (Z.eqb_spec (F2Z x) (F2Z y)) as [->|Hne]; [by rewrite Z.compare_refl |].
  destruct (Z.compare_spec (F2Z x) (F2Z y)); done.
Qed.

(** A comparison that holds has no NaN operand. *)
Lemma ltb_not_nan x y : PrimFloat.ltb x y = true -> is_nan x = false /\ is_nan y = false.
Proof.
  rewrite FloatAxioms.ltb_spec, !is_nan_false. unfold SFltb.
  destruct (Prim2SF x), (Prim2SF y); done.
Qed.

Lemma leb_not_nan x y : PrimFloat.leb x y = true -> is_nan x = false /\ is_nan y = false.
Proof.
  rewrite FloatAxioms.leb_spec, !is_nan_false. unfold SFleb.
  destruct (Prim2SF x), (Prim2SF y); done.
Qed.

Lemma F2Z_finite x : is_finite x = true -> - 2 ^ 2098 < F2Z x < 2 ^ 2098.
Proof. rewrite is_finite_spec. apply SF2Z_small, Prim2SF_valid. Qed.

Lemma finite_F2Z x : is_nan x = false -> - 2 ^ 2098 < F2Z x < 2 ^ 2098 -> is_finite x = true.
Proof.
  rewrite is_finite_spec, is_nan_false. unfold F2Z.
  assert (2 ^ 2098 < INF) by (apply two_pow_lt; lia).
  destruct (Prim2SF x) as [s|s| |s m e]; try done. destruct s; cbn; lia.
Qed.

Lemma add_F2Z x y :
  is_finite x = true -> is_finite y = true ->
  F2Z (x + y) = clamp (rnds (-1074) (F2Z x + F2Z y)) /\ is_nan (x + y) = false.
Proof.
  rewrite !is_finite_spec, is_nan_false. unfold F2Z. rewrite FloatAxioms.add_spec.
  intros Hx Hy. by apply SFadd_value; try apply Prim2SF_valid.
Qed.

Lemma sub_F2Z x y :
  is_finite x = true -> is_finite y = true ->
  F2Z (x - y) = clamp (rnds (-1074) (F2Z x - F2Z y)) /\ is_nan (x - y) = false.
Proof.
  rewrite !is_finite_spec, is_nan_false. unfold F2Z. rewrite FloatAxioms.sub_spec.
  intros Hx Hy. by apply SFsub_value; try apply Prim2SF_valid.
Qed.

Lemma mul_F2Z x y :
  is_finite x = true -> is_finite y = true ->
  F2Z (x * y) = clamp (rnds (-2148) (F2Z x * F2Z y)) /\ is_nan (x * y) = false.
Proof.
  rewrite !is_finite_spec, is_nan_false. unfold F2Z. rewrite FloatAxioms.mul_spec.
  intros Hx Hy. by apply SFmul_value; try apply Prim2SF_valid.
Qed.

Lemma opp_F2Z x : F2Z (- x) = - F2Z x.
Proof. unfold F2Z. rewrite FloatAxioms.opp_spec. apply SFopp_value. Qed.

Lemma opp_finite x : is_finite (- x) = is_finite x.
Proof. rewrite !is_finite_spec, FloatAxioms.opp_spec. by destruct (Prim2SF x). Qed.

Lemma opp_nan x : is_nan (- x) = is_nan x.
Proof.
  destruct (is_nan x) eqn:E.
  - apply is_nan_spec in E. apply is_nan_spec. by rewrite FloatAxioms.opp_spec, E.
  - apply is_nan_false in E. apply is_nan_false. rewrite FloatAxioms.opp_spec. by destruct (Prim2SF x).
Qed.
End Binary64.

Section Derived.
Local Open Scope Z_scope.
Implicit Types x y z : float.

Lemma rnd_1 : rnd (-1074) 1 = 1.
Proof. reflexivity. Qed.

Lemma rnds_pos (W : Z) : 0 < W -> 0 < rnds (-1074) W.
Proof.
  intros HW. pose proof (rnds_mono (-1074) 1 W ltac:(lia) ltac:(lia)) as H.
  unfold rnds at 1 in H. cbn [Z.ltb Z.compare] in H. rewrite rnd_1 in H. lia.
Qed.

Lemma rnds_0 (u : Z) : u <= -1074 -> rnds u 0 = 0.
Proof. intros Hu. unfold rnds. cbn [Z.ltb Z.compare]. by apply rnd_0. Qed.

Lemma clamp_pos (v : Z) : 0 < clamp v <-> 0 < v.
Proof.
  unfold clamp, INF. assert (0 < 2 ^ 2098) by (apply two_pow_pos; lia).
  assert (0 < 2 ^ 2100) by (apply two_pow_pos; lia).
  repeat match goal with |- context [(?a <=? ?b)] => destruct (Z.leb_spec a b) end; lia.
Qed.

(** The sign of a rounded sum or difference is the sign of the exact
    one: binary64 has subnormal numbers. *)
Lemma round_pos (W : Z) : 0 < clamp (rnds (-1074) W) <-> 0 < W.
Proof.
  rewrite clamp_pos. split; [| apply rnds_pos].
  intros Hr. destruct (Z.lt_ge_cases 0 W) as [|HW]; [done | exfalso].
  pose proof (rnds_mono (-1074) W 0 ltac:(lia) HW) as H.
  rewrite rnds_0 in H by lia. lia.
Qed.

Lemma F2Z_zero : F2Z 0%float = 0.
Proof. reflexivity. Qed.

Lemma sub_pos x y :
  is_finite x = true -> is_finite y = true ->
  PrimFloat.ltb 0 (x - y) = (F2Z y <? F2Z x).
Proof.
  intros Hx Hy. destruct (sub_F2Z x y Hx Hy) as [Hv Hn].
  rewrite ltb_F2Z by done. rewrite F2Z_zero, Hv.
  destruct (Z.ltb_spec 0 (clamp (rnds (-1074) (F2Z x - F2Z y)))) as [H|H],
           (Z.ltb_spec (F2Z y) (F2Z x)) as [H'|H']; try done.
  - apply (proj1 (round_pos _)) in H. lia.
  - assert (0 < clamp (rnds (-1074) (F2Z x - F2Z y))) by (apply round_pos; lia). lia.
Qed.
End Derived.

(** *** Exact results, [Math.floor] and array indices *)

Section MoreRnd.
Local Open Scope Z_scope.

(** A value with at most 53 significant bits is not changed. *)
Lemma rnd_exact (u A j : Z) :
  u <= -1074 -> 0 < A < 2 ^ 53 -> -1074 <= u + j ->
  rnd u (A * 2 ^ j) = A * 2 ^ (j + u + 1074).
Proof.
  intros Hu HA Hj. unfold rnd.
  assert (Hl : Z.log2 A <= 52).
  { pose proof (Z.log2_lt_pow2 A 53 ltac:(lia)). lia. }
  pose proof (Z.log2_nonneg A) as Hl0.
  assert (Hc : cexp u (A * 2 ^ j) = Z.max (Z.log2 A + j + u - 52) (-1074)).
  { unfold cexp. rewrite log2_mul_pow2 by lia. lia. }
  rewrite Hc. set (c := Z.max (Z.log2 A + j + u - 52) (-1074)).
  replace (A * 2 ^ j) with (A * 2 ^ (j - (c - u)) * 2 ^ (c - u)).
  2:{ rewrite <- Z.mul_assoc, <- Z.pow_add_r by lia. do 2 f_equal. lia. }
  rewrite rne_exact by lia.
  rewrite <- Z.mul_assoc, <- Z.pow_add_r by lia. do 2 f_equal. lia.
Qed.
End MoreRnd.

Section FloatFacts.
Local Open Scope Z_scope.
Implicit Types x y z : float.

Lemma rnds_exact (u A j : Z) :
  u <= -1074 -> 0 <= A < 2 ^ 53 -> -1074 <= u + j ->
  rnds u (A * 2 ^ j) = A * 2 ^ (j + u + 1074).
Proof.
  intros Hu HA Hj. destruct (Z.eq_dec A 0) as [->|HA0].
  - rewrite !Z.mul_0_l. by apply rnds_0.
  - unfold rnds. assert (0 < 2 ^ j) by (apply two_pow_pos; lia).
    destruct (Z.ltb_spec (A * 2 ^ j) 0); [nia |]. apply rnd_exact; lia.
Qed.

(** [F64.of_Z] on a natural number below 2^53 is exact. *)
Lemma of_nat_F2Z (n : nat) :
  Z.of_nat n < 2 ^ 53 ->
  F2Z (of_nat (T := float) n) = Z.of_nat n * 2 ^ 1074 /\ is_finite (of_nat (T := float) n) = true.
Proof.
  intros Hn. unfold of_nat. cbn [of_Z float_number]. unfold F64.of_Z.
  destruct (Z.of_nat n) as [|p|p] eqn:Hp; [done | | lia].
  assert (Hv : SF2Z (Prim2SF (of_uint63 (Uint63.of_Z (Zpos p)))) = Zpos p * 2 ^ 1074 /\
               Prim2SF (of_uint63 (Uint63.of_Z (Zpos p))) <> S754_nan).
  { rewrite of_uint63_spec, Uint63.of_Z_spec.
    rewrite Z.mod_small.
    2:{ split; [lia |]. eapply Z.lt_trans; [exact Hn |]. done. }
    destruct (binary_normalize_rnds (Zpos p) 0 false ltac:(lia)) as [Hv Hnan].
    split; [| exact Hnan]. rewrite Hv. change (0 + 1074) with 1074.
    rewrite rnds_exact by lia. replace (1074 + -1074 + 1074) with 1074 by lia.
    apply clamp_small.
    assert (0 < 2 ^ 1074) by (apply two_pow_pos; lia).
    assert (2 ^ 53 * 2 ^ 1074 < 2 ^ 2098).
    { rewrite <- Z.pow_add_r by lia. apply two_pow_lt. lia. }
    nia. }
  destruct Hv as [Hv Hnan]. split; [exact Hv |].
  apply finite_F2Z; [by apply is_nan_false |]. unfold F2Z. rewrite Hv.
  assert (0 < 2 ^ 1074) by (apply two_pow_pos; lia).
  assert (2 ^ 53 * 2 ^ 1074 < 2 ^ 2098).
  { rewrite <- Z.pow_add_r by lia. apply two_pow_lt. lia. }
  nia.
Qed.

(** [Math.floor] of a finite number. *)
Lemma floor_F2Z x : is_finite x = true -> Math_floor x = Some (F2Z x / 2 ^ 1074).
Proof.
  rewrite is_finite_spec. cbn [Math_floor float_number]. unfold F64.floor, F2Z.
  pose proof (Prim2SF_valid x) as Hv.
  destruct (Prim2SF x) as [s|s| |s m e]; try done; intros _; cbn [SF2Z].
  apply bounded_spec in Hv as [_ He]. f_equal.
  assert (Hn : cond_Zopp s (Zpos m * 2 ^ (e + 1074))
               = (if s then Zneg m else Zpos m) * 2 ^ (e + 1074)) by (destruct s; cbn; lia).
  rewrite Hn. destruct (Z.leb_spec 0 e).
  - replace (e + 1074) with (e + 1074 - 1074 + 1074) at 1 by lia.
    rewrite (Z.pow_add_r 2 (e + 1074 - 1074) 1074), Z.mul_assoc, Z.div_mul by lia.
    do 2 f_equal. lia.
  - replace (2 ^ 1074) with (2 ^ (- e) * 2 ^ (e + 1074)).
    2:{ rewrite <- Z.pow_add_r by lia. f_equal. lia. }
    rewrite Z.div_mul_cancel_r; [done | |].
    + pose proof (two_pow_pos (- e)). lia.
    + pose proof (two_pow_pos (e + 1074)). lia.
Qed.
End FloatFacts.

Section Index.
Local Open Scope Z_scope.

(** [Math.floor(n * c)] for a constant [c] just above [1 / D], as 0.05
    and 0.01 are: the product rounds to a number between [n / D] and the
    next integer, for every array length [n]. *)
Lemma floor_mul_const (c : float) (D : Z) (n : nat) :
  is_finite c = true -> 0 < D <= 100 ->
  2 ^ 1074 <= D * F2Z c <= 2 ^ 1074 + 2 ^ 1022 ->
  Z.of_nat n < 2 ^ 32 ->
  Math_floor (of_nat (T := float) n *! c) = Some (Z.of_nat n / D).
Proof.
  intros Hc HD [HClo HChi] Hn.
  destruct (of_nat_F2Z n) as [Hnv Hnf].
  { eapply Z.lt_trans; [exact Hn |]. done. }
  cbn [num_mul float_number].
  destruct (mul_F2Z (of_nat n) c Hnf Hc) as [Hv Hnan]. rewrite Hnv in Hv.
  set (C := F2Z c) in *. set (N := Z.of_nat n) in *.
  assert (HN : 0 <= N) by lia.
  set (k := N / D).
  pose proof (Z.div_mod N D ltac:(lia)) as Hdm.
  pose proof (Z.mod_pos_bound N D ltac:(lia)) as Hmod. fold k in Hdm.
  assert (Hk : 0 <= k) by (apply Z.div_pos; lia).
  assert (Hk32 : k < 2 ^ 32).
  { assert (k <= N) by (unfold k; apply Z.div_le_upper_bound; nia). lia. }
  set (P := 2 ^ 1022) in *.
  assert (HP : 0 < P) by (apply two_pow_pos; lia).
  assert (H1074 : 2 ^ 1074 = 2 ^ 52 * P).
  { unfold P. rewrite <- Z.pow_add_r by lia. done. }
  assert (H1054 : 2 ^ 1054 = 2 ^ 32 * P).
  { unfold P. rewrite <- Z.pow_add_r by lia. done. }
  set (A := (k + 1) * 2 ^ 20 - 1).
  assert (HA : 0 <= A < 2 ^ 53) by (unfold A; lia).
  (* the exact product lies between two numbers of binary64 *)
  assert (Hlo : k * 2 ^ 2148 <= N * 2 ^ 1074 * C).
  { replace (2 ^ 2148) with (2 ^ 1074 * 2 ^ 1074) by (by rewrite <- Z.pow_add_r by lia).
    assert (k * 2 ^ 1074 <= N * C); [| nia].
    apply (Z.mul_le_mono_pos_l _ _ D); [lia |].
    trans (N * 2 ^ 1074); [nia |]. nia. }
  assert (Hhi : N * 2 ^ 1074 * C <= A * 2 ^ 2128).
  { replace (2 ^ 2128) with (2 ^ 1054 * 2 ^ 1074) by (by rewrite <- Z.pow_add_r by lia).
    assert (N * C <= A * 2 ^ 1054); [| nia].
    apply (Z.mul_le_mono_pos_l _ _ D); [lia |].
    trans (N * ((2 ^ 52 + 1) * P)); [nia |].
    rewrite H1054.
    assert (N * (2 ^ 52 + 1) <= D * (A * 2 ^ 32)) by (unfold A; lia).
    nia. }
  pose proof (rnds_mono (-2148) _ _ ltac:(lia) Hlo) as Hrlo.
  pose proof (rnds_mono (-2148) _ _ ltac:(lia) Hhi) as Hrhi.
  rewrite rnds_exact in Hrlo by lia. rewrite rnds_exact in Hrhi by lia.
  replace (2148 + -2148 + 1074) with 1074 in Hrlo by lia.
  replace (2128 + -2148 + 1074) with 1054 in Hrhi by lia.
  set (R := rnds (-2148) (N * 2 ^ 1074 * C)) in *.
  assert (HR : k * 2 ^ 1074 <= R < (k + 1) * 2 ^ 1074).
  { split; [exact Hrlo |]. eapply Z.le_lt_trans; [exact Hrhi |].
    rewrite H1074, H1054. unfold A. nia. }
  assert (Hsmall : - 2 ^ 2098 < R < 2 ^ 2098).
  { assert (2 ^ 33 * 2 ^ 1074 < 2 ^ 2098).
    { rewrite <- Z.pow_add_r by lia. apply two_pow_lt. lia. }
    assert (0 < 2 ^ 1074) by (apply two_pow_pos; lia). nia. }
  rewrite clamp_small in Hv by exact Hsmall.
  rewrite floor_F2Z.
  2:{ apply finite_F2Z; [exact Hnan | by rewrite Hv]. }
  rewrite Hv. f_equal. symmetry. apply Z.div_unique with (r := R - k * 2 ^ 1074).
  - left. lia.
  - lia.
Qed.
End Index.

(** *** Infinite operands *)

Section NotNaN.
Local Open Scope Z_scope.
Implicit Types x y : float.

Lemma F2Z_not_finite x :
  is_nan x = false -> is_finite x = false -> F2Z x = INF \/ F2Z x = - INF.
Proof.
  rewrite is_nan_false, is_finite_spec. unfold F2Z.
  destruct (Prim2SF x) as [s|s| |s m e]; try done. destruct s; cbn; auto.
Qed.

(** The comparator [a - b > 0] of the script says [a > b] on all numbers
    but NaN, infinite ones included. *)
Lemma sub_pos_not_nan x y :
  is_nan x = false -> is_nan y = false ->
  PrimFloat.ltb 0 (x - y) = (F2Z y <? F2Z x).
Proof.
  intros Hx Hy.
  destruct (is_finite x) eqn:Fx, (is_finite y) eqn:Fy; [by apply sub_pos | | |].
  all: assert (HINF : 2 ^ 2098 < INF) by (apply two_pow_lt; lia).
  all: try pose proof (F2Z_finite x Fx); try pose proof (F2Z_finite y Fy).
  all: rewrite FloatAxioms.ltb_spec, FloatAxioms.sub_spec.
  all: apply is_nan_false in Hx, Hy; rewrite is_finite_spec in Fx, Fy.
  all: unfold F2Z in *.
  all: destruct (Prim2SF x) as [sx|sx| |sx mx ex], (Prim2SF y) as [sy|sy| |sy my ey];
       try done.
  all: repeat match goal with s : bool |- _ => destruct s end; cbn in *.
  all: symmetry; first [ apply Z.ltb_lt; lia | apply Z.ltb_ge; lia ].
Qed.

Lemma clamp_small_neg (v : Z) : v <= - 2 ^ 2098 -> clamp v = - INF.
Proof.
  intros Hv. unfold clamp. assert (0 < 2 ^ 2098) by (apply two_pow_pos; lia).
  destruct (Z.leb_spec (2 ^ 2098) v); [lia |].
  destruct (Z.leb_spec v (- 2 ^ 2098)); [done | lia].
Qed.

(** Scaling by a finite constant [c >= 1/4], on all numbers but NaN. *)
Lemma mul_const_F2Z x c :
  is_nan x = false -> is_finite c = true -> 2 ^ 1072 <= F2Z c ->
  F2Z (x * c) = clamp (rnds (-2148) (F2Z x * F2Z c)) /\ is_nan (x * c) = false.
Proof.
  intros Hx Hc HC. destruct (is_finite x) eqn:Fx; [by apply mul_F2Z |].
  assert (Hbig : 2 ^ 2098 <= rnds (-2148) (INF * F2Z c)).
  { replace (2 ^ 2098) with (1 * 2 ^ (3172 + -2148 + 1074)) by (rewrite Z.mul_1_l; done).
    rewrite <- (rnds_exact (-2148) 1 3172) by lia.
    apply rnds_mono; [lia |]. rewrite Z.mul_1_l. unfold INF.
    replace 3172 with (2100 + 1072) by lia. rewrite Z.pow_add_r by lia.
    assert (0 < 2 ^ 2100) by (apply two_pow_pos; lia). nia. }
  assert (H0 : 0 < 2 ^ 1072) by (apply two_pow_pos; lia).
  rewrite is_nan_false. rewrite is_nan_false in Hx. rewrite !is_finite_spec in *.
  unfold F2Z in *. rewrite FloatAxioms.mul_spec.
  destruct (Prim2SF x) as [sx|sx| |sx mx ex]; try done.
  destruct (Prim2SF c) as [sc|sc| |sc mc ec]; try done; cbn [SF2Z] in *; try lia.
  destruct sc; cbn [cond_Zopp] in *; [lia |]. cbn [SFmul]. split; [| done].
  destruct sx; cbn [xorb SF2Z cond_Zopp].
  - rewrite Z.mul_opp_l, rnds_opp by lia. rewrite clamp_small_neg; [done | lia].
  - by rewrite clamp_large.
Qed.
End NotNaN.

(** *** Division by 1 *)

Section Exact.
Local Open Scope Z_scope.
Implicit Types x y : float.

(** Two numbers with the same non-zero value are the same number. *)
Lemma SF2Z_inj (a b : spec_float) :
  valid_binary a = true -> valid_binary b = true ->
  a <> S754_nan -> b <> S754_nan -> SF2Z a = SF2Z b -> SF2Z a <> 0 -> a = b.
Proof.
  intros Ha Hb Na Nb Heq Hne.
  pose proof (SFcompare_value a b Ha Hb Na Nb) as Hc. rewrite Heq, Z.compare_refl in Hc.
  assert (HINF : 2 ^ 2098 < INF) by (apply two_pow_lt; lia).
  assert (H0 : 0 < 2 ^ 2098) by (apply two_pow_pos; lia).
  destruct a as [sa|sa| |sa ma ea], b as [sb|sb| |sb mb eb]; try done;
    cbn [SF2Z valid_binary] in *; try lia.
  - destruct sa, sb; cbn in *; try done; lia.
  - pose proof (bounded_small mb eb Hb). destruct sa, sb; cbn in *; lia.
  - pose proof (bounded_small ma ea Ha). destruct sa, sb; cbn in *; lia.
  - cbn [SFcompare] in Hc.
    destruct sa, sb; try done; destruct (Z.compare_spec ea eb) as [->|?|?]; try done;
      f_equal.
    + destruct (Pos.compare_cont Eq ma mb) eqn:E; try done. by apply Pos.compare_eq.
    + by apply Pos.compare_eq; injection Hc.
Qed.

Lemma F2Z_inj x y :
  is_nan x = false -> is_nan y = false -> F2Z x = F2Z y -> F2Z x <> 0 -> x = y.
Proof.
  intros Hx%is_nan_false Hy%is_nan_false Heq Hne. apply Prim2SF_inj.
  by apply SF2Z_inj; try apply Prim2SF_valid.
Qed.

(** Division by 1: the quotient is the dividend with one more bit, or,
    for a subnormal dividend, the dividend itself. *)
Lemma div_core_one (m : positive) (e : Z) :
  bounded prec emax m e = true ->
  let t := if e =? -1074 then 0 else 1 in
  SFdiv_core_binary prec emax (Zpos m) e 4503599627370496 (-52)
  = (Zpos m * 2 ^ t, e - t, loc_Exact).
Proof.
  intros [Hc He]%bounded_spec t. unfold SFdiv_core_binary.
  change (Zdigits2 4503599627370496) with 53.
  replace (Zdigits2 (Zpos m) + e - (53 + -52)) with (Zdigits2 (Zpos m) + (e - 1)) by lia.
  rewrite fexp_cexp.
  assert (Hc' : cexp (e - 1) (Zpos m) = e - t).
  { unfold cexp in *. unfold t. destruct (Z.eqb_spec e (-1074)); lia. }
  rewrite Hc'. rewrite Z.min_l by (unfold t; destruct (Z.eqb_spec e (-1074)); lia).
  replace (e - -52 - (e - t)) with (52 + t) by lia.
  assert (Ht : t = 0 \/ t = 1) by (unfold t; destruct (Z.eqb_spec e (-1074)); auto).
  assert (Hm' : match 52 + t with
                | Zpos _ => Z.shiftl (Zpos m) (52 + t)
                | 0 => Zpos m
                | Zneg _ => 0
                end = Zpos m * 2 ^ t * 4503599627370496).
  { destruct Ht as [-> | ->]; [change (52 + 0) with 52 | change (52 + 1) with 53];
      cbv iota; rewrite Z.shiftl_mul_pow2 by lia.
    - change (2 ^ 0) with 1. rewrite Z.mul_1_r. done.
    - change (2 ^ 53) with (2 ^ 1 * 4503599627370496). ring. }
  rewrite Hm'.
  assert (Hdiv : Z.div_eucl (Zpos m * 2 ^ t * 4503599627370496) 4503599627370496
                 = (Zpos m * 2 ^ t, 0)).
  { pose proof (Z.div_mul (Zpos m * 2 ^ t) 4503599627370496 ltac:(lia)) as Hq.
    pose proof (Z.mod_mul (Zpos m * 2 ^ t) 4503599627370496 ltac:(lia)) as Hr.
    unfold Z.div, Z.modulo in Hq, Hr.
    destruct (Z.div_eucl _ _) as [q r]. by subst. }
  rewrite Hdiv. done.
Qed.

Lemma div_one x : is_finite x = true -> (x / 1)%float = x.
Proof.
  intros Hf. pose proof (Prim2SF_valid x) as Hv.
  rewrite is_finite_spec in Hf.
  destruct (Prim2SF x) as [s|s| |s m e] eqn:E; try done.
  - apply Prim2SF_inj. rewrite FloatAxioms.div_spec, E.
    change (Prim2SF 1) with (S754_finite false 4503599627370496 (-52)).
    by destruct s.
  - assert (Hd : SF2Z (Prim2SF (x / 1)) = SF2Z (Prim2SF x) /\ Prim2SF (x / 1) <> S754_nan).
    { rewrite FloatAxioms.div_spec, E.
      change (Prim2SF 1) with (S754_finite false 4503599627370496 (-52)).
      unfold SF64div, SFdiv. rewrite (div_core_one m e Hv).
      cbn [valid_binary] in Hv. pose proof (bounded_small m e Hv) as Hsmall.
      apply bounded_spec in Hv as [Hc He].
      set (t := if e =? -1074 then 0 else 1).
      assert (Ht : 0 <= t <= 1) by (unfold t; destruct (Z.eqb_spec e (-1074)); lia).
      assert (Hp : Zpos m * 2 ^ t = Zpos (m * Z.to_pos (2 ^ t))).
      { rewrite Pos2Z.inj_mul, Z2Pos.id; [done | apply two_pow_pos; lia]. }
      rewrite Hp.
      destruct (binary_round_aux_rnd (xorb s false) (m * Z.to_pos (2 ^ t)) (e - t))
        as [Hval Hnan].
      { rewrite <- Hp. unfold cexp in *. rewrite log2_mul_pow2 by lia. lia. }
      split; [| exact Hnan]. rewrite Hval, <- Hp.
      replace (rnd (e - t) (Zpos m * 2 ^ t)) with (Zpos m * 2 ^ (e + 1074)).
      2:{ rewrite rnd_unit by lia. unfold rnd. rewrite Hc, Z.sub_diag.
          pose proof (rne_exact (Zpos m) 0 ltac:(lia)) as Hr.
          change (2 ^ 0) with 1 in Hr. rewrite Z.mul_1_r in Hr. by rewrite Hr. }
      rewrite xorb_false_r, cond_Zopp_clamp. cbn [SF2Z]. f_equal.
      apply clamp_small. lia. }
    destruct Hd as [Hval Hnan]. apply F2Z_inj.
    + by apply is_nan_false.
    + apply is_nan_false. by rewrite E.
    + exact Hval.
    + unfold F2Z. rewrite Hval, E. cbn [SF2Z valid_binary] in *.
      pose proof (bounded_small m e Hv). destruct s; cbn; lia.
Qed.
End Exact.

(** *** Zero products and positive numbers *)

Section ZeroProducts.
Local Open Scope Z_scope.
Implicit Types v c : float.

Lemma clamp_eq_0 (w : Z) : clamp w = 0 <-> w = 0.
Proof.
  unfold clamp, INF. assert (0 < 2 ^ 2098) by (apply two_pow_pos; lia).
  assert (0 < 2 ^ 2100) by (apply two_pow_pos; lia).
  repeat match goal with |- context [(?a <=? ?b)] => destruct (Z.leb_spec a b) end; lia.
Qed.

(** Scaling by a constant [c >= 1] does not underflow: the product is
    zero only when the number is. *)
Lemma mul_const_eq_0 v c :
  is_finite c = true -> 2 ^ 1074 <= F2Z c ->
  PrimFloat.eqb (v * c) 0 = PrimFloat.eqb v 0.
Proof.
  intros Hc HC. destruct (is_nan v) eqn:Hv.
  - apply is_nan_spec in Hv. rewrite !FloatAxioms.eqb_spec, FloatAxioms.mul_spec, Hv. done.
  - assert (H1072 : 2 ^ 1072 <= F2Z c).
    { pose proof (two_pow_le 1072 1074 ltac:(lia)). lia. }
    destruct (mul_const_F2Z v c Hv Hc H1072) as [Hval Hnan].
    rewrite !eqb_F2Z by done. rewrite F2Z_zero, Hval.
    assert (H1 : rnds (-2148) (2 ^ 1074) = 1).
    { pose proof (rnds_exact (-2148) 1 1074 ltac:(lia) ltac:(lia) ltac:(lia)) as H.
      by rewrite Z.mul_1_l in H. }
    destruct (Z.eqb_spec (F2Z v) 0) as [->|Hne].
    + rewrite Z.mul_0_l, rnds_0 by lia. done.
    + apply Z.eqb_neq. rewrite clamp_eq_0.
      destruct (Z.lt_ge_cases 0 (F2Z v)) as [Hpos|Hneg].
      * pose proof (rnds_mono (-2148) (2 ^ 1074) (F2Z v * F2Z c) ltac:(lia) ltac:(nia)). lia.
      * pose proof (rnds_mono (-2148) (F2Z v * F2Z c) (- 2 ^ 1074) ltac:(lia) ltac:(nia)) as H.
        rewrite rnds_opp in H by lia. lia.
Qed.

Lemma F2Z_positive (x : float) :
  is_finite x = true -> 0 < F2Z x -> exists m e, Prim2SF x = S754_finite false m e.
Proof.
  rewrite is_finite_spec. unfold F2Z.
  destruct (Prim2SF x) as [s|s| |s m e]; try done; cbn [SF2Z]; try lia.
  intros _ Hpos. destruct s; cbn in Hpos; [lia | eauto].
Qed.
End ZeroProducts.

(** *** Monotone operations on an interval *)

Section Interval.
Local Open Scope Z_scope.
Implicit Types x y c lo hi : float.

Lemma between_finite lo x hi :
  is_finite lo = true -> is_finite hi = true -> is_nan x = false ->
  F2Z lo <= F2Z x <= F2Z hi -> is_finite x = true.
Proof.
  intros Hlo Hhi Hx Hb. apply finite_F2Z; [exact Hx |].
  pose proof (F2Z_finite lo Hlo). pose proof (F2Z_finite hi Hhi). lia.
Qed.

Lemma leb_between lo x hi :
  PrimFloat.leb lo x = true -> PrimFloat.leb x hi = true ->
  is_nan x = false /\ F2Z lo <= F2Z x <= F2Z hi.
Proof.
  intros H1 H2.
  destruct (leb_not_nan _ _ H1) as [Hlo Hx], (leb_not_nan _ _ H2) as [_ Hhi].
  rewrite leb_F2Z in H1, H2 by done. apply Z.leb_le in H1, H2. done.
Qed.

Lemma add_between lo x hi y :
  is_finite lo = true -> is_finite hi = true -> is_finite y = true ->
  is_nan x = false -> F2Z lo <= F2Z x <= F2Z hi ->
  is_nan (x + y) = false /\ F2Z (lo + y) <= F2Z (x + y) <= F2Z (hi + y).
Proof.
  intros Hlo Hhi Hy Hx Hb.
  pose proof (between_finite lo x hi Hlo Hhi Hx Hb) as Hfx.
  destruct (add_F2Z x y Hfx Hy) as [-> ?], (add_F2Z lo y Hlo Hy) as [-> _],
    (add_F2Z hi y Hhi Hy) as [-> _].
  split; [done |]. split; apply clamp_mono, rnds_mono; lia.
Qed.

Lemma add_between_r lo x hi y :
  is_finite lo = true -> is_finite hi = true -> is_finite y = true ->
  is_nan x = false -> F2Z lo <= F2Z x <= F2Z hi ->
  is_nan (y + x) = false /\ F2Z (y + lo) <= F2Z (y + x) <= F2Z (y + hi).
Proof.
  intros Hlo Hhi Hy Hx Hb.
  pose proof (between_finite lo x hi Hlo Hhi Hx Hb) as Hfx.
  destruct (add_F2Z y x Hy Hfx) as [-> ?], (add_F2Z y lo Hy Hlo) as [-> _],
    (add_F2Z y hi Hy Hhi) as [-> _].
  split; [done |]. split; apply clamp_mono, rnds_mono; lia.
Qed.

Lemma sub_between lo x hi y :
  is_finite lo = true -> is_finite hi = true -> is_finite y = true ->
  is_nan x = false -> F2Z lo <= F2Z x <= F2Z hi ->
  is_nan (x - y) = false /\ F2Z (lo - y) <= F2Z (x - y) <= F2Z (hi - y).
Proof.
  intros Hlo Hhi Hy Hx Hb.
  pose proof (between_finite lo x hi Hlo Hhi Hx Hb) as Hfx.
  destruct (sub_F2Z x y Hfx Hy) as [-> ?], (sub_F2Z lo y Hlo Hy) as [-> _],
    (sub_F2Z hi y Hhi Hy) as [-> _].
  split; [done |]. split; apply clamp_mono, rnds_mono; lia.
Qed.

Lemma mul_between lo x hi c :
  is_finite lo = true -> is_finite hi = true -> is_finite c = true -> 0 <= F2Z c ->
  is_nan x = false -> F2Z lo <= F2Z x <= F2Z hi ->
  is_nan (x * c) = false /\ F2Z (lo * c) <= F2Z (x * c) <= F2Z (hi * c).
Proof.
  intros Hlo Hhi Hc Hpos Hx Hb.
  pose proof (between_finite lo x hi Hlo Hhi Hx Hb) as Hfx.
  destruct (mul_F2Z x c Hfx Hc) as [-> ?], (mul_F2Z lo c Hlo Hc) as [-> _],
    (mul_F2Z hi c Hhi Hc) as [-> _].
  split; [done |]. split; apply clamp_mono, rnds_mono; try lia; nia.
Qed.

Lemma between_positive lo x hi :
  is_finite lo = true -> is_finite hi = true -> PrimFloat.ltb 0 lo = true ->
  is_nan x = false -> F2Z lo <= F2Z x <= F2Z hi ->
  is_finite x = true /\ PrimFloat.ltb 0 x = true.
Proof.
  intros Hlo Hhi Hpos Hx Hb.
  split; [by apply (between_finite lo x hi) |].
  rewrite ltb_F2Z in Hpos |- * by (done || by apply finite_not_nan).
  apply Z.ltb_lt in Hpos. apply Z.ltb_lt. lia.
Qed.
End Interval.


(** ** Pearson correlation in exact arithmetic *)

Section CorrReal.
Local Open Scope R_scope.

(** One step of the second loop of [corr] keeps the Cauchy-Schwarz
    inequality between the three accumulators. *)
Lemma cauchy_schwarz_step (c va vb da db : R) :
  0 <= va -> 0 <= vb -> c * c <= va * vb ->
  0 <= va + da * da /\ 0 <= vb + db * db /\
  (c + da * db) * (c + da * db) <= (va + da * da) * (vb + db * db).
Proof.
  intros Hva Hvb Hc. repeat split; [nra | nra |].
  assert (Hx : 0 <= va * (db * db)) by nra.
  assert (Hy : 0 <= vb * (da * da)) by nra.
  assert (Ht : (c * (da * db)) * (c * (da * db)) <= (va * (db * db)) * (vb * (da * da))).
  { replace ((c * (da * db)) * (c * (da * db)))
      with ((c * c) * ((da * db) * (da * db))) by ring.
    replace ((va * (db * db)) * (vb * (da * da)))
      with ((va * vb) * ((da * db) * (da * db))) by ring.
    apply Rmult_le_compat_r; [nra | exact Hc]. }
  assert (H2 : 2 * (c * (da * db)) <= va * (db * db) + vb * (da * da)).
  { destruct (Rle_lt_dec (2 * (c * (da * db))) (va * (db * db) + vb * (da * da))) as [|Hlt];
      [assumption | exfalso].
    set (t := c * (da * db)) in *. set (x := va * (db * db)) in *.
    set (y := vb * (da * da)) in *. clearbody t x y.
    pose proof (Rle_0_sqr (x - y)) as Hsq. unfold Rsqr in Hsq.
    assert (0 < (2 * t - (x + y)) * (2 * t + (x + y)))
      by (apply Rmult_lt_0_compat; lra).
    nra. }
  nra.
Qed.

Lemma corr_fold_cauchy_schwarz (meanA meanB : R) (l : list (R * R)) (c va vb : R) :
  0 <= va -> 0 <= vb -> c * c <= va * vb ->
  match fold_left (corr_step meanA meanB) l (c, va, vb) with
  | (cov, varA, varB) => 0 <= varA /\ 0 <= varB /\ cov * cov <= varA * varB
  end.
Proof.
  revert c va vb. induction l as [|[x y] l IH]; intros c va vb Hva Hvb Hc; cbn.
  - auto.
  - destruct (cauchy_schwarz_step c va vb (x - meanA) (y - meanB)) as (? & ? & ?);
      [assumption.. |].
    by apply IH.
Qed.

Lemma abs_le_sqrt (c v : R) : 0 <= v -> c * c <= v -> - R_sqrt.sqrt v <= c <= R_sqrt.sqrt v.
Proof.
  intros Hv Hc.
  pose proof (sqrt_pos v) as Hs. pose proof (sqrt_sqrt v Hv) as Hss.
  split; nra.
Qed.
End CorrReal.

Section CorrConstant.
Local Open Scope R_scope.

(** A constant series: its mean is the constant, so every deviation and
    the variance accumulator are 0. *)
Lemma fold_mean_step_constant (c : R) (n : nat) (b : list R) (sA sB : R) :
  (fold_left mean_step (zip (replicate n c) b) (sA, sB)).1
  = sA + INR (Nat.min n (length b)) * c.
Proof.
  revert b sA sB. induction n as [|n IH]; intros [|y b] sA sB;
    try (cbn; lra).
  cbn [replicate zip_with fold_left mean_step length]. rewrite IH.
  rewrite Nat.min_comm. cbn [Nat.min]. rewrite Nat.min_comm.
  rewrite S_INR. real_ops. lra.
Qed.

Lemma fold_corr_step_constant (c mB : R) (n : nat) (b : list R) (cov vB : R) :
  exists vB', fold_left (corr_step c mB) (zip (replicate n c) b) (cov, 0, vB)
              = (cov, 0, vB').
Proof.
  revert b cov vB. induction n as [|n IH]; intros [|y b] cov vB;
    try (by eexists).
  cbn [replicate zip_with fold_left corr_step]. real_ops.
  replace (cov + (c - c) * (y - mB)) with cov by ring.
  replace (0 + (c - c) * (c - c)) with 0 by ring.
  apply IH.
Qed.

Lemma corr_constant (c : R) (n : nat) (b : list R) : corr (replicate n c) b = 0.
Proof.
  unfold corr. rewrite length_replicate.
  destruct (Nat.min n (length b) =? 0)%nat eqn:Hm; [reflexivity |].
  apply Nat.eqb_neq in Hm.
  pose proof (fold_mean_step_constant c n b (of_Z 0) (of_Z 0)) as Hmean.
  destruct (fold_left mean_step _ _) as [meanA meanB]. cbn [fst] in Hmean.
  assert (HmA : meanA /! of_nat (Nat.min n (length b)) = c).
  { rewrite Hmean, real_of_nat. real_ops. field. by apply not_0_INR. }
  rewrite HmA.
  destruct (fold_corr_step_constant c (meanB /! of_nat (Nat.min n (length b))) n b 0 0)
    as [vB' Hfold].
  real_ops. rewrite Hfold. rewrite Rmult_0_l, sqrt_0.
  by destruct (Req_dec_T 0 0).
Qed.
End CorrConstant.

(** C10.  In exact real arithmetic every value computed by [corr] lies in
    the closed interval from -1 to 1; the degenerate branches return 0: an
    empty overlap, and a zero denominator, as for a constant series. *)
Theorem corr_bounds (a b : list R) :
  (-1 <= corr a b <= 1)%R /\
  corr [] b = 0%R /\ corr a [] = 0%R /\
  (forall (c : R) (n : nat), corr (replicate n c) b = 0%R).
Proof.
  split; [| split; [reflexivity | split; [unfold corr; by rewrite Nat.min_0_r |]]];
    [| intros c n; apply corr_constant].
  unfold corr. destruct (_ =? 0)%nat; [real_ops; lra |].
  destruct (fold_left mean_step (zip a b) (of_Z 0, of_Z 0)) as [meanA meanB].
  set (mA := meanA /! _). set (mB := meanB /! _).
  pose proof (corr_fold_cauchy_schwarz mA mB (zip a b) 0 0 0) as Hinv.
  real_ops.
  destruct (fold_left _ (zip a b) (0%R, 0%R, 0%R)) as [[cov varA] varB].
  destruct Hinv as (HvA & HvB & Hcs); [lra | lra | lra |].
  destruct (Req_dec_T _ _) as [|Hne]; [lra |].
  assert (Hv : (0 <= varA * varB)%R) by nra.
  pose proof (abs_le_sqrt cov _ Hv Hcs) as [Hlo Hhi].
  pose proof (sqrt_pos (varA * varB)) as Hs.
  assert (Hpos : (0 < R_sqrt.sqrt (varA * varB))%R) by lra.
  split.
  - apply (Rmult_le_reg_r (R_sqrt.sqrt (varA * varB))); [exact Hpos |].
    unfold Rdiv. rewrite Rmult_assoc, Rinv_l by lra. lra.
  - apply (Rmult_le_reg_r (R_sqrt.sqrt (varA * varB))); [exact Hpos |].
    unfold Rdiv. rewrite Rmult_assoc, Rinv_l by lra. lra.
Qed.

(** ** Symmetry of the correlation matrices

    Exchanging the two series exchanges the roles of the accumulators and
    the factors of each product, so symmetry holds in every arithmetic
    whose multiplication is commutative. *)

Lemma entry_fmap2 {A B : Type} (g : A -> A -> B) (l : list A) (i j : nat) :
  entry ((fun x => (fun y => g x y) <$> l) <$> l) i j
  = x ← l !! i; y ← l !! j; Some (g x y).
Proof.
  unfold entry. rewrite list_lookup_fmap.
  destruct (l !! i) as [x|]; [cbn | reflexivity].
  rewrite list_lookup_fmap. by destruct (l !! j).
Qed.

Section Symmetry.
Context {T : Type} `{Number T}.
Hypothesis mul_comm : forall x y : T, x *! y = y *! x.

Lemma fold_mean_step_swap (a b : list T) (accA accB : T) :
  fold_left mean_step (zip b a) (accB, accA)
  = let '(meanA, meanB) := fold_left mean_step (zip a b) (accA, accB) in
    (meanB, meanA).
Proof.
  revert b accA accB. induction a as [|x a IH]; intros [|y b] accA accB; try reflexivity.
  cbn. apply IH.
Qed.

Lemma fold_corr_step_swap (mA mB : T) (a b : list T) (c va vb : T) :
  fold_left (corr_step mB mA) (zip b a) (c, vb, va)
  = let '(cov, varA, varB) := fold_left (corr_step mA mB) (zip a b) (c, va, vb) in
    (cov, varB, varA).
Proof.
  revert b c va vb. induction a as [|x a IH]; intros [|y b] c va vb; try reflexivity.
  cbn. rewrite (mul_comm (y -! mB) (x -! mA)). apply IH.
Qed.

Lemma corr_sym (a b : list T) : corr a b = corr b a.
Proof.
  unfold corr. rewrite (Nat.min_comm (length b) (length a)).
  destruct (_ =? 0)%nat; [reflexivity |].
  rewrite (fold_mean_step_swap a b).
  destruct (fold_left mean_step (zip a b) _) as [meanA meanB].
  rewrite (fold_corr_step_swap _ _ a b).
  destruct (fold_left (corr_step _ _) (zip a b) _) as [[cov varA] varB].
  by rewrite (mul_comm varB varA).
Qed.

Lemma corrMatrix_entry (returns : list (list T)) (i j : nat) :
  entry (corrMatrix returns) i j
  = a ← returns !! i; b ← returns !! j; Some (corr a b).
Proof. apply entry_fmap2. Qed.

Lemma corrMatrix_sym (returns : list (list T)) (i j : nat) :
  entry (corrMatrix returns) i j = entry (corrMatrix returns) j i.
Proof.
  rewrite !corrMatrix_entry.
  destruct (returns !! i) as [a|], (returns !! j) as [b|]; cbn; try reflexivity.
  by rewrite corr_sym.
Qed.

Lemma cov_step_sym (di dj : list T) (mi mj : T) (cov : option T) (k : nat) :
  cov_step di dj mi mj cov k = cov_step dj di mj mi cov k.
Proof.
  unfold cov_step. destruct cov as [c|]; [cbn | reflexivity].
  destruct (di !! k) as [x|], (dj !! k) as [y|]; cbn; try reflexivity.
  by rewrite (mul_comm (x -! mi) (y -! mj)).
Qed.

Lemma cov_loop_sym (n : nat) (di dj : list T) (mi mj : T) :
  cov_loop n di dj mi mj = cov_loop n dj di mj mi.
Proof.
  unfold cov_loop. generalize (Some (of_Z 0)) as acc.
  induction (seq 0 n) as [|k ks IH]; intros acc; [reflexivity |].
  cbn. rewrite cov_step_sym. apply IH.
Qed.

Lemma matrix_entry_sym (n : nat) (di dj : list T) :
  matrix_entry n di dj = matrix_entry n dj di.
Proof.
  unfold matrix_entry. rewrite cov_loop_sym.
  by rewrite (mul_comm (row_std n dj) (row_std n di)).
Qed.

Lemma correlationMatrix_entry (data : list (list T)) (M : list (list (option T)))
    (i j : nat) :
  correlationMatrix data = Some M ->
  entry M i j
  = d0 ← head data; di ← data !! i; dj ← data !! j;
    Some (matrix_entry (length d0) di dj).
Proof.
  destruct data as [|d0 data']; [discriminate |].
  intros HM.
  assert (M = (fun di => (fun dj => matrix_entry (length d0) di dj) <$> (d0 :: data'))
                <$> (d0 :: data')) as ->
    by (unfold correlationMatrix in HM; congruence).
  apply entry_fmap2.
Qed.

Lemma correlationMatrix_sym (data : list (list T)) (M : list (list (option T)))
    (i j : nat) :
  correlationMatrix data = Some M -> entry M i j = entry M j i.
Proof.
  intros HM. rewrite !(correlationMatrix_entry data M) by exact HM.
  destruct (head data) as [d0|]; [cbn | reflexivity].
  destruct (data !! i) as [di|], (data !! j) as [dj|]; cbn; try reflexivity.
  by rewrite matrix_entry_sym.
Qed.
End Symmetry.

(** ** The diagonal in exact arithmetic *)

Section Diagonal.
Context {T : Type} `{Number T}.

Lemma fold_mean_step_diag (a : list T) (c : T) :
  fold_left mean_step (zip a a) (c, c)
  = (fold_left (fun a b => a +! b) a c, fold_left (fun a b => a +! b) a c).
Proof. revert c. induction a as [|x a IH]; intros c; [reflexivity | apply IH]. Qed.

Lemma fold_corr_step_diag (m : T) (a : list T) (c : T) :
  let s := fold_left (fun sum r => sum +! pow2 (r -! m)) a c in
  fold_left (corr_step m m) (zip a a) (c, c, c) = (s, s, s).
Proof. revert c. induction a as [|x a IH]; intros c; [reflexivity | apply IH]. Qed.

Lemma cov_loop_take (k : nat) (di dj : list T) (mi mj c : T) :
  (k <= length di)%nat -> (k <= length dj)%nat ->
  fold_left (cov_step di dj mi mj) (seq 0 k) (Some c)
  = Some (fold_left (cov_pair mi mj) (zip (take k di) (take k dj)) c).
Proof.
  induction k as [|k IH]; intros Hi Hj; [reflexivity |].
  rewrite seq_S, fold_left_app, IH by lia. cbn.
  destruct (lookup_lt_is_Some_2 di k) as [x Hx]; [lia |].
  destruct (lookup_lt_is_Some_2 dj k) as [y Hy]; [lia |].
  rewrite Hx, Hy. cbn.
  rewrite (take_S_r di k x), (take_S_r dj k y) by assumption.
  rewrite zip_with_app by (rewrite !length_take; lia).
  by rewrite fold_left_app.
Qed.

Lemma fold_cov_pair_diag (m : T) (d : list T) (c : T) :
  fold_left (cov_pair m m) (zip d d) c
  = fold_left (fun sum x => sum +! pow2 (x -! m)) d c.
Proof. revert c. induction d as [|x d IH]; intros c; [reflexivity | apply IH]. Qed.

Lemma cov_loop_diag (d : list T) (m : T) :
  cov_loop (length d) d d m m
  = Some (fold_left (fun sum x => sum +! pow2 (x -! m)) d (of_Z 0)).
Proof.
  unfold cov_loop. rewrite cov_loop_take by lia.
  by rewrite firstn_all, fold_cov_pair_diag.
Qed.
End Diagonal.

Section DiagonalReal.
Local Open Scope R_scope.

Lemma sum_squares_nonneg (m : R) (a : list R) (c : R) :
  0 <= c -> 0 <= fold_left (fun sum r => sum +! pow2 (r -! m)) a c.
Proof.
  revert c. induction a as [|x a IH]; intros c Hc; [exact Hc |].
  cbn. apply IH. unfold pow2. real_ops.
  pose proof (Rle_0_sqr (x - m)) as Hsq. unfold Rsqr in Hsq. lra.
Qed.

Lemma ratio_sqrt_square (s : R) :
  0 <= s -> s <> 0 ->
  (if R_sqrt.sqrt (s * s) =?! 0 then 0 else s / R_sqrt.sqrt (s * s)) = 1.
Proof.
  intros Hs Hne. rewrite sqrt_square by exact Hs. real_ops.
  destruct (Req_dec_T s 0); [contradiction | by field].
Qed.

Lemma corr_diag (a : list R) :
  PortfolioAnalytics.variance a <> 0 -> corr a a = 1.
Proof.
  intros Hvar. unfold corr. rewrite Nat.min_id. cbv zeta.
  destruct (length a =? 0)%nat eqn:Hn.
  { apply Nat.eqb_eq in Hn. destruct a as [|x a]; [| discriminate Hn].
    exfalso. apply Hvar. unfold PortfolioAnalytics.variance. cbn.
    unfold Rdiv. ring. }
  rewrite fold_mean_step_diag, fold_corr_step_diag.
  fold (PortfolioAnalytics.meanReturn a).
  unfold PortfolioAnalytics.variance in Hvar.
  set (m := PortfolioAnalytics.meanReturn a) in *.
  pose proof (sum_squares_nonneg m a 0 (Rle_refl 0)) as Hs.
  set (s := fold_left _ a _) in *.
  apply ratio_sqrt_square; [exact Hs |].
  intros ->. apply Hvar. real_ops. unfold Rdiv. ring.
Qed.

Lemma matrix_entry_diag (d : list R) :
  PortfolioAnalytics.variance d <> 0 -> matrix_entry (length d) d d = Some 1.
Proof.
  intros Hvar. unfold matrix_entry. rewrite cov_loop_diag. cbn [mbind option_bind].
  unfold row_std. f_equal.
  unfold PortfolioAnalytics.variance in Hvar.
  change (PortfolioAnalytics.meanReturn d) with (row_mean (length d) d) in Hvar.
  pose proof (sum_squares_nonneg (row_mean (length d) d) d 0 (Rle_refl 0)) as Hs.
  set (s := fold_left _ d _) in *. real_ops.
  assert (Hv : 0 <= s / of_nat (length d)).
  { rewrite real_of_nat. destruct (length d) as [|n].
    - cbn. unfold Rdiv. rewrite Rinv_0. lra.
    - apply Rmult_le_pos; [exact Hs |]. left. apply Rinv_0_lt_compat.
      apply lt_0_INR. lia. }
  set (v := s / of_nat (length d)) in *. clearbody v.
  rewrite sqrt_sqrt by exact Hv. by field.
Qed.
End DiagonalReal.

(** ** C7: the correlation matrices *)

Lemma float_eqb_refl (x : float) : (x =?! x) = negb (isNaN x).
Proof. cbn. unfold is_nan. by destruct (PrimFloat.eqb x x). Qed.

Lemma real_eqb_refl (x : R) : (x =?! x) = true.
Proof. by apply real_eqb_true. Qed.

(** C7, as written, fails on the code.  The diagonal: on the sixty
    returns that the dashboard draws for each of its three default
    symbols from [draws], the first series has a variance that is not 0,
    and [correlationMatrix], which divides the covariance by the product
    of two rounded square roots, gives it the diagonal entry
    0.99999999999999989.  Symmetry: a close of 0 in the middle of a series
    gives an infinite return; the entries of its row and column in the
    matrix of [renderPortfolioCorrelation] are NaN, the diagonal
    included, and NaN == NaN is false. *)
Lemma correlationMatrix_diagonal_rounding :
  (let data := assetReturns draws [None; None; None] in
   exists (d : list float) (M : list (list (option float))),
     data !! 0%nat = Some d /\
     (PortfolioAnalytics.variance d =?! of_Z 0) = false /\
     correlationMatrix data = Some M /\
     entry M 0 0 = Some (Some 0x1.fffffffffffffp-1%float) /\
     (0x1.fffffffffffffp-1 =?! of_Z 1)%float = false) /\
  (let datasets := [normalized (Some <$> [100; 0; 50; 20]%float);
                    normalized (Some <$> [100; 101; 103; 99]%float)] in
   let M := returnsMatrix datasets in
   exists x y d : float,
     entry M 0 1 = Some x /\ entry M 1 0 = Some y /\ (x =?! y) = false /\
     entry M 0 0 = Some d /\ (d =?! of_Z 1) = false /\
     (PortfolioAnalytics.variance [(-1)%float; infinity; decimal (-6) 1] =?! of_Z 0) = false /\
     toReturns <$> datasets
     = [[(-1)%float; infinity; decimal (-6) 1];
        [decimal 1 2; 0x1.446f86562d9fbp-6; -0x1.3e22cbce4a902p-5]%float]).
Proof.
  split.
  - do 2 eexists. vm_compute. repeat split; reflexivity.
  - exists nan, nan, nan. vm_compute. repeat split; reflexivity.
Qed.

(** C7, amended.  In both correlation matrices M[i][j] and M[j][i] are
    the same value for every input, in binary64 and in exact arithmetic,
    so that M[i][j] == M[j][i] holds for every entry that is not NaN, and
    for no entry that is.  In exact real arithmetic the diagonal entry of
    a series with non-zero variance is 1, for [corr] on any input and for
    [correlationMatrix] on rows of one length. *)
Theorem correlation_matrix_symmetric_unit_diagonal :
  (forall (returns : list (list float)) (i j : nat),
      entry (corrMatrix returns) i j = entry (corrMatrix returns) j i) /\
  (forall (returns : list (list float)) (i j : nat) (x y : float),
      entry (corrMatrix returns) i j = Some x -> entry (corrMatrix returns) j i = Some y ->
      (x =?! y) = negb (isNaN x)) /\
  (forall (data : list (list float)) M (i j : nat),
      correlationMatrix data = Some M -> entry M i j = entry M j i) /\
  (forall (data : list (list float)) M (i j : nat) (x y : option float),
      correlationMatrix data = Some M ->
      entry M i j = Some x -> entry M j i = Some y ->
      entry_eqb x y = match x with Some x => negb (isNaN x) | None => false end) /\
  (forall (returns : list (list R)) (i j : nat) (x y : R),
      entry (corrMatrix returns) i j = Some x -> entry (corrMatrix returns) j i = Some y ->
      (x =?! y) = true) /\
  (forall (data : list (list R)) M (i j : nat) (x y : option R),
      correlationMatrix data = Some M ->
      entry M i j = Some x -> entry M j i = Some y -> x = y) /\
  (forall (returns : list (list R)) (i : nat) (a : list R),
      returns !! i = Some a -> PortfolioAnalytics.variance a <> 0%R ->
      entry (corrMatrix returns) i i = Some 1%R) /\
  (forall (data : list (list R)) M (i : nat) (d : list R),
      correlationMatrix data = Some M ->
      Forall (fun row => length row = length d) data ->
      data !! i = Some d -> PortfolioAnalytics.variance d <> 0%R ->
      entry M i i = Some (Some 1%R)).
Proof.
  split; [intros; apply corrMatrix_sym, float_mul_comm |].
  split.
  { intros returns i j x y Hx Hy.
    rewrite (corrMatrix_sym float_mul_comm returns i j), Hy in Hx.
    injection Hx as <-. apply float_eqb_refl. }
  split; [intros; by eapply correlationMatrix_sym; [apply float_mul_comm |] |].
  split.
  { intros data M i j x y HM Hx Hy.
    rewrite (correlationMatrix_sym float_mul_comm data M i j HM), Hy in Hx.
    injection Hx as <-. destruct y as [y |]; [apply float_eqb_refl | reflexivity]. }
  split.
  { intros returns i j x y Hx Hy.
    rewrite (corrMatrix_sym real_mul_comm returns i j), Hy in Hx.
    injection Hx as <-. apply real_eqb_refl. }
  split.
  { intros data M i j x y HM Hx Hy.
    rewrite (correlationMatrix_sym real_mul_comm data M i j HM), Hy in Hx. congruence. }
  split.
  - intros returns i a Hi Hvar.
    rewrite corrMatrix_entry, Hi. cbn. by rewrite corr_diag.
  - intros data M i d HM Hlen Hi Hvar.
    rewrite (correlationMatrix_entry data M i i HM), Hi.
    destruct data as [|d0 data']; [discriminate |]. cbn.
    apply Forall_cons in Hlen as [-> _]. by rewrite matrix_entry_diag.
Qed.

Lemma correlation_matrix_symmetric_unit_diagonal_witness :
  (exists x y : float,
     entry (corrMatrix [[1; 2; 4]; [2; 5; 3]]%float) 0 1 = Some x /\
     entry (corrMatrix [[1; 2; 4]; [2; 5; 3]]%float) 1 0 = Some y /\
     isNaN x = false /\ (x =?! y) = true) /\
  entry (corrMatrix [[1; 2]; [2; 5]]%R) 0 0 = Some 1%R /\
  exists M, correlationMatrix [[1; 2]; [2; 5]]%R = Some M /\
            entry M 0 0 = Some (Some 1%R).
Proof.
  assert (Hvar : PortfolioAnalytics.variance [1; 2]%R <> 0%R).
  { unfold PortfolioAnalytics.variance, PortfolioAnalytics.meanReturn, pow2.
    cbn. change (Z.of_nat 2) with 2%Z. lra. }
  destruct correlation_matrix_symmetric_unit_diagonal
    as (_ & Heq & _ & _ & _ & _ & Hcorr & Hmat).
  split; [| split].
  - do 2 eexists. split; [reflexivity |]. split; [reflexivity |].
    split; [reflexivity |].
    rewrite (Heq [[1; 2; 4]; [2; 5; 3]]%float 0%nat 1%nat _ _ eq_refl eq_refl). reflexivity.
  - exact (Hcorr [[1; 2]; [2; 5]]%R 0%nat [1; 2]%R eq_refl Hvar).
  - eexists. split; [reflexivity |].
    apply (Hmat [[1; 2]; [2; 5]]%R _ 0%nat [1; 2]%R eq_refl); [| reflexivity | exact Hvar].
    repeat constructor.
Defined.

(** ** Sorting, and historical Value-at-Risk *)

Section SortFacts.
Context {A : Type} (gt : A -> A -> bool).

Lemma sort_insert_perm (x : A) (l : list A) : sort_insert gt x l ≡ₚ x :: l.
Proof.
  induction l as [|y l IH]; cbn; [reflexivity |].
  destruct (gt x y); [| reflexivity].
  rewrite IH. apply Permutation_swap.
Qed.

Lemma js_sort_perm (l : list A) : js_sort gt l ≡ₚ l.
Proof.
  induction l as [|x l IH]; cbn; [reflexivity |].
  by rewrite sort_insert_perm, IH.
Qed.

Lemma js_sort_length (l : list A) : length (js_sort gt l) = length l.
Proof. by rewrite js_sort_perm. Qed.
End SortFacts.

Section VaRReal.
Local Open Scope R_scope.
Local Abbreviation by_difference := (PortfolioAnalytics.by_difference (T := R)).

Lemma by_difference_true (a b : R) : by_difference a b = true -> b <= a.
Proof. unfold PortfolioAnalytics.by_difference, num_gtb. rewrite real_ltb_true. real_ops. lra. Qed.

Lemma by_difference_false (a b : R) : by_difference a b = false -> a <= b.
Proof.
  unfold PortfolioAnalytics.by_difference, num_gtb. intros Hf.
  destruct (Rle_lt_dec a b) as [|Hlt]; [assumption | exfalso].
  assert (Ht : (of_Z 0 <?! a -! b) = true) by (apply real_ltb_true; real_ops; lra).
  congruence.
Qed.

Lemma sort_insert_sorted (x : R) (l : list R) :
  StronglySorted Rle l -> StronglySorted Rle (sort_insert by_difference x l).
Proof.
  induction 1 as [|y l Hl IH Hy]; cbn [sort_insert]; [repeat constructor |].
  destruct (by_difference x y) eqn:Hxy.
  - apply by_difference_true in Hxy. constructor; [exact IH |].
    rewrite sort_insert_perm. by constructor.
  - apply by_difference_false in Hxy. constructor; [by constructor |].
    constructor; [exact Hxy |].
    eapply Forall_impl; [exact Hy |]. intros z Hz. cbn in Hz. lra.
Qed.

Lemma sortedReturns_sorted (l : list R) :
  StronglySorted Rle (PortfolioAnalytics.sortedReturns l).
Proof.
  unfold PortfolioAnalytics.sortedReturns.
  induction l as [|x l IH]; cbn [js_sort foldr]; [constructor |].
  by apply sort_insert_sorted.
Qed.

Lemma sorted_lookup_le (l : list R) (i j : nat) (x y : R) :
  StronglySorted Rle l -> (i <= j)%nat ->
  l !! i = Some x -> l !! j = Some y -> x <= y.
Proof.
  intros Hl. revert i j. induction Hl as [|z l Hl IH Hz]; intros i j Hij Hi Hj;
    [by rewrite lookup_nil in Hi |].
  destruct i as [|i], j as [|j]; cbn in Hi, Hj; try lia.
  - injection Hi as <-. injection Hj as <-. lra.
  - injection Hi as <-. rewrite Forall_forall in Hz.
    apply Hz. by eapply list_elem_of_lookup_2.
  - apply (IH i j); [lia | assumption..].
Qed.

Lemma Int_part_le (x y : R) : x <= y -> (Int_part x <= Int_part y)%Z.
Proof.
  intros Hxy.
  destruct (base_Int_part x) as [Hx _], (base_Int_part y) as [_ Hy].
  assert (Hlt : IZR (Int_part x) < IZR (Int_part y + 1)) by (rewrite plus_IZR; lra).
  apply lt_IZR in Hlt. lia.
Qed.

Lemma Int_part_index (n : nat) (p : R) :
  0 <= p < 1 -> (0 < n)%nat ->
  (0 <= Int_part (INR n * p))%Z /\ (Z.to_nat (Int_part (INR n * p)) < n)%nat.
Proof.
  intros [Hp0 Hp1] Hn.
  assert (HINR : 0 < INR n) by (apply lt_0_INR; lia).
  assert (H0 : (Int_part 0 <= Int_part (INR n * p))%Z) by (apply Int_part_le; nra).
  change 0 with (INR 0) in H0 at 1. rewrite Int_part_INR in H0.
  split; [exact H0 |].
  destruct (base_Int_part (INR n * p)) as [Hle _].
  assert (Hlt : IZR (Int_part (INR n * p)) < IZR (Z.of_nat n))
    by (rewrite <- INR_IZR_INZ; nra).
  apply lt_IZR in Hlt. lia.
Qed.

Lemma VaR_real (p : R) (l : list R) :
  0 <= p < 1 -> l <> [] ->
  exists x,
    PortfolioAnalytics.sortedReturns l !! Z.to_nat (Int_part (INR (length l) * p)) = Some x /\
    PortfolioAnalytics.VaR p l = Some (- x * 100).
Proof.
  intros Hp Hl.
  assert (Hn : (0 < length l)%nat) by (destruct l; [done | cbn; lia]).
  destruct (Int_part_index (length l) p Hp Hn) as [H0 Hlt].
  assert (Hlen : length (PortfolioAnalytics.sortedReturns l) = length l)
    by apply js_sort_length.
  destruct (lookup_lt_is_Some_2 (PortfolioAnalytics.sortedReturns l)
              (Z.to_nat (Int_part (INR (length l) * p)))) as [x Hx]; [lia |].
  exists x. split; [exact Hx |].
  unfold PortfolioAnalytics.VaR, PortfolioAnalytics.idx. cbv zeta.
  rewrite Hlen, real_of_nat. real_ops.
  apply Z.leb_le in H0. rewrite H0. cbn. by rewrite Hx.
Qed.
End VaRReal.

Section VaRBinary64.
Local Open Scope Z_scope.
Local Abbreviation number := (fun x : float => isNaN x = false).
Local Abbreviation fle := (fun a b : float => PrimFloat.leb a b = true).

Lemma leb_number (a b : float) :
  is_nan a = false -> is_nan b = false -> PrimFloat.leb a b = true <-> F2Z a <= F2Z b.
Proof. intros Ha Hb. rewrite leb_F2Z by done. apply Z.leb_le. Qed.

Lemma by_difference_number (a b : float) :
  is_nan a = false -> is_nan b = false ->
  PortfolioAnalytics.by_difference a b = (F2Z b <? F2Z a).
Proof.
  intros Ha Hb. unfold PortfolioAnalytics.by_difference, num_gtb. by apply sub_pos_not_nan.
Qed.

Lemma sort_insert_sorted_number (x : float) (l : list float) :
  is_nan x = false -> Forall number l ->
  StronglySorted fle l ->
  StronglySorted fle (sort_insert PortfolioAnalytics.by_difference x l).
Proof.
  intros Hx Hl Hs. induction Hs as [|y l Hs IH Hy]; cbn [sort_insert]; [repeat constructor |].
  apply Forall_cons in Hl as [Hfy Hl]. cbn in Hfy.
  rewrite by_difference_number by done.
  destruct (Z.ltb_spec (F2Z y) (F2Z x)) as [Hxy|Hxy].
  - constructor; [by apply IH |]. rewrite sort_insert_perm.
    constructor; [| exact Hy]. apply leb_number; [done.. | lia].
  - constructor; [by constructor |].
    constructor; [by apply leb_number |].
    rewrite Forall_forall in Hy, Hl |- *. intros z Hz.
    pose proof (proj1 (leb_number y z Hfy (Hl z Hz)) (Hy z Hz)).
    apply leb_number; [done | by apply Hl | lia].
Qed.

Lemma sortedReturns_sorted_number (l : list float) :
  Forall number l -> StronglySorted fle (PortfolioAnalytics.sortedReturns l).
Proof.
  unfold PortfolioAnalytics.sortedReturns.
  induction 1 as [|x l Hx Hl IH]; [constructor |].
  change (js_sort _ (x :: l))
    with (sort_insert PortfolioAnalytics.by_difference x
            (js_sort PortfolioAnalytics.by_difference l)).
  apply sort_insert_sorted_number; [done | | done].
  by rewrite (js_sort_perm PortfolioAnalytics.by_difference l).
Qed.

Lemma sorted_lookup_float (l : list float) (i j : nat) (x y : float) :
  StronglySorted fle l -> (i < j)%nat ->
  l !! i = Some x -> l !! j = Some y -> PrimFloat.leb x y = true.
Proof.
  intros Hl. revert i j. induction Hl as [|z l Hl IH Hz]; intros i j Hij Hi Hj;
    [by rewrite lookup_nil in Hi |].
  destruct i as [|i], j as [|j]; cbn in Hi, Hj; try lia.
  - injection Hi as <-. rewrite Forall_forall in Hz.
    apply Hz. by eapply list_elem_of_lookup_2.
  - apply (IH i j); [lia | assumption..].
Qed.

Lemma sorted_lookup_number (l : list float) (i j : nat) (x y : float) :
  StronglySorted fle l -> Forall number l -> (i <= j)%nat ->
  l !! i = Some x -> l !! j = Some y -> PrimFloat.leb x y = true.
Proof.
  intros Hl Hn Hij Hi Hj. destruct (decide (i = j)) as [->|Hne].
  - assert (x = y) as <- by congruence.
    assert (is_nan x = false).
    { rewrite Forall_forall in Hn. apply Hn. by eapply list_elem_of_lookup_2. }
    apply leb_number; [done.. | lia].
  - apply (sorted_lookup_float l i j); [done | lia | done..].
Qed.

Lemma idx_float (c : float) (D : nat) (l : list float) :
  is_finite c = true -> (0 < D <= 100)%nat ->
  2 ^ 1074 <= Z.of_nat D * F2Z c <= 2 ^ 1074 + 2 ^ 1022 ->
  Z.of_nat (length l) < 2 ^ 32 ->
  PortfolioAnalytics.idx c l = Some (length l / D)%nat.
Proof.
  intros Hc HD HC Hn. unfold PortfolioAnalytics.idx.
  rewrite (floor_mul_const c (Z.of_nat D)) by (done || lia).
  rewrite <- Nat2Z.inj_div.
  destruct (Z.leb_spec 0 (Z.of_nat (length l / D))); [| lia].
  by rewrite Nat2Z.id.
Qed.

Lemma decimal_5_2_F2Z :
  is_finite (decimal (T := float) 5 2) = true /\
  2 ^ 1074 <= 20 * F2Z (decimal 5 2) <= 2 ^ 1074 + 2 ^ 1022.
Proof.
  split; [reflexivity |].
  split; apply Z.leb_le; vm_compute; reflexivity.
Qed.

Lemma decimal_1_2_F2Z :
  is_finite (decimal (T := float) 1 2) = true /\
  2 ^ 1074 <= 100 * F2Z (decimal 1 2) <= 2 ^ 1074 + 2 ^ 1022.
Proof.
  split; [reflexivity |].
  split; apply Z.leb_le; vm_compute; reflexivity.
Qed.

(** Negation and the scaling to percent reverse the order. *)
Lemma percent_loss_antitone (x y : float) :
  is_nan x = false -> is_nan y = false -> PrimFloat.leb x y = true ->
  PrimFloat.leb (num_neg y *! of_Z 100) (num_neg x *! of_Z 100) = true.
Proof.
  intros Hx Hy Hxy. apply leb_number in Hxy; [| done..].
  cbn [num_neg num_mul of_Z float_number].
  assert (H100 : is_finite (F64.of_Z 100) = true) by reflexivity.
  assert (Hpos : 2 ^ 1072 <= F2Z (F64.of_Z 100)) by (apply Z.leb_le; vm_compute; reflexivity).
  assert (0 < 2 ^ 1072) by (apply two_pow_pos; lia).
  destruct (mul_const_F2Z (- x) (F64.of_Z 100)) as [Hvx Hnx]; [by rewrite opp_nan | done..|].
  destruct (mul_const_F2Z (- y) (F64.of_Z 100)) as [Hvy Hny]; [by rewrite opp_nan | done..|].
  rewrite leb_F2Z by done. apply Z.leb_le. rewrite Hvx, Hvy, !opp_F2Z.
  apply clamp_mono, rnds_mono; [lia |]. nia.
Qed.

Lemma var99_ge_var95_float (l : list float) :
  l <> [] -> Z.of_nat (length l) < 2 ^ 32 -> Forall number l ->
  let sorted := PortfolioAnalytics.sortedReturns l in
  sorted ≡ₚ l /\ StronglySorted fle sorted /\
  PortfolioAnalytics.idx (decimal 1 2) sorted = Some (length l / 100)%nat /\
  PortfolioAnalytics.idx (decimal 5 2) sorted = Some (length l / 20)%nat /\
  exists x99 x95 : float,
    sorted !! (length l / 100)%nat = Some x99 /\
    sorted !! (length l / 20)%nat = Some x95 /\
    PortfolioAnalytics.var99 l = Some (num_neg x99 *! of_Z 100) /\
    PortfolioAnalytics.var95 l = Some (num_neg x95 *! of_Z 100) /\
    PrimFloat.leb (num_neg x95 *! of_Z 100) (num_neg x99 *! of_Z 100) = true.
Proof.
  intros Hl Hlen Hnum sorted.
  assert (Hperm : sorted ≡ₚ l) by apply js_sort_perm.
  assert (Hslen : length sorted = length l) by (by rewrite Hperm).
  assert (Hsnum : Forall number sorted) by (by rewrite Hperm).
  pose proof (sortedReturns_sorted_number l Hnum) as Hsorted. fold sorted in Hsorted.
  destruct decimal_1_2_F2Z as [Hf1 HC1], decimal_5_2_F2Z as [Hf5 HC5].
  assert (Hi99 : PortfolioAnalytics.idx (decimal 1 2) sorted = Some (length l / 100)%nat).
  { rewrite <- Hslen. apply idx_float; [done | lia | exact HC1 | by rewrite Hslen]. }
  assert (Hi95 : PortfolioAnalytics.idx (decimal 5 2) sorted = Some (length l / 20)%nat).
  { rewrite <- Hslen. apply idx_float; [done | lia | exact HC5 | by rewrite Hslen]. }
  assert (Hn : (0 < length l)%nat) by (destruct l; [done | cbn; lia]).
  assert (H20 : (length l / 20 < length l)%nat) by (apply Nat.div_lt; lia).
  assert (H100 : (length l / 100 <= length l / 20)%nat).
  { apply Nat.div_le_compat_l. lia. }
  destruct (lookup_lt_is_Some_2 sorted (length l / 100)%nat) as [x99 H99]; [lia |].
  destruct (lookup_lt_is_Some_2 sorted (length l / 20)%nat) as [x95 H95]; [lia |].
  split; [exact Hperm |]. split; [exact Hsorted |].
  split; [exact Hi99 |]. split; [exact Hi95 |].
  exists x99, x95. split; [exact H99 |]. split; [exact H95 |].
  split; [| split].
  - unfold PortfolioAnalytics.var99, PortfolioAnalytics.VaR. cbv zeta. fold sorted.
    rewrite Hi99. cbn [mbind option_bind]. by rewrite H99.
  - unfold PortfolioAnalytics.var95, PortfolioAnalytics.VaR. cbv zeta. fold sorted.
    rewrite Hi95. cbn [mbind option_bind]. by rewrite H95.
  - pose proof (proj1 (Forall_forall _ _) Hsnum) as Hall.
    apply percent_loss_antitone.
    + apply Hall. by eapply list_elem_of_lookup_2.
    + apply Hall. by eapply list_elem_of_lookup_2.
    + by apply (sorted_lookup_number sorted (length l / 100) (length l / 20)).
Qed.
End VaRBinary64.

Lemma var99_ge_var95_real (l : list R) :
  l <> [] ->
  let sorted := PortfolioAnalytics.sortedReturns l in
  StronglySorted Rle sorted /\ sorted ≡ₚ l /\
  exists x99 x95 : R,
    sorted !! Z.to_nat (Int_part (INR (length l) * (1 / 100))) = Some x99 /\
    sorted !! Z.to_nat (Int_part (INR (length l) * (5 / 100))) = Some x95 /\
    PortfolioAnalytics.var99 l = Some (- x99 * 100)%R /\
    PortfolioAnalytics.var95 l = Some (- x95 * 100)%R /\
    (- x99 * 100 >= - x95 * 100)%R.
Proof.
  intros Hl sorted.
  pose proof (sortedReturns_sorted l) as Hsorted.
  split; [exact Hsorted |]. split; [apply js_sort_perm |].
  destruct (VaR_real (1 / 100) l) as (x99 & H99 & Hv99); [lra | exact Hl |].
  destruct (VaR_real (5 / 100) l) as (x95 & H95 & Hv95); [lra | exact Hl |].
  exists x99, x95. repeat split; try assumption.
  assert (Hle : (x99 <= x95)%R).
  { eapply (sorted_lookup_le _ _ _ x99 x95 Hsorted); [| exact H99 | exact H95].
    apply Z2Nat.inj_le.
    - apply Int_part_index; [lra | destruct l; [done | cbn; lia]].
    - apply Int_part_index; [lra | destruct l; [done | cbn; lia]].
    - apply Int_part_le. pose proof (pos_INR (length l)). lra. }
  lra.
Qed.

(** C6, as written, fails on the code.  When [Math.random()] returns 0
    for the three weights of the default symbols, every weight is 0/0 and
    every return of the portfolio is NaN: both figures are NaN, and
    NaN >= NaN is false. *)
Lemma var99_ge_var95_fails_on_nan :
  let portfolioReturns := syntheticReturns zero_weights [None; None; None] in
  length portfolioReturns = 60%nat /\
  PortfolioAnalytics.var99 portfolioReturns = Some nan /\
  PortfolioAnalytics.var95 portfolioReturns = Some nan /\
  PrimFloat.leb nan nan = false.
Proof. vm_compute. repeat split; reflexivity. Qed.

(** C6, amended.  VaR(p), for p = 0.05 and p = 0.01, negates the element
    at index floor(n * p) of the series sorted in ascending order, and
    reports it in percent.  In binary64, for every series of n >= 1
    returns without NaN (an array holds fewer than 2^32), the sort is
    ascending, the two indices are n / 100 and n / 20 rounded down, within
    the array, and VaR(0.01) >= VaR(0.05); and so it is in exact real
    arithmetic. *)
Theorem var99_ge_var95 :
  (forall l : list float,
      l <> [] -> (Z.of_nat (length l) < 2 ^ 32)%Z -> Forall (fun x => isNaN x = false) l ->
      let sorted := PortfolioAnalytics.sortedReturns l in
      sorted ≡ₚ l /\
      StronglySorted (fun a b => PrimFloat.leb a b = true) sorted /\
      PortfolioAnalytics.idx (decimal 1 2) sorted = Some (length l / 100)%nat /\
      PortfolioAnalytics.idx (decimal 5 2) sorted = Some (length l / 20)%nat /\
      exists x99 x95 : float,
        sorted !! (length l / 100)%nat = Some x99 /\
        sorted !! (length l / 20)%nat = Some x95 /\
        PortfolioAnalytics.var99 l = Some (num_neg x99 *! of_Z 100) /\
        PortfolioAnalytics.var95 l = Some (num_neg x95 *! of_Z 100) /\
        PrimFloat.leb (num_neg x95 *! of_Z 100) (num_neg x99 *! of_Z 100) = true) /\
  (forall l : list R,
      l <> [] ->
      let sorted := PortfolioAnalytics.sortedReturns l in
      StronglySorted Rle sorted /\ sorted ≡ₚ l /\
      exists x99 x95 : R,
        sorted !! Z.to_nat (Int_part (INR (length l) * (1 / 100))) = Some x99 /\
        sorted !! Z.to_nat (Int_part (INR (length l) * (5 / 100))) = Some x95 /\
        PortfolioAnalytics.var99 l = Some (- x99 * 100)%R /\
        PortfolioAnalytics.var95 l = Some (- x95 * 100)%R /\
        (- x99 * 100 >= - x95 * 100)%R).
Proof. split; [exact var99_ge_var95_float | exact var99_ge_var95_real]. Qed.

(** The sixty returns of the dashboard for the draws of [draws]: the
    indices are 0 and 3, and the two returns differ. *)
Lemma var99_ge_var95_witness :
  let portfolioReturns := syntheticReturns draws [None; None; None] in
  exists x99 x95 : float,
    PortfolioAnalytics.sortedReturns portfolioReturns !! 0%nat = Some x99 /\
    PortfolioAnalytics.sortedReturns portfolioReturns !! 3%nat = Some x95 /\
    PrimFloat.ltb x99 x95 = true /\
    PortfolioAnalytics.var99 portfolioReturns = Some (num_neg x99 *! of_Z 100) /\
    PortfolioAnalytics.var95 portfolioReturns = Some (num_neg x95 *! of_Z 100) /\
    PrimFloat.leb (num_neg x95 *! of_Z 100) (num_neg x99 *! of_Z 100) = true.
Proof.
  intros portfolioReturns.
  assert (Hnum : Forall (fun x : float => isNaN x = false) portfolioReturns)
    by (vm_compute; repeat constructor).
  destruct (proj1 var99_ge_var95 portfolioReturns)
    as (_ & _ & _ & _ & x99 & x95 & H99 & H95 & Hv99 & Hv95 & Hle);
    [discriminate | vm_compute; reflexivity | exact Hnum |].
  exists x99, x95. repeat split; try assumption.
  vm_compute in H99, H95. injection H99 as <-. injection H95 as <-.
  vm_compute. reflexivity.
Defined.

(** ** C3: rebasing *)

(** Every present value [v] is mapped to [(v / base) * 100], where [base]
    is the first present value, or 1 when there is none. *)
Lemma normalize_spec {T : Type} `{Number T} (values : list (option T)) :
  let base : T :=
    match filter is_Some values with Some v :: _ => v | _ => of_Z 1 end in
  normalize values = (fun v : option T => (fun v => (v /! base) *! of_Z 100) <$> v) <$> values.
Proof.
  intros base. unfold normalize.
  assert (Hbase : match list_find is_Some values with
                  | Some (_, Some v) => v
                  | _ => of_Z 1
                  end = base).
  { unfold base. clear base. induction values as [|[v|] values IH]; [reflexivity | reflexivity |].
    cbn [list_find]. rewrite decide_False by (intros [? [=]]).
    rewrite filter_cons_False by (intros [? [=]]).
    rewrite <- IH. destruct (list_find is_Some values) as [[i [v|]]|]; reflexivity. }
  rewrite Hbase. apply list_fmap_ext. by intros i [v|] _.
Qed.

Example normalize_10_20_30 :
  normalize [Some 10; Some 20; Some 30]%float = [Some 100; Some 200; Some 300]%float.
Proof. vm_compute. reflexivity. Qed.

Example normalize_leading_gap :
  normalize [None; Some 5; Some 10]%float = [None; Some 100; Some 200]%float /\
  normalize ([None; None] : list (option float)) = [None; None].
Proof. vm_compute. split; reflexivity. Qed.

(** C3 at the input 0, 5, 10.  The first present value is 0 and is used
    as the base: the script computes 0/0 and 5/0, that is NaN and
    Infinity, where the specification promises the base 1.  The rebasing
    of [renderCryptoOverview] divides by [values[0]] in the same way. *)
Theorem normalize_zero_first_value :
  normalize [Some 0; Some 5; Some 10]%float
  = [Some nan; Some infinity; Some infinity] /\
  cryptoNorm [0; 5; 10]%float = [nan; infinity; infinity] /\
  forallb isFinite [nan; infinity] = false.
Proof. vm_compute. repeat split; reflexivity. Qed.

(** ** C4: degenerate return series *)

(** C4, as written, fails on the code.  Alpaca answers with two bars, the
    second with a close that JSON reads as Infinity (1e999).  The client
    accepts it (it is not NaN), the series is rebased, and
    [renderPortfolioStats] gets the single return Infinity: its
    volatility and its Sharpe ratio are NaN. *)
Lemma single_return_not_zero :
  let json := {| alpaca_bars := Some [ {| bar_ts := "2024-01-02T05:00:00Z"; bar_c := 100%float |};
                                      {| bar_ts := "2024-01-03T05:00:00Z"; bar_c := infinity |} ];
                 alpaca_data_bars := None |} in
  exists series : series float,
    alpaca_series json = Some series /\
    let portfolioReturns := portfolioReturns [normalized (Some <$> values series)] in
    portfolioReturns = [infinity] /\
    isNaN (PortfolioStats.volatility portfolioReturns) = true /\
    isNaN (PortfolioStats.sharpe portfolioReturns) = true /\
    (PortfolioStats.volatility portfolioReturns =?! of_Z 0) = false /\
    (PortfolioStats.sharpe portfolioReturns =?! of_Z 0) = false.
Proof. eexists. split; [reflexivity |]. vm_compute. repeat split; reflexivity. Qed.

Section DegenerateReal.
Local Open Scope R_scope.

Lemma stats_single (r : R) :
  PortfolioStats.meanDaily [r] = r /\ PortfolioStats.variance [r] = 0.
Proof.
  assert (Hm : PortfolioStats.meanDaily [r] = r).
  { unfold PortfolioStats.meanDaily. cbn. change (Z.of_nat 1) with 1%Z. field. }
  split; [exact Hm |].
  unfold PortfolioStats.variance. rewrite Hm. unfold pow2. cbn.
  change (Z.of_nat 1) with 1%Z. field.
Qed.

Lemma analytics_single (r : R) :
  PortfolioAnalytics.meanReturn [r] = r /\ PortfolioAnalytics.variance [r] = 0.
Proof.
  assert (Hm : PortfolioAnalytics.meanReturn [r] = r).
  { unfold PortfolioAnalytics.meanReturn. cbn. change (Z.of_nat 1) with 1%Z. field. }
  split; [exact Hm |].
  unfold PortfolioAnalytics.variance. rewrite Hm. unfold pow2. cbn.
  change (Z.of_nat 1) with 1%Z. field.
Qed.

Lemma maxDrawdown_single (r : R) :
  PortfolioAnalytics.maxDrawdown [r] = Rmax 0 (- r) * 100.
Proof.
  unfold PortfolioAnalytics.maxDrawdown, PortfolioAnalytics.maxDD. cbn.
  unfold num_gtb. real_ops. f_equal.
  destruct (Rlt_dec 0 (0 + r)) as [Hr|Hr]; cbn.
  - destruct (Rlt_dec 0 (0 + r - (0 + r))) as [Hd|Hd]; [lra |].
    rewrite Rmax_left by lra. reflexivity.
  - destruct (Rlt_dec 0 (0 - (0 + r))) as [Hd|Hd].
    + rewrite Rmax_right by lra. cbn. lra.
    + rewrite Rmax_left by lra. reflexivity.
Qed.

Lemma VaR_single (p r : R) :
  0 <= p < 1 -> PortfolioAnalytics.VaR p [r] = Some (- r * 100).
Proof.
  intros Hp. destruct (VaR_real p [r] Hp) as (x & Hx & ->); [discriminate |].
  change (PortfolioAnalytics.sortedReturns [r]) with [r] in Hx.
  destruct (Z.to_nat _) as [|k]; cbn in Hx; [by injection Hx as -> | done].
Qed.
End DegenerateReal.

Section DegenerateBinary64.
Implicit Types r : float.

Lemma zero_cases r (s : bool) :
  Prim2SF r = S754_zero s -> r = 0%float \/ r = (-0)%float.
Proof.
  intros E. rewrite <- (SF2Prim_Prim2SF r), E. destruct s; cbn; auto.
Qed.

Lemma add_zero_l r (s : bool) (m : positive) (e : Z) :
  Prim2SF r = S754_finite s m e -> (0 + r)%float = r.
Proof.
  intros E. apply Prim2SF_inj. rewrite FloatAxioms.add_spec, E. reflexivity.
Qed.

Lemma sub_diag r (s : bool) (m : positive) (e : Z) :
  Prim2SF r = S754_finite s m e -> (r - r)%float = 0%float.
Proof.
  intros E. apply Prim2SF_inj. rewrite FloatAxioms.sub_spec, E.
  unfold SF64sub, SFsub. rewrite Z.sub_diag. reflexivity.
Qed.

(** The deviation of the one return from the mean of the series is a
    zero. *)
Lemma deviation_single r :
  is_finite r = true ->
  let d := (r - (0 + r) / 1)%float in d = 0%float \/ d = (-0)%float.
Proof.
  intros Hf d. unfold d. pose proof Hf as Hf'. rewrite is_finite_spec in Hf'.
  destruct (Prim2SF r) as [s|s| |s m e] eqn:E; try done.
  - destruct (zero_cases r s E) as [-> | ->]; vm_compute; auto.
  - rewrite (add_zero_l r s m e E), div_one by done. left. by eapply sub_diag.
Qed.

Lemma stats_single_float r :
  is_finite r = true ->
  PortfolioStats.volatility [r] = 0%float /\ PortfolioStats.sharpe [r] = 0%float.
Proof.
  intros Hf.
  assert (Hvar : PortfolioStats.variance [r] = 0%float).
  { unfold PortfolioStats.variance, PortfolioStats.meanDaily, pow2, of_nat.
    cbn [length Nat.ltb Nat.leb fold_left Z.of_nat Pos.of_succ_nat of_Z num_add num_sub
         num_mul num_div float_number F64.of_Z].
    change (F64.of_Z (Z.of_nat 1)) with 1%float. change zero with 0%float.
    destruct (deviation_single r Hf) as [-> | ->]; reflexivity. }
  assert (Hvol : PortfolioStats.volatility [r] = 0%float).
  { unfold PortfolioStats.volatility. rewrite Hvar. reflexivity. }
  split; [exact Hvol |].
  unfold PortfolioStats.sharpe, PortfolioStats.annualisedVol. rewrite Hvol. reflexivity.
Qed.

Lemma analytics_single_float r :
  is_finite r = true ->
  PortfolioAnalytics.volatility [r] = 0%float /\ PortfolioAnalytics.sharpeRatio [r] = 0%float.
Proof.
  intros Hf.
  assert (Hvar : PortfolioAnalytics.variance [r] = 0%float).
  { unfold PortfolioAnalytics.variance, PortfolioAnalytics.meanReturn, pow2, of_nat.
    cbn [length Nat.ltb Nat.leb fold_left Z.of_nat Pos.of_succ_nat of_Z num_add num_sub
         num_mul num_div float_number F64.of_Z].
    change (F64.of_Z (Z.of_nat 1)) with 1%float. change zero with 0%float.
    destruct (deviation_single r Hf) as [-> | ->]; reflexivity. }
  assert (Hvol : PortfolioAnalytics.volatility [r] = 0%float).
  { unfold PortfolioAnalytics.volatility, PortfolioAnalytics.dailyVol. rewrite Hvar. reflexivity. }
  split; [exact Hvol |].
  unfold PortfolioAnalytics.sharpeRatio. cbv zeta. rewrite Hvol. reflexivity.
Qed.

Lemma maxDrawdown_single_float r :
  is_finite r = true ->
  PortfolioAnalytics.maxDrawdown [r]
  = if PrimFloat.ltb r 0 then ((0 - r) * 100)%float else 0%float.
Proof.
  intros Hf. pose proof Hf as Hf'. rewrite is_finite_spec in Hf'.
  unfold PortfolioAnalytics.maxDrawdown, PortfolioAnalytics.maxDD,
    PortfolioAnalytics.drawdown_step, num_gtb.
  cbn [fold_left snd of_Z num_add num_sub num_mul num_ltb float_number F64.of_Z].
  change zero with 0%float.
  destruct (Prim2SF r) as [s|s| |s m e] eqn:E; try done.
  - destruct (zero_cases r s E) as [-> | ->]; vm_compute; reflexivity.
  - rewrite (add_zero_l r s m e E).
    assert (H0r : PrimFloat.ltb 0 r = negb s).
    { rewrite FloatAxioms.ltb_spec, E. by destruct s. }
    assert (Hr0 : PrimFloat.ltb r 0 = s).
    { rewrite FloatAxioms.ltb_spec, E. by destruct s. }
    rewrite H0r, Hr0. destruct s; cbn [negb].
    + assert (Hd : PrimFloat.ltb 0 (0 - r) = true).
      { rewrite FloatAxioms.ltb_spec, FloatAxioms.sub_spec, E. reflexivity. }
      rewrite Hd. reflexivity.
    + rewrite (sub_diag r false m e E). reflexivity.
Qed.

Lemma VaR_single_float (r : float) :
  PortfolioAnalytics.var95 [r] = Some (num_neg r *! of_Z 100) /\
  PortfolioAnalytics.var99 [r] = Some (num_neg r *! of_Z 100).
Proof.
  destruct decimal_1_2_F2Z as [Hf1 HC1], decimal_5_2_F2Z as [Hf5 HC5].
  unfold PortfolioAnalytics.var95, PortfolioAnalytics.var99, PortfolioAnalytics.VaR.
  cbv zeta. change (PortfolioAnalytics.sortedReturns [r]) with [r].
  rewrite (idx_float (decimal 5 2) 20 [r]), (idx_float (decimal 1 2) 100 [r]);
    [| done | lia | exact HC1 | cbn; lia | done | lia | exact HC5 | cbn; lia].
  split; reflexivity.
Qed.
End DegenerateBinary64.

(** C4, amended.  For the empty return series and for every single
    finite return, the volatility and the Sharpe ratio of
    [renderPortfolioStats] are exactly 0 in binary64.  The maximum
    drawdown and the VaR exist only in [setupPortfolioAnalytics], whose
    series always holds 60 returns.  As functions of a series they give:
    on the empty series the maximum drawdown 0 and a VaR read outside the
    array; on a single finite return r a volatility and a Sharpe ratio of
    0, the maximum drawdown -r in percent for r < 0 and 0 otherwise, and
    both VaR figures -r in percent, read at index 0. *)
Theorem degenerate_series_statistics :
  (PortfolioStats.volatility ([] : list float) = 0%float /\
   PortfolioStats.sharpe ([] : list float) = 0%float /\
   PortfolioAnalytics.maxDrawdown ([] : list float) = 0%float /\
   PortfolioAnalytics.var95 ([] : list float) = None /\
   PortfolioAnalytics.var99 ([] : list float) = None) /\
  (forall r : float,
      is_finite r = true ->
      PortfolioStats.volatility [r] = 0%float /\
      PortfolioStats.sharpe [r] = 0%float /\
      PortfolioAnalytics.volatility [r] = 0%float /\
      PortfolioAnalytics.sharpeRatio [r] = 0%float /\
      PortfolioAnalytics.maxDrawdown [r]
      = (if PrimFloat.ltb r 0 then ((0 - r) * 100)%float else 0%float) /\
      PortfolioAnalytics.var95 [r] = Some (- r * 100)%float /\
      PortfolioAnalytics.var99 [r] = Some (- r * 100)%float) /\
  (forall (T : Type) (N : Number T) (random : nat -> T) (prices : list (option T)),
      length (syntheticReturns random prices) = 60%nat) /\
  (forall r : R,
      PortfolioStats.volatility [r] = 0%R /\
      PortfolioStats.sharpe [r] = 0%R /\
      PortfolioAnalytics.volatility [r] = 0%R /\
      PortfolioAnalytics.sharpeRatio [r] = 0%R /\
      PortfolioAnalytics.maxDrawdown [r] = (Rmax 0 (- r) * 100)%R /\
      PortfolioAnalytics.var95 [r] = Some (- r * 100)%R /\
      PortfolioAnalytics.var99 [r] = Some (- r * 100)%R).
Proof.
  split; [vm_compute; repeat split; reflexivity |]. split; [| split].
  - intros r Hf.
    destruct (stats_single_float r Hf) as [? ?], (analytics_single_float r Hf) as [? ?].
    destruct (VaR_single_float r) as [? ?].
    repeat split; try assumption. by apply maxDrawdown_single_float.
  - intros T N random prices. unfold syntheticReturns. by rewrite length_fmap, length_seq.
  - intros r.
    destruct (stats_single r) as [Hm Hv], (analytics_single r) as [Hm' Hv'].
    assert (Hvol : PortfolioStats.volatility [r] = 0%R)
      by (unfold PortfolioStats.volatility; rewrite Hv; apply sqrt_0).
    assert (Hvol' : PortfolioAnalytics.volatility [r] = 0%R).
    { unfold PortfolioAnalytics.volatility, PortfolioAnalytics.dailyVol.
      rewrite Hv'. real_ops. rewrite sqrt_0. ring. }
    repeat split.
    + exact Hvol.
    + unfold PortfolioStats.sharpe, PortfolioStats.annualisedVol. rewrite Hvol.
      real_ops. rewrite Rmult_0_l. by destruct (Req_dec_T 0 0).
    + exact Hvol'.
    + unfold PortfolioAnalytics.sharpeRatio. cbv zeta. rewrite Hvol'.
      real_ops. by destruct (Req_dec_T 0 0).
    + apply maxDrawdown_single.
    + apply VaR_single. unfold decimal. real_ops. change (10 ^ Z.of_nat 2)%Z with 100%Z. lra.
    + apply VaR_single. unfold decimal. real_ops. change (10 ^ Z.of_nat 2)%Z with 100%Z. lra.
Qed.

Lemma degenerate_series_statistics_witness :
  PortfolioStats.volatility [decimal (-5) 1 : float] = 0%float /\
  PortfolioStats.sharpe [decimal (-5) 1 : float] = 0%float /\
  PortfolioAnalytics.maxDrawdown [decimal (-5) 1 : float] = 50%float /\
  PortfolioAnalytics.var95 [decimal (-5) 1 : float] = Some 50%float /\
  PortfolioAnalytics.maxDrawdown [decimal 25 2 : float] = 0%float.
Proof.
  destruct degenerate_series_statistics as (_ & Hsingle & _ & _).
  assert (Hf : is_finite (decimal (-5) 1 : float) = true) by (vm_compute; reflexivity).
  assert (Hf' : is_finite (decimal 25 2 : float) = true) by (vm_compute; reflexivity).
  destruct (Hsingle (decimal (-5) 1) Hf) as (Hv & Hs & _ & _ & Hd & H95 & _).
  destruct (Hsingle (decimal 25 2) Hf') as (_ & _ & _ & _ & Hd' & _ & _).
  split; [exact Hv |]. split; [exact Hs |].
  split; [rewrite Hd; reflexivity |]. split; [rewrite H95; reflexivity |].
  rewrite Hd'. reflexivity.
Defined.

(** ** C8: Sharpe ratio *)

Section SharpeSpec.
Context {T : Type} `{Number T}.

Lemma stats_spec (l : list T) :
  l <> [] ->
  PortfolioStats.meanDaily l = AnalyticsSpec.mean l /\
  PortfolioStats.volatility l = AnalyticsSpec.daily_volatility l.
Proof.
  intros Hl.
  assert (Hn : (0 <? length l)%nat = true) by (destruct l; [done | reflexivity]).
  assert (Hm : PortfolioStats.meanDaily l = AnalyticsSpec.mean l)
    by (unfold PortfolioStats.meanDaily; by rewrite Hn).
  split; [exact Hm |].
  unfold PortfolioStats.volatility, PortfolioStats.variance. by rewrite Hn, Hm.
Qed.

Lemma sharpe_spec (l : list T) :
  l <> [] -> PortfolioStats.sharpe l = AnalyticsSpec.sharpe_ratio l.
Proof.
  intros Hl. destruct (stats_spec l Hl) as [Hm Hv].
  unfold PortfolioStats.sharpe, PortfolioStats.annualisedVol, PortfolioStats.annualisedReturn,
    AnalyticsSpec.sharpe_ratio, AnalyticsSpec.annualized_volatility,
    AnalyticsSpec.annualized_return.
  rewrite Hm, Hv. by destruct (_ =?! _).
Qed.

Lemma sharpeRatio_spec (l : list T) :
  PortfolioAnalytics.sharpeRatio l
  = if AnalyticsSpec.annualized_volatility l *! of_Z 100 =?! of_Z 0 then of_Z 0
    else AnalyticsSpec.annualized_return l
         /! (AnalyticsSpec.annualized_volatility l *! of_Z 100 /! of_Z 100).
Proof. reflexivity. Qed.
End SharpeSpec.

(** In exact arithmetic the percent scaling of [volatility] cancels. *)
Lemma sharpeRatio_spec_real (l : list R) :
  l <> [] -> PortfolioAnalytics.sharpeRatio l = AnalyticsSpec.sharpe_ratio l.
Proof.
  intros _. rewrite sharpeRatio_spec. unfold AnalyticsSpec.sharpe_ratio.
  real_ops. set (v := AnalyticsSpec.annualized_volatility l).
  destruct (Req_dec_T (v * 100) 0) as [H0|H0], (Req_dec_T v 0) as [Hv|Hv];
    try reflexivity; try (exfalso; lra).
  field. exact Hv.
Qed.

Section SharpeBinary64.
Local Open Scope Z_scope.

Lemma sqrt_252_F2Z :
  is_finite (Math_sqrt (of_Z 252 : float)) = true /\ 2 ^ 1074 <= F2Z (Math_sqrt (of_Z 252 : float)).
Proof. split; [reflexivity |]. apply Z.leb_le. vm_compute. reflexivity. Qed.

Lemma hundred_F2Z :
  is_finite (of_Z 100 : float) = true /\ 2 ^ 1074 <= F2Z (of_Z 100 : float).
Proof. split; [reflexivity |]. apply Z.leb_le. vm_compute. reflexivity. Qed.

(** The zero tests of the two Sharpe ratios are tests of the daily
    volatility: the scalings by the square root of 252 and by 100 do not
    underflow. *)
Lemma spec_zero_test (l : list float) :
  (AnalyticsSpec.annualized_volatility l *! of_Z 100 =?! of_Z 0)
  = (AnalyticsSpec.daily_volatility l =?! of_Z 0) /\
  (AnalyticsSpec.annualized_volatility l =?! of_Z 0)
  = (AnalyticsSpec.daily_volatility l =?! of_Z 0).
Proof.
  destruct sqrt_252_F2Z as [Hf Hs], hundred_F2Z as [Hf' Hh].
  unfold AnalyticsSpec.annualized_volatility.
  cbn [num_eqb num_mul float_number]. change (of_Z 0) with 0%float.
  split.
  - by rewrite !mul_const_eq_0.
  - by rewrite mul_const_eq_0.
Qed.

Lemma sharpe_zero_daily_volatility (l : list float) :
  (AnalyticsSpec.daily_volatility l =?! of_Z 0) = true ->
  PortfolioAnalytics.sharpeRatio l = 0%float /\ PortfolioStats.sharpe l = 0%float.
Proof.
  intros Hz. destruct (spec_zero_test l) as [H100 Hann]. split.
  - rewrite sharpeRatio_spec. by rewrite H100, Hz.
  - destruct l as [| r l]; [reflexivity |].
    rewrite sharpe_spec by done. unfold AnalyticsSpec.sharpe_ratio. by rewrite Hann, Hz.
Qed.

Lemma zero_div_nat (n : nat) :
  (0 < n)%nat -> Z.of_nat n < 2 ^ 53 -> 0%float /! of_nat n = 0%float.
Proof.
  intros Hn Hlt. destruct (of_nat_F2Z n Hlt) as [Hv Hf].
  destruct (F2Z_positive (of_nat n) Hf) as (m & e & E).
  { rewrite Hv. pose proof (two_pow_pos 1074). lia. }
  apply Prim2SF_inj. cbn [num_div float_number]. rewrite FloatAxioms.div_spec, E. reflexivity.
Qed.

Lemma fold_zero_sum (n : nat) :
  fold_left (fun a b : float => a +! b) (replicate n 0%float) 0%float = 0%float.
Proof. induction n as [|n IH]; [done | exact IH]. Qed.

Lemma fold_zero_squares (n : nat) :
  fold_left (fun sum r : float => sum +! pow2 (r -! 0%float)) (replicate n 0%float) 0%float
  = 0%float.
Proof. induction n as [|n IH]; [done | exact IH]. Qed.

(** On a series of zeros, of any length, both Sharpe ratios are 0. *)
Lemma sharpe_zero_series (n : nat) :
  (0 < n)%nat -> Z.of_nat n < 2 ^ 53 ->
  PortfolioStats.sharpe (replicate n 0%float) = 0%float /\
  PortfolioAnalytics.sharpeRatio (replicate n 0%float) = 0%float.
Proof.
  intros Hn Hlt. pose proof (zero_div_nat n Hn Hlt) as Hdiv.
  assert (Hltb : (0 <? n)%nat = true) by (apply Nat.ltb_lt; lia).
  split.
  - assert (Hm : PortfolioStats.meanDaily (replicate n 0%float) = 0%float).
    { unfold PortfolioStats.meanDaily. rewrite length_replicate, Hltb.
      change (of_Z 0) with 0%float. by rewrite fold_zero_sum. }
    assert (Hv : PortfolioStats.volatility (replicate n 0%float) = 0%float).
    { unfold PortfolioStats.volatility, PortfolioStats.variance.
      rewrite Hm, length_replicate, Hltb. change (of_Z 0) with 0%float.
      rewrite fold_zero_squares, Hdiv. reflexivity. }
    unfold PortfolioStats.sharpe, PortfolioStats.annualisedVol. rewrite Hv. reflexivity.
  - assert (Hm : PortfolioAnalytics.meanReturn (replicate n 0%float) = 0%float).
    { unfold PortfolioAnalytics.meanReturn. rewrite length_replicate.
      change (of_Z 0) with 0%float. by rewrite fold_zero_sum. }
    assert (Hv : PortfolioAnalytics.volatility (replicate n 0%float) = 0%float).
    { unfold PortfolioAnalytics.volatility, PortfolioAnalytics.dailyVol,
        PortfolioAnalytics.variance.
      rewrite Hm, length_replicate. change (of_Z 0) with 0%float.
      rewrite fold_zero_squares, Hdiv. reflexivity. }
    unfold PortfolioAnalytics.sharpeRatio. cbv zeta. rewrite Hv. reflexivity.
Qed.
End SharpeBinary64.

(** C8, as written, fails on the code in the last place.  On the sixty returns that the
    dashboard draws for its three default symbols from [draws8], its
    Sharpe ratio is 5.6164751446156798, while the annualised return over
    the annualised volatility is 5.6164751446156806: the dashboard holds
    the volatility in percent, and [volatility / 100] is not the
    annualised volatility again. *)
Lemma sharpeRatio_percent_rounding :
  let portfolioReturns := syntheticReturns draws8 [None; None; None] in
  PortfolioAnalytics.sharpeRatio portfolioReturns = 0x1.6774542a3af53p+2%float /\
  AnalyticsSpec.sharpe_ratio portfolioReturns = 0x1.6774542a3af54p+2%float /\
  AnalyticsSpec.annualized_volatility portfolioReturns = 0x1.7321650c56bcbp-4%float /\
  PortfolioAnalytics.volatility portfolioReturns /! of_Z 100 = 0x1.7321650c56bccp-4%float /\
  (PortfolioAnalytics.sharpeRatio portfolioReturns
     =?! AnalyticsSpec.sharpe_ratio portfolioReturns) = false.
Proof. vm_compute. repeat split; reflexivity. Qed.

(** C8, amended.  In [renderPortfolioStats] the Sharpe ratio of a series
    that is not empty is the annualised return (mean daily return times
    252) divided by the annualised volatility (daily volatility times the
    square root of 252), and 0 when that volatility is 0, in every
    arithmetic.  [setupPortfolioAnalytics] holds the annualised volatility
    in percent and divides by a hundredth of it: the same quotient in
    exact arithmetic, and in binary64 the quotient by
    annualised volatility * 100 / 100.  In binary64 the volatility tests
    equal to 0 exactly when the daily volatility does, the Sharpe ratio
    is then exactly 0 in both functions, and so it is on a series of
    zeros of any length, the series 0, 0, 0 among them.  On the returns
    0.01, -0.02, 0.03 both ratios are 5.1503704516737105. *)
Theorem sharpe_ratio_annualised :
  (forall (T : Type) (N : Number T) (l : list T),
      l <> [] -> PortfolioStats.sharpe l = AnalyticsSpec.sharpe_ratio l) /\
  (forall (T : Type) (N : Number T) (l : list T),
      PortfolioAnalytics.sharpeRatio l
      = if AnalyticsSpec.annualized_volatility l *! of_Z 100 =?! of_Z 0 then of_Z 0
        else AnalyticsSpec.annualized_return l
             /! (AnalyticsSpec.annualized_volatility l *! of_Z 100 /! of_Z 100)) /\
  (forall l : list R,
      l <> [] -> PortfolioAnalytics.sharpeRatio l = AnalyticsSpec.sharpe_ratio l) /\
  (forall l : list float,
      (AnalyticsSpec.annualized_volatility l *! of_Z 100 =?! of_Z 0)
      = (AnalyticsSpec.daily_volatility l =?! of_Z 0) /\
      (AnalyticsSpec.annualized_volatility l =?! of_Z 0)
      = (AnalyticsSpec.daily_volatility l =?! of_Z 0)) /\
  (forall l : list float,
      (AnalyticsSpec.daily_volatility l =?! of_Z 0) = true ->
      PortfolioAnalytics.sharpeRatio l = 0%float /\ PortfolioStats.sharpe l = 0%float) /\
  (forall n : nat,
      (0 < n)%nat -> (Z.of_nat n < 2 ^ 53)%Z ->
      PortfolioStats.sharpe (replicate n 0%float) = 0%float /\
      PortfolioAnalytics.sharpeRatio (replicate n 0%float) = 0%float) /\
  (PortfolioStats.sharpe [0; 0; 0]%float = 0%float /\
   PortfolioAnalytics.sharpeRatio [0; 0; 0]%float = 0%float) /\
  (let l : list float := [decimal 1 2; decimal (-2) 2; decimal 3 2] in
   AnalyticsSpec.annualized_return l = 0x1.ae147ae147ae0p+0%float /\
   AnalyticsSpec.annualized_volatility l = 0x1.4e04c8fa90311p-2%float /\
   PortfolioAnalytics.volatility l = 0x1.04f3bd03c0a65p+5%float /\
   PortfolioStats.sharpe l = 0x1.499fab630e4b2p+2%float /\
   PortfolioAnalytics.sharpeRatio l = 0x1.499fab630e4b2p+2%float).
Proof.
  split; [intros T N l; apply sharpe_spec |].
  split; [intros T N l; apply sharpeRatio_spec |].
  split; [exact sharpeRatio_spec_real |].
  split; [exact spec_zero_test |].
  split; [exact sharpe_zero_daily_volatility |].
  split; [exact sharpe_zero_series |].
  split; vm_compute; repeat split; reflexivity.
Qed.

Lemma sharpe_ratio_annualised_witness :
  let l : list float := [decimal 5 1; decimal 5 1] in
  (AnalyticsSpec.daily_volatility l =?! of_Z 0) = true /\
  PortfolioAnalytics.sharpeRatio l = 0%float /\ PortfolioStats.sharpe l = 0%float /\
  PortfolioStats.sharpe [decimal 1 2; decimal 3 2 : float]
  = AnalyticsSpec.sharpe_ratio [decimal 1 2; decimal 3 2 : float].
Proof.
  destruct sharpe_ratio_annualised as (Hstats & _ & _ & _ & Hzero & _).
  intros l.
  assert (Hz : (AnalyticsSpec.daily_volatility l =?! of_Z 0) = true) by (vm_compute; reflexivity).
  destruct (Hzero l Hz) as [Hd Hs].
  split; [exact Hz |]. split; [exact Hd |]. split; [exact Hs |].
  by apply Hstats.
Defined.

(** The test is made on the volatility as computed.  On the constant
    returns 0.1, 0.1, 0.1 the mean is 0.10000000000000002 in binary64, the
    volatility 1.3877787807814457e-17 and not 0, and the Sharpe ratio of
    [renderPortfolioStats] 1.1438788433880474e+17. *)
Example sharpe_constant_series :
  let l : list float := [decimal 1 1; decimal 1 1; decimal 1 1] in
  AnalyticsSpec.mean l = 0x1.999999999999bp-4%float /\
  AnalyticsSpec.daily_volatility l = 0x1p-56%float /\
  PortfolioStats.sharpe l = 0x1.96632cbc9f78p+56%float.
Proof. vm_compute. repeat split; reflexivity. Qed.

(** ** C9: the cache round trip *)

(** C9.  When the storage is available, [loadFromCache key] after
    [saveToCache key payload] returns [payload], for every key, every
    clock reading and every JSON-serializable payload, that is every value
    that [JSON.stringify] writes unchanged. *)
Theorem load_after_save {T : Type} `{Number T}
    (key : string) (payload : jsval T) (now : Z) (ls : localStorage T) :
  available ls = true ->
  json_value payload = Some payload ->
  loadFromCache key (saveToCache key payload now ls) = payload.
Proof.
  intros Hav Hjson.
  unfold saveToCache, loadFromCache, setItem, getItem, JSON_stringify.
  rewrite Hav. cbn [available items json_value]. rewrite Hjson.
  rewrite lookup_insert_eq. cbn.
  by destruct (isFinite (of_Z now)).
Qed.

Lemma load_after_save_witness :
  loadFromCache (T := float) "oilPriceSeries"
    (saveToCache "oilPriceSeries"
       (series_to_js {| labels := ["2024-01-02"]; values := [72.5%float] |})
       1700000000000 {| items := ∅; available := true |})
  = series_to_js {| labels := ["2024-01-02"]; values := [72.5%float] |}.
Proof. apply load_after_save; reflexivity. Defined.

(** ** C5: validation in the provider clients *)

Lemma all_numbers_Forall {T : Type} `{Number T} (values : list T) :
  all_numbers values = true <-> Forall (fun v => isNaN v = false) values.
Proof.
  unfold all_numbers. rewrite forallb_forall, Forall_forall.
  split; intros Hall v Hv.
  - apply negb_true_iff, Hall. by apply list_elem_of_In.
  - apply negb_true_iff, Hall. by apply list_elem_of_In.
Qed.

(** C5, as written, fails on the code: the clients test [isNaN], which
    lets the infinities through.  A bar whose close reads Infinity is
    accepted by [fetchFromAlpaca], and the series it returns holds a value
    that is not finite. *)
Lemma fetchFromAlpaca_accepts_infinity :
  let w : world float :=
    {| alpaca := fun _ =>
         Body {| alpaca_bars := Some [ {| bar_ts := "2024-01-02T05:00:00Z"; bar_c := infinity |} ];
                 alpaca_data_bars := None |};
       alphavantage := fun _ => Rejected; eia := fun _ => Rejected;
       twelvedata := fun _ => Rejected;
       Date_now := 1700000000000; Math_random := fun _ => 0%float |} in
  let st := {| storage := {| items := ∅; available := true |}; requests := [] |} in
  (fetchFromAlpaca w "SPY" st).1 = Some {| labels := ["2024-01-02"]; values := [infinity] |} /\
  forallb isFinite [infinity] = false.
Proof. vm_compute. split; reflexivity. Qed.

(** [fetchTwelveSeries] applies no check at all: a close that cannot be
    parsed stays in the series that it returns. *)
Example fetchTwelveSeries_keeps_nan :
  twelve_series (T := float)
    {| twelve_values := Some [ {| datetime := "2024-01-03"; close := nan |};
                               {| datetime := "2024-01-02"; close := 471%float |} ] |}
  = Some {| labels := ["2024-01-02"; "2024-01-03"]; values := [471%float; nan] |}.
Proof. vm_compute. reflexivity. Qed.

(** Nor does [fetchOilPriceSeries] check the numbers it reads with
    [Number(item.value)]. *)
Example eia_series_keeps_nan :
  eia_series (T := float)
    {| response_data := Some [ {| period := "2024-01-03"; value := 72%float |};
                               {| period := "2024-01-02"; value := nan |} ] |}
  = Some {| labels := ["2024-01-02"; "2024-01-03"]; values := [nan; 72%float] |}.
Proof. vm_compute. reflexivity. Qed.

Section Validation.
Context {T : Type} `{Number T}.

Lemma alpaca_series_accepted (json : alpaca_json T) (s : series T) :
  alpaca_series json = Some s ->
  values s = bar_c <$> bars_of json /\
  length (labels s) = length (bars_of json) /\
  Forall (fun v => isNaN v = false) (values s).
Proof.
  unfold alpaca_series. intros Hs.
  destruct (_ =? 0)%nat; [discriminate |].
  destruct (all_numbers _) eqn:Hall; [| discriminate].
  injection Hs as <-. cbn [labels values].
  split; [reflexivity |]. split; [by rewrite length_fmap |].
  by apply all_numbers_Forall.
Qed.

Lemma alpaca_series_rejects_nan (json : alpaca_json T) :
  Exists (fun bar => isNaN (bar_c bar) = true) (bars_of json) ->
  alpaca_series json = None.
Proof.
  intros Hex. destruct (alpaca_series json) as [s|] eqn:Hs; [exfalso | reflexivity].
  apply alpaca_series_accepted in Hs as (Hvalues & _ & Hall).
  rewrite Hvalues, Forall_fmap, Forall_forall in Hall.
  apply Exists_exists in Hex as (b & Hb & Hnan).
  specialize (Hall b Hb). cbn in Hall. congruence.
Qed.

Lemma alphavantage_series_accepted (json : alpha_json T) (s : series T) :
  alphavantage_series json = Some s ->
  length (labels s) = length (values s) /\
  Forall (fun v => isNaN v = false) (values s).
Proof.
  unfold alphavantage_series. intros Hs.
  destruct (time_series_daily json) as [entries|]; [cbn in Hs | discriminate].
  destruct (mapM _ _) as [vs|] eqn:Hvs; [cbn in Hs | discriminate].
  destruct (all_numbers vs) eqn:Hall; [| discriminate].
  injection Hs as <-. cbn [labels values].
  split; [by apply length_mapM in Hvs | by apply all_numbers_Forall].
Qed.
End Validation.

(** C5, amended.  The Alpaca and AlphaVantage clients of
    [fetchEquitySeries] accept a response only when no extracted close is
    NaN: an accepted Alpaca series holds the close of every bar, none of
    them NaN, and one bar with a NaN close makes the client fail as a
    whole; an accepted AlphaVantage series holds a value for every label,
    none of them NaN. *)
Theorem equity_clients_reject_nan {T : Type} `{Number T} :
  (forall (json : alpaca_json T) (s : series T),
      alpaca_series json = Some s ->
      values s = bar_c <$> bars_of json /\
      length (labels s) = length (bars_of json) /\
      Forall (fun v => isNaN v = false) (values s)) /\
  (forall (json : alpaca_json T),
      Exists (fun bar => isNaN (bar_c bar) = true) (bars_of json) ->
      alpaca_series json = None) /\
  (forall (json : alpha_json T) (s : series T),
      alphavantage_series json = Some s ->
      length (labels s) = length (values s) /\
      Forall (fun v => isNaN v = false) (values s)).
Proof.
  split; [exact alpaca_series_accepted |].
  split; [exact alpaca_series_rejects_nan | exact alphavantage_series_accepted].
Qed.

Lemma equity_clients_reject_nan_witness :
  alpaca_series (T := float)
    {| alpaca_bars := Some [ {| bar_ts := "2024-01-02T05:00:00Z"; bar_c := 470.5%float |};
                             {| bar_ts := "2024-01-03T05:00:00Z"; bar_c := nan |} ];
       alpaca_data_bars := None |} = None.
Proof.
  apply equity_clients_reject_nan. apply Exists_cons_tl, Exists_cons_hd. reflexivity.
Defined.

(** ** C1: order of the providers and write-through *)

Section Order.
Context {T : Type} `{Number T}.

Lemma fetchFromAlpaca_run (w : world T) (symbol : string) (st : state T) :
  fetchFromAlpaca w symbol st
  = (body (alpaca w symbol) ≫= alpaca_series,
     {| storage := storage st; requests := requests st ++ [AlpacaBars symbol] |}).
Proof. reflexivity. Qed.

Lemma fetchEquitySeries_run `{Trig T} (w : world T) (symbol : string) (st : state T) :
  fetchEquitySeries w symbol st
  = match body (alpaca w symbol) ≫= alpaca_series with
    | Some s =>
        (s, {| storage := storage st; requests := requests st ++ [AlpacaBars symbol] |})
    | None =>
        (default (sample symbol) (body (alphavantage w symbol) ≫= alphavantage_series),
         {| storage := storage st;
            requests := requests st ++ [AlpacaBars symbol; AlphaVantageDaily symbol] |})
    end.
Proof.
  unfold fetchEquitySeries, bind. rewrite fetchFromAlpaca_run.
  destruct (body (alpaca w symbol) ≫= alpaca_series); [reflexivity |].
  unfold http, ret. cbn. by rewrite <- app_assoc.
Qed.

Lemma fetchOilPriceSeries_run (w : world T) (st : state T) :
  fetchOilPriceSeries w st
  = let requests := requests st ++ [EIASeries "PET.RWTC.D"] in
    match body (eia w "PET.RWTC.D") ≫= eia_series with
    | Some s =>
        (series_to_js s,
         {| storage := saveToCache "oilPriceSeries" (series_to_js s) (Date_now w) (storage st);
            requests := requests |})
    | None =>
        let cached := loadFromCache "oilPriceSeries" (storage st) in
        (if truthy cached then cached else series_to_js (oil_fallback w),
         {| storage := storage st; requests := requests |})
    end.
Proof.
  unfold fetchOilPriceSeries, bind, http. cbn.
  by destruct (body (eia w "PET.RWTC.D") ≫= eia_series).
Qed.
End Order.

(** C1, as written, fails on the code: [fetchEquitySeries] returns the
    series of its first provider and writes nothing to the cache. *)
Lemma fetchEquitySeries_no_write_through :
  let w : world R :=
    {| alpaca := fun _ =>
         Body {| alpaca_bars := Some [ {| bar_ts := "2024-01-02T05:00:00Z"; bar_c := 470%R |} ];
                 alpaca_data_bars := None |};
       alphavantage := fun _ => Rejected; eia := fun _ => Rejected;
       twelvedata := fun _ => Rejected;
       Date_now := 1700000000000; Math_random := fun _ => 0%R |} in
  let st := {| storage := {| items := ∅; available := true |}; requests := [] |} in
  fetchEquitySeries w "SPY" st
  = ({| labels := ["2024-01-02"]; values := [470%R] |},
     {| storage := {| items := ∅; available := true |}; requests := [AlpacaBars "SPY"] |}).
Proof. intros w st. rewrite fetchEquitySeries_run. reflexivity. Qed.

(** C1, amended.  The providers are asked strictly in order and the first
    one that succeeds determines the returned series: [fetchEquitySeries]
    asks Alpaca and, only if Alpaca fails, AlphaVantage, and leaves the
    cache as it was; [fetchOilPriceSeries] asks its one provider and
    writes the successful series to the cache under "oilPriceSeries"
    before it returns it. *)
Theorem fetch_order_and_write_through {T : Type} `{Number T} `{Trig T}
    (w : world T) (st : state T) (symbol : string) (s : series T) :
  (body (alpaca w symbol) ≫= alpaca_series = Some s ->
   fetchEquitySeries w symbol st
   = (s, {| storage := storage st; requests := requests st ++ [AlpacaBars symbol] |})) /\
  (body (alpaca w symbol) ≫= alpaca_series = None ->
   body (alphavantage w symbol) ≫= alphavantage_series = Some s ->
   fetchEquitySeries w symbol st
   = (s, {| storage := storage st;
            requests := requests st ++ [AlpacaBars symbol; AlphaVantageDaily symbol] |})) /\
  (body (eia w "PET.RWTC.D") ≫= eia_series = Some s ->
   fetchOilPriceSeries w st
   = (series_to_js s,
      {| storage := saveToCache "oilPriceSeries" (series_to_js s) (Date_now w) (storage st);
         requests := requests st ++ [EIASeries "PET.RWTC.D"] |})).
Proof.
  repeat split.
  - intros Ha. by rewrite fetchEquitySeries_run, Ha.
  - intros Ha Hav. by rewrite fetchEquitySeries_run, Ha, Hav.
  - intros He. by rewrite fetchOilPriceSeries_run, He.
Qed.

Lemma fetch_order_and_write_through_witness :
  let w : world R :=
    {| alpaca := fun _ => Rejected;
       alphavantage := fun _ =>
         Body {| time_series_daily := Some [("2024-01-03", 472%R); ("2024-01-02", 470%R)] |};
       eia := fun _ =>
         Body {| response_data := Some [ {| period := "2024-01-02"; value := 72%R |} ] |};
       twelvedata := fun _ => Rejected;
       Date_now := 1700000000000; Math_random := fun _ => 0%R |} in
  let st := {| storage := {| items := ∅; available := true |}; requests := [] |} in
  (fetchEquitySeries w "SPY" st).1
  = {| labels := ["2024-01-02"; "2024-01-03"]; values := [470%R; 472%R] |} /\
  requests (fetchEquitySeries w "SPY" st).2 = [AlpacaBars "SPY"; AlphaVantageDaily "SPY"] /\
  storage (fetchOilPriceSeries w st).2
  = saveToCache "oilPriceSeries"
      (series_to_js {| labels := ["2024-01-02"]; values := [72%R] |})
      1700000000000 (storage st).
Proof.
  intros w st.
  destruct (fetch_order_and_write_through w st "SPY"
              {| labels := ["2024-01-02"; "2024-01-03"]; values := [470%R; 472%R] |})
    as (_ & Hav & _).
  rewrite Hav by reflexivity.
  destruct (fetch_order_and_write_through w st "SPY"
              {| labels := ["2024-01-02"]; values := [72%R] |})
    as (_ & _ & Heia).
  rewrite Heia by reflexivity.
  repeat split.
Defined.

(** ** C2: when every provider fails *)

Section Synthetic.
Context {T : Type} `{Number T}.

Lemma sample_length `{Trig T} (symbol : string) :
  length (labels (sample symbol)) = 30%nat /\ length (values (sample symbol)) = 30%nat.
Proof. unfold sample. cbn [labels values]. by rewrite !length_fmap, length_seq. Qed.

Lemma oil_fallback_length (w : world T) :
  length (labels (oil_fallback w)) = 365%nat /\ length (values (oil_fallback w)) = 365%nat.
Proof. unfold oil_fallback. cbn [labels values]. by rewrite !length_fmap, length_seq. Qed.
End Synthetic.

Section SyntheticReal.
Local Open Scope R_scope.

Lemma sample_positive (symbol : string) :
  Forall (fun v : R => 0 < v) (values (sample symbol)).
Proof.
  unfold sample. cbn [values]. rewrite Forall_fmap. apply Forall_forall.
  intros i _. cbn. unfold decimal, of_nat. real_ops. rewrite <- !INR_IZR_INZ.
  pose proof (pos_INR i) as Hi.
  pose proof (SIN_bound (INR i / 5)) as [Hlo _].
  change (10 ^ Z.of_nat 1)%Z with 10%Z.
  destruct (String.eqb symbol "TSLA"); lra.
Qed.

Lemma oil_fallback_positive (w : world R) :
  (forall k, 0 <= Math_random w k < 1) ->
  Forall (fun v : R => 0 < v) (values (oil_fallback w)).
Proof.
  intros Hrandom. unfold oil_fallback. cbn [values]. rewrite Forall_fmap.
  apply Forall_forall. intros k _. cbn. unfold decimal, of_nat. real_ops. rewrite <- !INR_IZR_INZ.
  change (10 ^ Z.of_nat 2)%Z with 100%Z. change (10 ^ Z.of_nat 1)%Z with 10%Z.
  destruct (Hrandom k) as [Hlo _].
  assert (Hi : INR (364 - k) <= 364).
  { replace 364 with (INR 364) by (rewrite INR_IZR_INZ; reflexivity).
    apply le_INR. lia. }
  lra.
Qed.
End SyntheticReal.

(** A value of the synthetic equity series: [base + s * 8 + c] for a sine
    [s] between -1 and 1. *)
Lemma sample_value_positive (s base c : float) :
  PrimFloat.leb (-1) s = true -> PrimFloat.leb s 1 = true ->
  is_finite base = true -> is_finite c = true ->
  is_finite (base + -1 * 8) = true -> is_finite (base + 1 * 8) = true ->
  is_finite (base + -1 * 8 + c) = true -> is_finite (base + 1 * 8 + c) = true ->
  PrimFloat.ltb 0 (base + -1 * 8 + c) = true ->
  is_finite (base + s * 8 + c) = true /\ PrimFloat.ltb 0 (base + s * 8 + c) = true.
Proof.
  intros Hlo Hhi Hbase Hc Hf1 Hf2 Hf3 Hf4 Hpos.
  destruct (leb_between _ _ _ Hlo Hhi) as [Hs Hb].
  destruct (mul_between (-1) s 1 8) as [Ht Hbt]; try done.
  destruct (add_between_r (-1 * 8) (s * 8) (1 * 8) base) as [Hu Hbu]; try done.
  destruct (add_between (base + -1 * 8) (base + s * 8) (base + 1 * 8) c) as [Hv Hbv]; try done.
  by apply (between_positive (base + -1 * 8 + c) _ (base + 1 * 8 + c)).
Qed.

(** A value of the synthetic oil series: [base + (r - 0.5) * 2] for a
    random number [r] in [0, 1). *)
Lemma oil_value_positive (r base : float) :
  PrimFloat.leb 0 r = true -> PrimFloat.ltb r 1 = true ->
  is_finite base = true ->
  is_finite (base + (0 - 0.5) * 2) = true -> is_finite (base + (1 - 0.5) * 2) = true ->
  PrimFloat.ltb 0 (base + (0 - 0.5) * 2) = true ->
  is_finite (base + (r - 0.5) * 2) = true /\ PrimFloat.ltb 0 (base + (r - 0.5) * 2) = true.
Proof.
  intros Hlo Hhi Hbase Hf1 Hf2 Hpos.
  assert (Hle : PrimFloat.leb r 1 = true).
  { destruct (ltb_not_nan _ _ Hhi) as [? ?]. rewrite ltb_F2Z in Hhi by done.
    rewrite leb_F2Z by done. apply Z.ltb_lt in Hhi. apply Z.leb_le. lia. }
  destruct (leb_between _ _ _ Hlo Hle) as [Hr Hb].
  destruct (sub_between 0 r 1 0.5) as [Hd Hbd]; try done.
  destruct (mul_between (0 - 0.5) (r - 0.5) (1 - 0.5) 2) as [He Hbe]; try done.
  destruct (add_between_r ((0 - 0.5) * 2) ((r - 0.5) * 2) ((1 - 0.5) * 2) base) as [Hv Hbv];
    try done.
  by apply (between_positive (base + (0 - 0.5) * 2) _ (base + (1 - 0.5) * 2)).
Qed.

Section SyntheticBinary64.
Local Abbreviation positive_number := (fun v : float => isFinite v = true /\ (of_Z 0 <?! v) = true).

Lemma sample_checked (base : float) (i : nat) (s : float) :
  sample_check base i = true -> is_finite base = true ->
  PrimFloat.leb (-1) s = true -> PrimFloat.leb s 1 = true ->
  positive_number (base +! s *! of_Z 8 +! of_nat i *! decimal 5 1).
Proof.
  unfold sample_check. cbv zeta. rewrite !andb_true_iff.
  intros (((((Hc & H1) & H2) & H3) & H4) & H5) Hbase Hlo Hhi.
  exact (sample_value_positive s base _ Hlo Hhi Hbase Hc H1 H2 H3 H4 H5).
Qed.

Lemma sample_binary64 (sin64 : float -> float) (symbol : string) :
  (forall x, PrimFloat.leb (-1) (sin64 x) = true /\ PrimFloat.leb (sin64 x) 1 = true) ->
  Forall positive_number (values (@sample float _ {| Math_sin := sin64 |} symbol)).
Proof.
  intros Hsin. unfold sample. cbn [values]. rewrite Forall_fmap. apply Forall_forall.
  intros i Hi. cbn [Math_sin]. apply list_elem_of_In in Hi.
  destruct (String.eqb symbol "TSLA").
  - assert (Hcheck : sample_check (of_Z 250) i = true)
      by (revert i Hi; apply forallb_forall; vm_compute; reflexivity).
    destruct (Hsin (of_nat i /! of_Z 5)) as [Hlo Hhi].
    by apply sample_checked.
  - assert (Hcheck : sample_check (of_Z 450) i = true)
      by (revert i Hi; apply forallb_forall; vm_compute; reflexivity).
    destruct (Hsin (of_nat i /! of_Z 5)) as [Hlo Hhi].
    by apply sample_checked.
Qed.

Lemma oil_checked (k : nat) (r : float) :
  oil_check k = true ->
  PrimFloat.leb 0 r = true -> PrimFloat.ltb r 1 = true ->
  positive_number (of_Z 60 +! (of_Z 365 -! of_nat (364 - k)) *! decimal 2 2
                   +! (r -! decimal 5 1) *! of_Z 2).
Proof.
  unfold oil_check. cbv zeta. rewrite !andb_true_iff.
  intros (((Hbase & H1) & H2) & H3) Hlo Hhi.
  exact (oil_value_positive r _ Hlo Hhi Hbase H1 H2 H3).
Qed.

Lemma oil_fallback_binary64 (w : world float) :
  (forall k, PrimFloat.leb 0 (Math_random w k) = true /\ PrimFloat.ltb (Math_random w k) 1 = true) ->
  Forall positive_number (values (oil_fallback w)).
Proof.
  intros Hrandom. unfold oil_fallback. cbn [values]. rewrite Forall_fmap. apply Forall_forall.
  intros k Hk. apply list_elem_of_In in Hk.
  assert (Hcheck : oil_check k = true)
    by (revert k Hk; apply forallb_forall; vm_compute; reflexivity).
  destruct (Hrandom k) as [Hlo Hhi].
  by apply oil_checked.
Qed.
End SyntheticBinary64.

Lemma table_lookup_bounds (table : list (float * float)) :
  forallb (fun p => PrimFloat.leb (-1) p.2 && PrimFloat.leb p.2 1) table = true ->
  forall x, PrimFloat.leb (-1) (table_lookup x table) = true /\
            PrimFloat.leb (table_lookup x table) 1 = true.
Proof.
  intros Hall x. induction table as [| [a v] table IH]; [by split |].
  cbn [forallb] in Hall. apply andb_true_iff in Hall as [Hv Hall].
  cbn [table_lookup]. destruct (PrimFloat.eqb x a); [| by apply IH].
  by apply andb_true_iff in Hv.
Qed.

Section OptionFacts.
Context {T : Type} `{Number T} `{MinMax T} `{Exp T} `{Rounding T}.

Lemma fetchOptionData_run (answer : reply (polygon_json T)) (now : Z)
    (underlying : string) (ls : localStorage T) :
  body answer ≫= option_chain underlying = None ->
  fetchOptionData answer now underlying ls
  = (let cached := loadFromCache ("optionData:" +:+ underlying) ls in
     if truthy cached then cached else option_sample underlying, ls).
Proof. unfold fetchOptionData. by intros ->. Qed.

Lemma option_sample_lengths (underlying : string) :
  length (sample_strikes underlying) = 9%nat /\ length (sample_iv underlying) = 9%nat /\
  length sample_oi = 9%nat /\ length sample_delta = 9%nat /\ length sample_gamma = 9%nat /\
  length sample_theta = 9%nat /\ length sample_vega = 9%nat.
Proof.
  unfold sample_strikes, sample_iv, sample_oi, sample_delta, sample_gamma, sample_theta,
    sample_vega, sample_points.
  by rewrite !length_fmap, length_seq.
Qed.
End OptionFacts.

Lemma option_sample_binary64 (underlying : string) :
  let positive_number := fun v : float => isFinite v = true /\ (of_Z 0 <?! v) = true in
  Forall positive_number (sample_strikes underlying) /\
  Forall positive_number (sample_iv underlying) /\
  Forall positive_number sample_oi.
Proof.
  unfold sample_strikes, sample_iv.
  destruct (String.eqb underlying "TSLA"); vm_compute; repeat constructor.
Qed.

Section OptionChain.
Context {T : Type} `{Number T} `{MinMax T} `{Exp T} `{Rounding T}.

Lemma grouped_nil (results : list (contract T)) :
  omap (fun item => (fun exp => (exp, item)) <$> expiry item) results = []
  <-> Forall (fun item => expiry item = None) results.
Proof.
  induction results as [| item results IH]; [by split |].
  cbn [omap list_omap]. destruct (expiry item) as [exp |] eqn:E; cbn.
  - split; [done |]. intros Hall. apply Forall_cons in Hall as [Hn _]. congruence.
  - rewrite IH. split; [by constructor |]. intros Hall. by apply Forall_cons in Hall as [_ ?].
Qed.

Lemma grouped_inherited (results : list (contract T)) :
  existsb (fun entry : string * contract T => bool_decide (entry.1 ∈ inherited))
          (omap (fun item => (fun exp => (exp, item)) <$> expiry item) results) = true
  <-> Exists (fun item => exists exp, expiry item = Some exp /\ exp ∈ inherited) results.
Proof.
  induction results as [| item results IH].
  - cbn. split; [done | by intros ?%Exists_nil].
  - cbn [omap list_omap]. rewrite Exists_cons, <- IH.
    destruct (expiry item) as [exp |] eqn:E; cbn.
    + rewrite orb_true_iff, bool_decide_eq_true. split.
      * intros [Hin | Hrest]; [left; by exists exp | by right].
      * intros [(exp' & [= <-] & Hin) | Hrest]; [by left | by right].
    + split; [by right |]. by intros [(exp' & [=] & _) | Hrest].
Qed.

(** The [try] block throws exactly when there are no results, when an
    expiry names an inherited property, or when no result has an expiry. *)
Lemma option_chain_throws (underlying : string) (json : polygon_json T) :
  option_chain underlying json = None
  <-> match polygon_results json with
      | None => True
      | Some results =>
          results = []
          \/ Exists (fun item => exists exp, expiry item = Some exp /\ exp ∈ inherited) results
          \/ Forall (fun item => expiry item = None) results
      end.
Proof.
  unfold option_chain. destruct (polygon_results json) as [results |]; [cbn | done].
  destruct results as [| item results]; [by split; [left |] |].
  cbn [length Nat.eqb]. set (rs := item :: results).
  rewrite <- grouped_inherited, <- grouped_nil.
  assert (Hne : rs <> []) by done.
  set (grouped := omap _ rs). clearbody grouped rs.
  destruct (existsb _ grouped) eqn:Hinh.
  { split; [by right; left | done]. }
  pose proof (js_sort_length (fun a b => String.ltb b a) grouped.*1) as Hlen.
  destruct (js_sort _ grouped.*1) as [| nearest expiries] eqn:Hsort; cbn.
  - rewrite length_fmap in Hlen. destruct grouped; [| done].
    split; [by right; right | done].
  - split; [done |]. intros [? | [? | Hnil]]; [done.. |].
    rewrite Hnil in Hlen. done.
Qed.
End OptionChain.

(** C2, as written, fails on the code.  With its provider down and no
    cache entry, [fetchOilPriceSeries] returns a synthetic series of 365
    labels, not 30; and [fetchEquitySeries], with both providers down,
    returns its synthetic series although the cache holds a series for
    the symbol. *)
Lemma fetchOilPriceSeries_synthetic_365 :
  let w : world float :=
    {| alpaca := fun _ => Rejected; alphavantage := fun _ => Rejected;
       eia := fun _ => Rejected; twelvedata := fun _ => Rejected;
       Date_now := 1700000000000; Math_random := fun _ => 0.5%float |} in
  let st := {| storage := {| items := ∅; available := true |}; requests := [] |} in
  let cached : series float := {| labels := ["2024-01-02"]; values := [470.5%float] |} in
  let st' := {| storage := saveToCache "equity:SPY" (series_to_js cached) 1700000000000
                             (storage st);
                requests := [] |} in
  (fetchOilPriceSeries w st).1 = series_to_js (oil_fallback w) /\
  length (labels (oil_fallback w)) = 365%nat /\
  (365 =? 30)%nat = false /\
  loadFromCache "equity:SPY" (storage st') = series_to_js cached /\
  (fetchEquitySeries (H0 := table_sin) w "SPY" st').1 = sample (H0 := table_sin) "SPY".
Proof. vm_compute. repeat split; reflexivity. Qed.

(** [fetchEquitySeries] does not consult the cache: whatever it holds,
    the synthetic series is returned when both providers fail. *)
Lemma fetchEquitySeries_ignores_cache {T : Type} `{Number T} `{Trig T}
    (w : world T) (st : state T) (symbol : string) :
  body (alpaca w symbol) ≫= alpaca_series = None ->
  body (alphavantage w symbol) ≫= alphavantage_series = None ->
  (fetchEquitySeries w symbol st).1 = sample symbol.
Proof. intros Ha Hav. by rewrite fetchEquitySeries_run, Ha, Hav. Qed.

(** C2, amended.  No fetch raises an error.  When both providers fail,
    [fetchEquitySeries] returns its synthetic series of 30 labels and
    values, whatever the cache holds.  When its provider fails,
    [fetchOilPriceSeries] returns the cached entry unmodified if it is
    truthy and otherwise a synthetic series of 365 labels and values;
    [fetchOptionData] returns the cached entry of the underlying
    unmodified if it is truthy and otherwise a synthetic option chain of
    nine strikes.  In binary64 every value of the two synthetic series is
    finite and greater than 0, for every [Math.sin] with results between
    -1 and 1 and all [Math.random()] results in [0, 1), and so are the
    strikes, the implied volatilities and the open interests of the
    synthetic chain; the two series are positive in exact arithmetic as
    well. *)
Theorem fallback_when_providers_fail :
  (forall (T : Type) (N : Number T) (G : Trig T) (w : world T) (st : state T) (symbol : string),
      body (alpaca w symbol) ≫= alpaca_series = None ->
      body (alphavantage w symbol) ≫= alphavantage_series = None ->
      fetchEquitySeries w symbol st
      = (sample symbol,
         {| storage := storage st;
            requests := requests st ++ [AlpacaBars symbol; AlphaVantageDaily symbol] |})) /\
  (forall (T : Type) (N : Number T) (w : world T) (st : state T),
      body (eia w "PET.RWTC.D") ≫= eia_series = None ->
      let cached := loadFromCache "oilPriceSeries" (storage st) in
      fetchOilPriceSeries w st
      = (if truthy cached then cached else series_to_js (oil_fallback w),
         {| storage := storage st;
            requests := requests st ++ [EIASeries "PET.RWTC.D"] |})) /\
  (forall (T : Type) (N : Number T) (X : MinMax T) (E : Exp T) (F : Rounding T)
          (answer : reply (polygon_json T)) (now : Z) (underlying : string)
          (ls : localStorage T),
      body answer ≫= option_chain underlying = None ->
      let cached := loadFromCache ("optionData:" +:+ underlying) ls in
      fetchOptionData answer now underlying ls
      = (if truthy cached then cached else option_sample underlying, ls)) /\
  (forall (T : Type) (N : Number T) (G : Trig T) (w : world T) (symbol : string),
      length (labels (sample symbol)) = 30%nat /\
      length (values (sample symbol)) = 30%nat /\
      length (labels (oil_fallback w)) = 365%nat /\
      length (values (oil_fallback w)) = 365%nat) /\
  (forall (T : Type) (N : Number T) (X : MinMax T) (F : Rounding T) (underlying : string),
      length (sample_strikes underlying) = 9%nat /\
      length (sample_iv underlying) = 9%nat /\
      length sample_oi = 9%nat) /\
  (forall (sin64 : float -> float) (symbol : string),
      (forall x, PrimFloat.leb (-1) (sin64 x) = true /\ PrimFloat.leb (sin64 x) 1 = true) ->
      Forall (fun v : float => isFinite v = true /\ (of_Z 0 <?! v) = true)
             (values (sample (H0 := {| Math_sin := sin64 |}) symbol))) /\
  (forall w : world float,
      (forall k, PrimFloat.leb 0 (Math_random w k) = true /\
                 PrimFloat.ltb (Math_random w k) 1 = true) ->
      Forall (fun v : float => isFinite v = true /\ (of_Z 0 <?! v) = true)
             (values (oil_fallback w))) /\
  (forall underlying : string,
      Forall (fun v : float => isFinite v = true /\ (of_Z 0 <?! v) = true)
             (sample_strikes underlying) /\
      Forall (fun v : float => isFinite v = true /\ (of_Z 0 <?! v) = true)
             (sample_iv underlying) /\
      Forall (fun v : float => isFinite v = true /\ (of_Z 0 <?! v) = true) sample_oi) /\
  (forall symbol : string, Forall (fun v : R => (0 < v)%R) (values (sample symbol))) /\
  (forall w : world R,
      (forall k, (0 <= Math_random w k < 1)%R) ->
      Forall (fun v : R => (0 < v)%R) (values (oil_fallback w))).
Proof.
  split; [| split; [| split; [| split; [| split; [| split; [| split; [| split; [| split]]]]]]]].
  - intros T N G w st symbol Ha Hav. by rewrite fetchEquitySeries_run, Ha, Hav.
  - intros T N w st He. by rewrite fetchOilPriceSeries_run, He.
  - intros T N X E F answer now underlying ls Hfail. by apply fetchOptionData_run.
  - intros T N G w symbol. destruct (sample_length symbol), (oil_fallback_length w). auto.
  - intros T N X F underlying.
    unfold sample_strikes, sample_iv, sample_oi, sample_points.
    by rewrite !length_fmap, length_seq.
  - intros sin64 symbol. apply sample_binary64.
  - apply oil_fallback_binary64.
  - apply option_sample_binary64.
  - apply sample_positive.
  - apply oil_fallback_positive.
Qed.

Lemma fallback_when_providers_fail_witness :
  let w : world float :=
    {| alpaca := fun _ => Rejected; alphavantage := fun _ => Rejected;
       eia := fun _ => Rejected; twelvedata := fun _ => Rejected;
       Date_now := 1700000000000; Math_random := fun k => of_nat (k mod 8) /! of_Z 8 |} in
  let st := {| storage := {| items := ∅; available := true |}; requests := [] |} in
  (fetchEquitySeries (H0 := table_sin) w "SPY" st).1 = sample (H0 := table_sin) "SPY" /\
  (fetchOilPriceSeries w st).1 = series_to_js (oil_fallback w) /\
  (fetchOptionData (T := R) Rejected 1700000000000 "TSLA"
                   {| items := ∅; available := true |}).1 = option_sample "TSLA" /\
  Forall (fun v : float => isFinite v = true /\ (of_Z 0 <?! v) = true)
         (values (sample (H0 := table_sin) "SPY")) /\
  Forall (fun v : float => isFinite v = true /\ (of_Z 0 <?! v) = true)
         (values (oil_fallback w)).
Proof.
  intros w st.
  destruct fallback_when_providers_fail
    as (Heq & Heia & Hopt & _ & _ & Hsample & Hoil & _ & _ & _).
  split; [by rewrite (Heq float _ table_sin w st "SPY") |].
  split; [by rewrite (Heia float _ w st) |].
  split; [by rewrite (Hopt R _ _ real_exp _ Rejected) |].
  split.
  - apply (Hsample (fun x => table_lookup x sines) "SPY").
    apply table_lookup_bounds. vm_compute. reflexivity.
  - apply Hoil. intros k. cbn [Math_random w].
    assert (Hk : (k mod 8 < 8)%nat) by (apply Nat.mod_upper_bound; lia).
    destruct (k mod 8)%nat as [|[|[|[|[|[|[|[|n]]]]]]]]; try lia; vm_compute; done.
Defined.

(** * Further properties *)

(** ** The cache as a store of JSON images *)

Lemma cache_key_inj (key key' : string) : cache_key key = cache_key key' -> key = key'.
Proof. unfold cache_key. apply (inj _). Qed.

Lemma json_value_series {T : Type} `{Number T} (s : series T) :
  json_value (series_to_js s)
  = Some (JObj [("labels", JArr (JStr <$> labels s));
                ("values", JArr (json_number <$> values s))]).
Proof.
  unfold series_to_js. cbn [json_value]. rewrite <- !list_fmap_compose.
  do 3 f_equal.
Qed.

Lemma load_save_same {T : Type} `{Number T}
    (key : string) (data : jsval T) (now : Z) (ls : localStorage T) :
  available ls = true ->
  loadFromCache key (saveToCache key data now ls) = default JUndefined (json_value data).
Proof.
  intros Hav. unfold saveToCache, loadFromCache, setItem, getItem, JSON_stringify.
  rewrite Hav. cbn [available items]. rewrite lookup_insert_eq. cbn.
  destruct (json_value data); by destruct (isFinite (of_Z now)).
Qed.

Lemma load_save_other {T : Type} `{Number T}
    (key key' : string) (data : jsval T) (now : Z) (ls : localStorage T) :
  key' <> key ->
  loadFromCache key' (saveToCache key data now ls) = loadFromCache key' ls.
Proof.
  intros Hne. unfold saveToCache, loadFromCache, setItem, getItem.
  destruct (available ls) eqn:Hav; [| by rewrite Hav].
  cbn [available items]. rewrite lookup_insert_ne; [done |].
  intros Heq. by apply Hne, cache_key_inj.
Qed.

Lemma load_unavailable {T : Type} `{Number T} (key : string) (ls : localStorage T) :
  available ls = false -> loadFromCache key ls = JNull.
Proof. intros Hav. unfold loadFromCache, getItem. by rewrite Hav. Qed.

(** X1.  The cache helpers make [localStorage] a store of JSON images: a
    read after [saveToCache key data] returns, under the same key, the
    value that the text [JSON.stringify(data)] denotes ([undefined] when
    there is none), and under any other key what was there before.  With
    the storage disabled every read returns [null]; no call throws. *)
Theorem loadFromCache_saveToCache {T : Type} `{Number T}
    (key key' : string) (data : jsval T) (now : Z) (ls : localStorage T) :
  loadFromCache key' (saveToCache key data now ls)
  = if available ls
    then if decide (key' = key)
         then default JUndefined (json_value data)
         else loadFromCache key' ls
    else JNull.
Proof.
  destruct (available ls) eqn:Hav.
  - destruct (decide (key' = key)) as [-> | Hne].
    + by apply load_save_same.
    + by apply load_save_other.
  - apply load_unavailable. unfold saveToCache, setItem. by rewrite Hav.
Qed.

Section JsonImage.
Context {T : Type} `{Number T}.

Lemma jsval_nested_ind (P : jsval T -> Prop) :
  P JUndefined -> P JNull -> (forall b, P (JBool b)) -> (forall x, P (JNum x)) ->
  (forall s, P (JStr s)) ->
  (forall elements, Forall P elements -> P (JArr elements)) ->
  (forall fields, Forall (fun kv => P kv.2) fields -> P (JObj fields)) ->
  forall v, P v.
Proof.
  intros Hu Hn Hb Hx Hs Ha Ho.
  fix IH 1. intros [| | b | x | s | elements | fields].
  - exact Hu.
  - exact Hn.
  - apply Hb.
  - apply Hx.
  - apply Hs.
  - apply Ha. induction elements as [| e elements IHl]; constructor; [apply IH | exact IHl].
  - apply Ho. induction fields as [| [k e] fields IHl]; constructor; [apply IH | exact IHl].
Qed.

Lemma json_value_JObj (fields : list (string * jsval T)) :
  json_value (JObj fields) = Some (JObj (json_members fields)).
Proof.
  cbn [json_value]. do 2 f_equal. unfold json_members.
  induction fields as [| [k e] fields IH]; [done |].
  cbn [omap list_omap]. rewrite <- IH. by destruct (json_value e).
Qed.

(** The arithmetic that the next lemma needs: 0 is finite and equal to
    itself.  Both instances have it. *)
Hypothesis zero_finite : isFinite (of_Z 0 : T) = true.
Hypothesis zero_eqb : ((of_Z 0 : T) =?! of_Z 0) = true.

Lemma json_number_image (x : T) : json_value (json_number x) = Some (json_number x).
Proof.
  unfold json_number. destruct (isFinite x) eqn:Hfin; [| done].
  cbn [json_value]. destruct (x =?! of_Z 0) eqn:H0.
  - by rewrite zero_finite, zero_eqb.
  - by rewrite Hfin, H0.
Qed.

(** A value denoted by a JSON text is written by [JSON.stringify] as it
    is. *)
Lemma json_value_image (v j : jsval T) : json_value v = Some j -> json_value j = Some j.
Proof.
  revert j. induction v as [| | b | x | s | elements IH | fields IH] using jsval_nested_ind;
    intros j Hj; try (by inversion Hj).
  - cbn [json_value] in Hj. inversion_clear Hj. apply json_number_image.
  - cbn [json_value] in Hj. inversion_clear Hj. cbn [json_value].
    rewrite <- list_fmap_compose. do 2 f_equal.
    apply Forall_fmap_ext_1. eapply Forall_impl; [exact IH |].
    intros e He. cbn. destruct (json_value e) as [j' |] eqn:Hje; cbn; [| done].
    by rewrite (He j').
  - rewrite json_value_JObj in Hj. inversion_clear Hj.
    rewrite json_value_JObj. do 2 f_equal.
    induction IH as [| [k e] fields He _ IHf]; [done |].
    unfold json_members in *. cbn [omap list_omap].
    destruct (json_value e) as [j' |] eqn:Hje; cbn [fmap option_fmap option_map]; [| done].
    cbn [omap list_omap]. cbn in He. rewrite (He j') by done. cbn. by rewrite IHf.
Qed.
End JsonImage.

(** X2.  What the cache returns is stable: the value read back after a
    save can be saved again, under any key and in any available storage,
    and is then read back unchanged.  (The first round trip may change
    the value: a NaN in a series comes back as [null].) *)
Theorem cached_value_stable {T : Type} `{Number T}
    (key key' : string) (data : jsval T) (now now' : Z) (ls ls' : localStorage T) :
  isFinite (of_Z 0 : T) = true ->
  ((of_Z 0 : T) =?! of_Z 0) = true ->
  available ls = true ->
  available ls' = true ->
  let cached := loadFromCache key (saveToCache key data now ls) in
  loadFromCache key' (saveToCache key' cached now' ls') = cached.
Proof.
  intros Hfin Heq Hav Hav' cached. subst cached.
  rewrite !load_save_same by done.
  destruct (json_value data) as [j |] eqn:Hj; [| done].
  change (default JUndefined (Some j)) with j.
  by rewrite (json_value_image Hfin Heq data j).
Qed.

Lemma cached_value_stable_witness :
  let ls : localStorage float := {| items := ∅; available := true |} in
  let data := series_to_js {| labels := ["2024-01-02"; "2024-01-03"];
                              values := [nan; (-0)%float] |} in
  let cached := loadFromCache "oilPriceSeries" (saveToCache "oilPriceSeries" data 1 ls) in
  cached = JObj [("labels", JArr [JStr "2024-01-02"; JStr "2024-01-03"]);
                 ("values", JArr [JNull; JNum 0%float])] /\
  loadFromCache "gasPriceSeries" (saveToCache "gasPriceSeries" cached 2 ls) = cached.
Proof.
  intros ls data cached. split; [reflexivity |].
  apply (cached_value_stable "oilPriceSeries" "gasPriceSeries" data 1 2 ls ls); reflexivity.
Defined.

(** ** The oil and gas fetches and their cache entries *)

Section EnergyFetch.
Context {T : Type} `{Number T}.

Lemma fetchGasPriceSeries_run (w : world T) (st : state T) :
  fetchGasPriceSeries w st
  = let requests := requests st ++ [EIASeries "NG.RNGWHHD.D"] in
    match body (eia w "NG.RNGWHHD.D") ≫= eia_series with
    | Some s =>
        (series_to_js s,
         {| storage := saveToCache "gasPriceSeries" (series_to_js s) (Date_now w) (storage st);
            requests := requests |})
    | None =>
        let cached := loadFromCache "gasPriceSeries" (storage st) in
        (if truthy cached then cached else series_to_js (gas_fallback w),
         {| storage := storage st; requests := requests |})
    end.
Proof.
  unfold fetchGasPriceSeries, bind, http. cbn.
  by destruct (body (eia w "NG.RNGWHHD.D") ≫= eia_series).
Qed.
End EnergyFetch.

(** X3.  A stale series is served from the cache.  When a call of
    [fetchOilPriceSeries] obtains a series from the provider and a later
    call finds the provider down, the later call returns the earlier
    series as JSON wrote it: the same labels, and the values with NaN and
    the infinities replaced by [null].  The later call sends one request
    and leaves the storage as it was. *)
Theorem fetchOilPriceSeries_serves_stale {T : Type} `{Number T}
    (w1 w2 : world T) (st : state T) (s : series T) :
  available (storage st) = true ->
  body (eia w1 "PET.RWTC.D") ≫= eia_series = Some s ->
  body (eia w2 "PET.RWTC.D") ≫= eia_series = None ->
  let first := fetchOilPriceSeries w1 st in
  let second := fetchOilPriceSeries w2 first.2 in
  first.1 = series_to_js s /\
  second.1 = JObj [("labels", JArr (JStr <$> labels s));
                   ("values", JArr (json_number <$> values s))] /\
  storage second.2 = storage first.2 /\
  requests second.2 = requests st ++ [EIASeries "PET.RWTC.D"; EIASeries "PET.RWTC.D"].
Proof.
  intros Hav H1 H2 first second. subst first second.
  rewrite (fetchOilPriceSeries_run w1), H1. cbn [fst snd].
  rewrite (fetchOilPriceSeries_run w2), H2. cbn [fst snd storage requests].
  rewrite load_save_same by done.
  rewrite json_value_series. cbn [default truthy].
  repeat split. by rewrite <- app_assoc.
Qed.

Lemma fetchOilPriceSeries_serves_stale_witness :
  let up : world float :=
    {| alpaca := fun _ => Rejected; alphavantage := fun _ => Rejected;
       eia := fun _ => Body {| response_data :=
                Some [ {| period := "2024-01-03"; value := nan |};
                       {| period := "2024-01-02"; value := 72.5%float |} ] |};
       twelvedata := fun _ => Rejected;
       Date_now := 1700000000000; Math_random := fun _ => 0.5%float |} in
  let down : world float :=
    {| alpaca := fun _ => Rejected; alphavantage := fun _ => Rejected;
       eia := fun _ => Rejected; twelvedata := fun _ => Rejected;
       Date_now := 1700000001000; Math_random := fun _ => 0.5%float |} in
  let st := {| storage := {| items := ∅; available := true |}; requests := [] |} in
  (fetchOilPriceSeries down (fetchOilPriceSeries up st).2).1
  = JObj [("labels", JArr [JStr "2024-01-02"; JStr "2024-01-03"]);
          ("values", JArr [JNum 72.5%float; JNull])].
Proof.
  intros up down st.
  destruct (fetchOilPriceSeries_serves_stale up down st
              {| labels := ["2024-01-02"; "2024-01-03"]; values := [72.5%float; nan] |})
    as (_ & Hsecond & _); [reflexivity | reflexivity | reflexivity |].
  exact Hsecond.
Defined.

(** X4.  The two price fetches do not disturb each other's cache entry:
    whatever the provider answers, [fetchGasPriceSeries] leaves the read
    of ['oilPriceSeries'] as it was, and [fetchOilPriceSeries] the read of
    ['gasPriceSeries']. *)
Theorem oil_and_gas_caches_independent {T : Type} `{Number T} (w : world T) (st : state T) :
  loadFromCache "oilPriceSeries" (storage (fetchGasPriceSeries w st).2)
  = loadFromCache "oilPriceSeries" (storage st) /\
  loadFromCache "gasPriceSeries" (storage (fetchOilPriceSeries w st).2)
  = loadFromCache "gasPriceSeries" (storage st).
Proof.
  rewrite fetchGasPriceSeries_run, fetchOilPriceSeries_run. cbn zeta.
  split.
  - destruct (body (eia w "NG.RNGWHHD.D") ≫= eia_series); [| done].
    cbn [snd storage]. by apply load_save_other.
  - destruct (body (eia w "PET.RWTC.D") ≫= eia_series); [| done].
    cbn [snd storage]. by apply load_save_other.
Qed.

(** X5.  With the provider down and no usable cache entry,
    [fetchGasPriceSeries] returns its synthetic series without touching
    the storage: 365 labels and 365 values, each value, in exact
    arithmetic and for every sequence of [Math.random()] results in
    [0, 1), strictly between 2.35 and 4.48. *)
Theorem fetchGasPriceSeries_synthetic (w : world R) (st : state R) :
  (forall k, (0 <= Math_random w k < 1)%R) ->
  body (eia w "NG.RNGWHHD.D") ≫= eia_series = None ->
  truthy (loadFromCache "gasPriceSeries" (storage st)) = false ->
  fetchGasPriceSeries w st
  = (series_to_js (gas_fallback w),
     {| storage := storage st; requests := requests st ++ [EIASeries "NG.RNGWHHD.D"] |}) /\
  length (labels (gas_fallback w)) = 365%nat /\
  length (values (gas_fallback w)) = 365%nat /\
  Forall (fun v : R => (2.35 < v < 4.48)%R) (values (gas_fallback w)).
Proof.
  intros Hrandom Heia Hcache. rewrite fetchGasPriceSeries_run, Heia. cbn zeta.
  rewrite Hcache. split; [done |].
  unfold gas_fallback. cbn [labels values]. rewrite !length_fmap, length_seq.
  do 2 (split; [done |]).
  rewrite Forall_fmap. apply Forall_forall. intros k _. cbn.
  unfold decimal, of_nat. real_ops. rewrite <- !INR_IZR_INZ.
  change (10 ^ Z.of_nat 3)%Z with 1000%Z. change (10 ^ Z.of_nat 1)%Z with 10%Z.
  destruct (Hrandom k) as [Hlo Hhi].
  assert (Hi : (INR (364 - k) <= 364)%R).
  { replace 364%R with (INR 364) by (rewrite INR_IZR_INZ; reflexivity).
    apply le_INR. lia. }
  pose proof (pos_INR (364 - k)) as Hpos.
  lra.
Qed.

Lemma fetchGasPriceSeries_synthetic_witness :
  let w : world R :=
    {| alpaca := fun _ => Rejected; alphavantage := fun _ => Rejected;
       eia := fun _ => Rejected; twelvedata := fun _ => Rejected;
       Date_now := 1700000000000; Math_random := fun _ => 0%R |} in
  let st := {| storage := {| items := ∅; available := true |}; requests := [] |} in
  (fetchGasPriceSeries w st).1 = series_to_js (gas_fallback w) /\
  Forall (fun v : R => (2.35 < v < 4.48)%R) (values (gas_fallback w)).
Proof.
  intros w st.
  destruct (fetchGasPriceSeries_synthetic w st) as (Hrun & _ & _ & Hvalues).
  - intros k. cbn. lra.
  - reflexivity.
  - reflexivity.
  - rewrite Hrun. split; [reflexivity | exact Hvalues].
Defined.

(** ** From prices to returns *)

Section PipelineFacts.
Context {T : Type} `{Number T}.

Lemma toReturns_cons (prev curr : option T) (rest : list (option T)) :
  toReturns (prev :: curr :: rest)
  = match prev, curr with
    | Some p, Some c => ((c -! p) /! p) :: toReturns (curr :: rest)
    | _, _ => toReturns (curr :: rest)
    end.
Proof. by destruct prev, curr. Qed.

Lemma list_find_None_all (series : list (option T)) :
  list_find is_Some series = None -> (fun _ : option T => @None T) <$> series = series.
Proof.
  intros Hnone. apply list_find_None in Hnone.
  induction Hnone as [| v series Hv _ IH]; [done |].
  cbn. rewrite IH. f_equal. destruct v; [| done]. destruct Hv. by eexists.
Qed.
End PipelineFacts.

(** X6.  The rebasing of [fetchHistoryData] and
    [renderPortfolioPerformance] guards the base that [normalize]
    divides by unchecked: with a first present value that is 0 or NaN the
    whole series becomes [null], and otherwise the result is the one of
    [normalize].  A series without a present value is returned as it is. *)
Theorem normalized_guards_base {T : Type} `{Number T} (series : list (option T)) :
  normalized series
  = match list_find is_Some series with
    | Some (_, Some base) =>
        if truthy (JNum base) then normalize series
        else (fun _ => None) <$> series
    | _ => series
    end.
Proof.
  unfold normalized, normalize.
  destruct (list_find is_Some series) as [[baseIndex [base |]] |] eqn:Hfind.
  - destruct (truthy (JNum base)); apply list_fmap_ext; by intros i [v |].
  - apply list_find_Some in Hfind as (_ & [v Hv] & _). discriminate Hv.
  - rewrite <- (list_find_None_all series Hfind) at 2.
    apply list_fmap_ext. intros i v Hi.
    apply list_find_None in Hfind. rewrite Forall_forall in Hfind.
    destruct v as [v |]; [| done].
    exfalso. apply (Hfind (Some v)); [by eapply list_elem_of_lookup_2 | by eexists].
Qed.

(** X7.  The statistics panel and the risk-return chart compute the same
    two numbers: for a series with at least one return, [computeStats]
    yields the annualised return and the annualised volatility that
    [renderPortfolioStats] computes from the returns of that series, in
    binary64 as in exact arithmetic. *)
Theorem computeStats_agrees {T : Type} `{Number T} (series : list (option T)) :
  toReturns series <> [] ->
  computeStats series
  = (PortfolioStats.annualisedReturn (toReturns series),
     PortfolioStats.annualisedVol (toReturns series)).
Proof.
  intros Hne. unfold computeStats, PortfolioStats.annualisedReturn,
    PortfolioStats.annualisedVol, PortfolioStats.volatility, PortfolioStats.variance,
    PortfolioStats.meanDaily.
  destruct (toReturns series) as [| r returns]; [done |].
  reflexivity.
Qed.

Lemma computeStats_agrees_witness :
  let series := [Some 100%float; None; Some 101%float; Some 99%float] in
  length (toReturns series) = 1%nat /\
  computeStats series
  = (PortfolioStats.annualisedReturn (toReturns series),
     PortfolioStats.annualisedVol (toReturns series)).
Proof.
  intros series. split; [reflexivity |].
  apply (computeStats_agrees series). discriminate.
Defined.

Section PipelineReal.
Local Open Scope R_scope.

Lemma toReturns_rescale (b : R) (series : list (option R)) :
  b <> 0 -> Forall (fun v => v <> Some 0) series ->
  toReturns ((fun v : option R => (fun x => x / b * 100) <$> v) <$> series)
  = toReturns series.
Proof.
  intros Hb. induction series as [| prev series IH]; intros Hall; [done |].
  destruct series as [| curr rest]; [done |].
  inversion_clear Hall as [| ? ? Hprev Hrest].
  specialize (IH Hrest). rewrite !fmap_cons in *. rewrite !toReturns_cons.
  destruct prev as [p |], curr as [c |]; cbn [fmap option_fmap option_map] in *;
    try exact IH.
  f_equal; [| exact IH].
  real_ops. field. split; [| done]. intros ->. by apply Hprev.
Qed.

Lemma truthy_real (x : R) : truthy (JNum x) = true <-> x <> 0.
Proof.
  cbn. destruct (Req_dec_T x 0) as [-> | Hne]; cbn; split; done.
Qed.

Lemma normalized_real (series : list (option R)) :
  Forall (fun v => v <> Some 0) series ->
  exists b, b <> 0 /\
    match list_find is_Some series with
    | Some (_, Some base) => b = base
    | _ => b = 1
    end /\
    normalized series = (fun v : option R => (fun x => x / b * 100) <$> v) <$> series.
Proof.
  intros Hall. unfold normalized.
  destruct (list_find is_Some series) as [[baseIndex [base |]] |] eqn:Hfind.
  - assert (Hbase : base <> 0).
    { apply list_find_Some in Hfind as (Hlook & _).
      rewrite Forall_forall in Hall. intros ->.
      apply (Hall (Some 0)); [by eapply list_elem_of_lookup_2 | done]. }
    exists base. repeat split; [done |].
    apply truthy_real in Hbase. rewrite Hbase. apply list_fmap_ext. by intros i [v |].
  - apply list_find_Some in Hfind as (_ & [v Hv] & _). discriminate Hv.
  - exists 1. repeat split; [lra |].
    assert (Htruthy : truthy (JNum (of_Z 1 : R)) = true) by (apply truthy_real; cbn; lra).
    rewrite Htruthy. apply list_fmap_ext. by intros i [v |].
Qed.
Lemma list_find_rescale (b : R) (series : list (option R)) :
  let g (v : option R) : option R := (fun x => x / b * 100) <$> v in
  list_find is_Some (g <$> series)
  = prod_map (@Datatypes.id nat) g <$> list_find is_Some series.
Proof.
  intros g. rewrite list_find_fmap. f_equal. apply list_find_ext. intros v. cbn.
  unfold g. by rewrite fmap_is_Some.
Qed.

Lemma totalReturn_rescale (series : list (option R)) :
  Forall (fun v => v <> Some 0) series ->
  totalReturn (normalized series) = totalReturn series.
Proof.
  intros Hall. destruct (normalized_real series Hall) as (b & Hb & Hbase & ->).
  unfold totalReturn. rewrite <- fmap_reverse, !list_find_rescale.
  destruct (list_find is_Some series) as [[i [start |]] |] eqn:Hstart; [| done | done].
  subst b. cbn [fmap option_fmap option_map prod_map fst snd id].
  destruct (list_find is_Some (reverse series)) as [[j [end_ |]] |] eqn:Hend; [| done | done].
  cbn [fmap option_fmap option_map prod_map fst snd id].
  apply list_find_Some in Hend as (Hend & _).
  apply list_elem_of_lookup_2 in Hend. rewrite elem_of_reverse in Hend.
  rewrite Forall_forall in Hall.
  assert (Hend0 : end_ <> 0) by (intros ->; by apply (Hall (Some 0))).
  assert (Hstart' : start / start * 100 <> 0).
  { replace (start / start * 100) with 100 by (by field). lra. }
  assert (Hend' : end_ / start * 100 <> 0).
  { intros Hz. apply Hend0.
    replace end_ with (end_ / start * 100 * (start / 100)) by (by field).
    rewrite Hz. ring. }
  rewrite (proj2 (truthy_real _) Hb), (proj2 (truthy_real _) Hend0),
    (proj2 (truthy_real _) Hstart'), (proj2 (truthy_real _) Hend').
  cbn [andb]. real_ops. by field.
Qed.
End PipelineReal.

(** X8.  In exact arithmetic the returns do not depend on the rebasing:
    for a series whose present values are all non-zero, the daily returns
    of the rebased series are the daily returns of the prices, and so are
    the total return, the figures of [computeStats] and the correlation
    matrix computed from them. *)
Theorem returns_of_normalized (series : list (option R)) (datasets : list (list (option R))) :
  Forall (fun v => v <> Some 0%R) series ->
  Forall (Forall (fun v => v <> Some 0%R)) datasets ->
  toReturns (normalized series) = toReturns series /\
  totalReturn (normalized series) = totalReturn series /\
  computeStats (normalized series) = computeStats series /\
  returnsMatrix (normalized <$> datasets) = returnsMatrix datasets.
Proof.
  intros Hall Hdatasets.
  assert (Hret : forall s, Forall (fun v => v <> Some 0%R) s ->
                           toReturns (normalized s) = toReturns s).
  { intros s Hs. destruct (normalized_real s Hs) as (b & Hb & _ & ->).
    by apply toReturns_rescale. }
  split; [by apply Hret |]. split; [by apply totalReturn_rescale |]. split.
  - unfold computeStats. by rewrite Hret.
  - unfold returnsMatrix. f_equal. rewrite <- list_fmap_compose.
    apply Forall_fmap_ext_1. eapply Forall_impl; [exact Hdatasets |].
    intros s Hs. by apply Hret.
Qed.

Lemma returns_of_normalized_witness :
  toReturns (normalized [Some 50%R; None; Some 60%R; Some 75%R])
  = toReturns [Some 50%R; None; Some 60%R; Some 75%R].
Proof.
  apply (returns_of_normalized [Some 50%R; None; Some 60%R; Some 75%R] []).
  - repeat constructor; intros [= Heq]; lra.
  - constructor.
Defined.

(** ** Beta against the benchmark *)

Section BetaReal.
Local Open Scope R_scope.

Lemma fold_mean_step_scaled (k : R) (b : list R) (c : R) :
  fold_left mean_step (zip (Rmult k <$> b) b) (k * c, c)
  = (k * fold_left Rplus b c, fold_left Rplus b c).
Proof.
  revert c. induction b as [| y b IH]; intros c; [done |].
  cbn. real_ops. rewrite <- IH. do 2 f_equal. ring.
Qed.

Lemma fold_beta_step_scaled (k m : R) (b : list R) (c : R) :
  let s := fold_left (fun acc r => acc +! pow2 (r -! m)) b c in
  fold_left (beta_step (k * m) m) (zip (Rmult k <$> b) b) (k * c, c) = (k * s, s).
Proof.
  revert c. induction b as [| y b IH]; intros c; [done |].
  cbn. unfold pow2. real_ops. rewrite <- IH. do 2 f_equal. ring.
Qed.
End BetaReal.

(** X9.  In exact arithmetic the beta that [renderPortfolioStats] computes
    is linear in the asset: an asset whose daily returns are [k] times the
    returns of the benchmark has beta [k], unless the variance of the
    benchmark returns is 0, where the code takes 1.  In particular the
    benchmark, which is one of the averaged tickers, has beta 1 against
    itself. *)
Theorem beta_of_scaled_benchmark (k : R) (benchmarkReturns : list R) :
  beta (Rmult k <$> benchmarkReturns) benchmarkReturns
  = (if PortfolioStats.variance benchmarkReturns =?! 0%R then 1%R else k) /\
  beta benchmarkReturns benchmarkReturns = 1%R.
Proof.
  assert (Hscaled : forall k : R,
    beta (Rmult k <$> benchmarkReturns) benchmarkReturns
    = if PortfolioStats.variance benchmarkReturns =?! 0%R then 1%R else k).
  { clear k. intros k. unfold beta, PortfolioStats.variance, PortfolioStats.meanDaily.
    rewrite length_fmap, Nat.min_id.
    replace (of_Z 0 : R, of_Z 0 : R) with ((k * 0)%R, 0%R)
      by (cbn; f_equal; ring).
    rewrite fold_mean_step_scaled.
    destruct (0 <? length benchmarkReturns)%nat eqn:Hn.
    - set (sum := fold_left Rplus benchmarkReturns 0%R).
      set (n := of_nat (length benchmarkReturns)).
      assert (Hn0 : n <> 0%R).
      { unfold n. rewrite real_of_nat. apply not_0_INR.
        apply Nat.ltb_lt in Hn. lia. }
      replace ((k * sum)%R /! n) with (k * (sum /! n))%R by (real_ops; by field).
      rewrite fold_beta_step_scaled. cbv zeta.
      change (fold_left (fun acc r : R => acc +! r) benchmarkReturns (of_Z 0)) with sum.
      change (of_Z 0 : R) with 0%R.
      set (s := fold_left _ benchmarkReturns 0%R). clearbody s sum n.
      real_ops. destruct (Req_dec_T (s / n) 0) as [Hz | Hnz]; cbn [negb]; [done |].
      field. split; [done |]. intros ->. apply Hnz. unfold Rdiv. ring.
    - real_ops. by destruct (Req_dec_T 0 0). }
  split; [apply Hscaled |].
  specialize (Hscaled 1%R).
  replace (Rmult 1 <$> benchmarkReturns) with benchmarkReturns in Hscaled.
  - rewrite Hscaled. by destruct (_ =?! _).
  - rewrite <- (list_fmap_id benchmarkReturns) at 1.
    apply list_fmap_ext. intros i x _. cbn. ring.
Qed.

(** ** The daily returns of the portfolio *)

Section PortfolioReturnsReal.
Local Open Scope R_scope.

(** The return of day [i + 1] in a single series, 0 on a gap. *)
Lemma portfolioReturns_single (series : list (option R)) :
  portfolioReturns [series]
  = (fun i => match mjoin (series !! i), mjoin (series !! S i) with
              | Some prev, Some curr => (curr - prev) / prev
              | _, _ => 0
              end) <$> seq 0 (length series - 1).
Proof.
  unfold portfolioReturns. rewrite <- fmap_S_seq, <- list_fmap_compose.
  apply list_fmap_ext. intros _ i _. cbn. rewrite Nat.sub_0_r.
  destruct (mjoin (series !! i)) as [prev |]; [| done].
  destruct (mjoin (series !! S i)) as [curr |]; [| done].
  cbn. real_ops. change (IZR (Z.of_nat 1)) with 1.
  unfold Rdiv. rewrite Rinv_1. ring.
Qed.

Lemma toReturns_gap_free (prices : list R) :
  toReturns (Some <$> prices)
  = (fun i => match mjoin ((Some <$> prices) !! i), mjoin ((Some <$> prices) !! S i) with
              | Some prev, Some curr => (curr - prev) / prev
              | _, _ => 0
              end) <$> seq 0 (length (Some <$> prices) - 1).
Proof.
  induction prices as [| prev prices IH]; [done |].
  destruct prices as [| curr rest]; [done |].
  rewrite !fmap_cons in *. rewrite toReturns_cons, IH.
  cbn [length]. rewrite !Nat.sub_succ, !Nat.sub_0_r.
  cbn [seq]. rewrite fmap_cons. f_equal.
  rewrite <- fmap_S_seq, <- list_fmap_compose. by apply list_fmap_ext.
Qed.
End PortfolioReturnsReal.

(** X10.  [portfolioReturns] holds one entry for every day after the first
    of the first series.  For a portfolio of one series the entry is, in
    exact arithmetic, the return of that day, and 0 on a day with a
    missing price, which [toReturns] leaves out; so for a series without
    gaps the returns of the portfolio are the returns of the series. *)
Theorem portfolioReturns_one_per_day :
  (forall (T : Type) (N : Number T) (firstSeries : list (option T))
          (others : list (list (option T))),
      length (portfolioReturns (firstSeries :: others)) = (length firstSeries - 1)%nat) /\
  (forall (series : list (option R)) (i : nat), (S i < length series)%nat ->
      portfolioReturns [series] !! i
      = Some (match mjoin (series !! i), mjoin (series !! S i) with
              | Some prev, Some curr => ((curr - prev) / prev)%R
              | _, _ => 0%R
              end)) /\
  (forall prices : list R,
      portfolioReturns [Some <$> prices] = toReturns (Some <$> prices)).
Proof.
  split; [| split].
  - intros T N firstSeries others. unfold portfolioReturns.
    by rewrite length_fmap, length_seq.
  - intros series i Hi. rewrite portfolioReturns_single, list_lookup_fmap.
    rewrite lookup_seq_lt by lia. done.
  - intros prices. by rewrite portfolioReturns_single, toReturns_gap_free.
Qed.

(** ** The requests of the performance chart *)

Section PerformanceFacts.
Context {T : Type} `{Number T} `{Trig T}.

Lemma fetchEquitySeries_state (w : world T) (sym : string) (st : state T) :
  (fetchEquitySeries w sym st).2
  = {| storage := storage st; requests := requests st ++ equity_requests w sym |}.
Proof.
  rewrite fetchEquitySeries_run. unfold equity_requests.
  by destruct (body (alpaca w sym) ≫= alpaca_series).
Qed.

Lemma performance_series_run (w : world T) (sym : string) (st : state T) :
  performance_series w sym st
  = (Some (fetchEquitySeries w sym st).1, (fetchEquitySeries w sym st).2).
Proof.
  unfold performance_series, bind.
  by destruct (fetchEquitySeries w sym st) as [res st'].
Qed.

Lemma performance_round_state (w : world T) (tickers labels0 : list string)
    (sym : string) (st : state T) :
  (performance_round w tickers labels0 sym st).2
  = {| storage := storage st; requests := requests st ++ equity_requests w sym |}.
Proof.
  unfold performance_round, bind. rewrite performance_series_run.
  rewrite <- fetchEquitySeries_state.
  by destruct (0 <? length (values (fetchEquitySeries w sym st).1))%nat.
Qed.

Lemma performance_rounds_run (w : world T) (tickers labels0 rest : list string)
    (st : state T) :
  let run := performance_rounds w tickers labels0 rest st in
  run.2 = {| storage := storage st;
             requests := requests st ++ (rest ≫= equity_requests w) |} /\
  fst <$> run.1.2 = rest.
Proof.
  revert labels0 st. induction rest as [| sym rest IH]; intros labels0 st.
  - cbn. rewrite app_nil_r. by destruct st.
  - cbn [performance_rounds]. unfold bind.
    pose proof (performance_round_state w tickers labels0 sym st) as Hround.
    destruct (performance_round w tickers labels0 sym st) as [round st1].
    cbn [snd] in Hround. subst st1.
    match goal with |- context [performance_rounds w tickers ?l rest ?s] =>
      destruct (IH l s) as [Hstate Hkeys];
      destruct (performance_rounds w tickers l rest s) as [result st2]
    end.
    cbn [fst snd ret storage requests] in *. subst st2. split.
    + rewrite bind_cons, <- app_assoc. done.
    + rewrite fmap_cons. cbn [fst]. by rewrite Hkeys.
Qed.
End PerformanceFacts.

(** X11.  The Twelve Data fallback of [renderPortfolioPerformance] is dead
    code: [fetchEquitySeries] always returns a series object, so for every
    answer of the providers the loop sends, ticker by ticker, the Alpaca
    request and, only when Alpaca fails, the AlphaVantage request, and
    never a Twelve Data request; it does not touch the cache and assigns
    one dataset per ticker, in order. *)
Theorem performance_never_asks_twelve {T : Type} `{Number T} `{Trig T}
    (w : world T) (tickers : list string) (st : state T) :
  let run := performance_datasets w tickers st in
  storage run.2 = storage st /\
  requests run.2 = requests st ++ (tickers ≫= equity_requests w) /\
  (forall sym, TwelveTimeSeries sym ∈ requests run.2 -> TwelveTimeSeries sym ∈ requests st) /\
  fst <$> run.1.2 = tickers.
Proof.
  intros run. subst run. unfold performance_datasets.
  destruct (performance_rounds_run w tickers [] tickers st) as [Hstate Hkeys].
  rewrite Hstate. cbn [storage requests]. repeat split; [| exact Hkeys].
  intros sym. rewrite elem_of_app, list_elem_of_bind.
  intros [Hin | (t & Hin & _)]; [exact Hin |].
  unfold equity_requests in Hin.
  destruct (body (alpaca w t) ≫= alpaca_series);
    repeat (apply elem_of_cons in Hin as [Hin | Hin]; [discriminate Hin |]);
    by apply elem_of_nil in Hin.
Qed.

(** ** Drawdown and Value-at-Risk of the analytics dashboard *)

Section DrawdownReal.
Local Open Scope R_scope.
Local Abbreviation drawdown_step := (PortfolioAnalytics.drawdown_step (T := R)).

Lemma drawdown_step_real (cum peak dd r : R) :
  drawdown_step (cum, peak, dd) r
  = (cum + r, Rmax peak (cum + r), Rmax dd (Rmax peak (cum + r) - (cum + r))).
Proof.
  unfold PortfolioAnalytics.drawdown_step, num_gtb. real_ops.
  assert (Hpeak : (if (if Rlt_dec peak (cum + r) then true else false)
                   then cum + r else peak) = Rmax peak (cum + r)).
  { unfold Rmax. destruct (Rlt_dec peak (cum + r)), (Rle_dec peak (cum + r)); lra. }
  rewrite Hpeak. set (peak1 := Rmax peak (cum + r)). clearbody peak1. f_equal.
  unfold Rmax.
  destruct (Rlt_dec dd (peak1 - (cum + r))), (Rle_dec dd (peak1 - (cum + r))); lra.
Qed.

(** The loop keeps [cum <= peak] and [peak - cum <= maxDD], and [maxDD]
    never decreases. *)
Lemma drawdown_fold_invariant (l : list R) (cum peak dd : R) :
  cum <= peak -> peak - cum <= dd ->
  let '(cum', peak', dd') := fold_left drawdown_step l (cum, peak, dd) in
  cum' <= peak' /\ peak' - cum' <= dd' /\ dd <= dd' /\
  (forall r, r ∈ l -> - r <= dd').
Proof.
  revert cum peak dd. induction l as [| r l IH]; intros cum peak dd Hpeak Hdd.
  - cbn. repeat split; try lra. intros r Hr. by apply elem_of_nil in Hr.
  - cbn [fold_left]. rewrite drawdown_step_real.
    pose proof (Rmax_l peak (cum + r)) as Hp1.
    pose proof (Rmax_r peak (cum + r)) as Hp2.
    set (peak1 := Rmax peak (cum + r)) in *.
    pose proof (Rmax_l dd (peak1 - (cum + r))) as Hd1.
    pose proof (Rmax_r dd (peak1 - (cum + r))) as Hd2.
    set (dd1 := Rmax dd (peak1 - (cum + r))) in *.
    specialize (IH (cum + r) peak1 dd1 Hp2 Hd2).
    destruct (fold_left drawdown_step l (cum + r, peak1, dd1)) as [[cum' peak'] dd'].
    destruct IH as (H1 & H2 & H3 & H4). repeat split; try lra.
    intros x Hx. apply elem_of_cons in Hx as [-> | Hx]; [lra | by apply H4].
Qed.

(** On returns that are never negative the peak follows the cumulative
    return and no drawdown is recorded. *)
Lemma drawdown_fold_gains (l : list R) (cum : R) :
  Forall (fun r => 0 <= r) l ->
  let '(cum', peak', dd') := fold_left drawdown_step l (cum, cum, 0) in
  peak' = cum' /\ dd' = 0.
Proof.
  revert cum. induction l as [| r l IH]; intros cum Hl; [done |].
  inversion_clear Hl as [| ? ? Hr Hl'].
  cbn [fold_left]. rewrite drawdown_step_real.
  rewrite (Rmax_right cum (cum + r)) by lra.
  replace (cum + r - (cum + r)) with 0 by ring.
  rewrite (Rmax_left 0 0) by lra.
  by apply IH.
Qed.
End DrawdownReal.

(** X12.  In exact arithmetic the maximum drawdown of
    [setupPortfolioAnalytics] is never negative, is at least the loss of
    every single day, and is 0 when no daily return is negative. *)
Theorem maxDD_bounds (portfolioReturns : list R) :
  (0 <= PortfolioAnalytics.maxDD portfolioReturns)%R /\
  (forall r, r ∈ portfolioReturns -> (- r <= PortfolioAnalytics.maxDD portfolioReturns)%R) /\
  (Forall (fun r => (0 <= r)%R) portfolioReturns ->
   PortfolioAnalytics.maxDD portfolioReturns = 0%R).
Proof.
  unfold PortfolioAnalytics.maxDD.
  pose proof (drawdown_fold_invariant portfolioReturns 0 0 0) as Hinv.
  pose proof (drawdown_fold_gains portfolioReturns 0) as Hgains.
  change (of_Z 0 : R) with 0%R.
  destruct (fold_left _ portfolioReturns (0%R, 0%R, 0%R)) as [[cum peak] dd].
  cbn [snd]. destruct Hinv as (_ & _ & Hdd & Hloss); [lra | lra |].
  repeat split; [exact Hdd | exact Hloss |].
  intros Hall. by destruct (Hgains Hall).
Qed.

(** X13.  The Value-at-Risk figures are read off the return series: when
    [VaR] yields a number, it is the negated return of one of the days,
    times 100, in binary64 as in exact arithmetic; it is never
    interpolated between two returns. *)
Theorem VaR_is_a_return {T : Type} `{Number T} (p : T) (portfolioReturns : list T) (v : T) :
  PortfolioAnalytics.VaR p portfolioReturns = Some v ->
  exists r, r ∈ portfolioReturns /\ v = num_neg r *! of_Z 100.
Proof.
  unfold PortfolioAnalytics.VaR, PortfolioAnalytics.sortedReturns. intros Hv.
  destruct (PortfolioAnalytics.idx p _) as [i |]; [| discriminate Hv].
  cbn in Hv.
  destruct (js_sort PortfolioAnalytics.by_difference portfolioReturns !! i) as [r |] eqn:Hr;
    [| discriminate Hv].
  injection Hv as <-. exists r. split; [| reflexivity].
  apply list_elem_of_lookup_2 in Hr. by rewrite js_sort_perm in Hr.
Qed.

Lemma VaR_is_a_return_witness :
  exists r, r ∈ [0.5; -0.25; 0.125]%float /\
            0x1.9p+4%float = num_neg r *! of_Z 100.
Proof.
  apply (VaR_is_a_return (decimal 5 2) [0.5; -0.25; 0.125]%float 0x1.9p+4%float).
  vm_compute. reflexivity.
Defined.

(** ** Rows of different lengths in [correlationMatrix] *)

Section Ragged.
Context {T : Type} `{Number T}.


End Ragged.

Section RaggedEntries.
Context {T : Type} `{Number T}.


End RaggedEntries.



(** ** The series of the providers are chronological *)

Section SortedSort.
Context {A : Type} (gt : A -> A -> bool) (le : relation A).
Context `{!Transitive le}.
Hypothesis gt_true : forall a b, gt a b = true -> le b a.
Hypothesis gt_false : forall a b, gt a b = false -> le a b.

Lemma sort_insert_StronglySorted (x : A) (l : list A) :
  StronglySorted le l -> StronglySorted le (sort_insert gt x l).
Proof.
  induction 1 as [| y l Hl IH Hy]; cbn [sort_insert]; [repeat constructor |].
  destruct (gt x y) eqn:Hxy.
  - constructor; [exact IH |]. rewrite sort_insert_perm.
    constructor; [by apply gt_true | exact Hy].
  - apply gt_false in Hxy. constructor; [by constructor |].
    constructor; [exact Hxy |].
    eapply Forall_impl; [exact Hy |]. intros z Hz. by trans y.
Qed.

Lemma js_sort_StronglySorted (l : list A) : StronglySorted le (js_sort gt l).
Proof.
  induction l as [| x l IH]; cbn [js_sort foldr]; [constructor |].
  by apply sort_insert_StronglySorted.
Qed.
End SortedSort.

Lemma string_ltb_true (a b : string) : String.ltb b a = true -> String.le b a.
Proof.
  unfold String.le, String.leb, String.ltb.
  by destruct (String.compare b a).
Qed.

Lemma string_ltb_false (a b : string) : String.ltb b a = false -> String.le a b.
Proof.
  unfold String.le, String.leb, String.ltb.
  rewrite (String.compare_antisym a b). by destruct (String.compare b a).
Qed.

Lemma zip_fmap_same {A B C : Type} (f : A -> B) (g : A -> C) (l : list A) :
  zip (f <$> l) (g <$> l) = (fun x => (f x, g x)) <$> l.
Proof. induction l as [| x l IH]; [done |]. cbn. by rewrite <- IH. Qed.

(** X15.  The series that the oil and gas fetches build from an EIA
    response is the response in chronological order: the labels ascend,
    and the pairs of label and value are the pairs of period and value of
    the response, each as often as it occurs there; no point is dropped
    or invented. *)
Theorem eia_series_chronological {T : Type} `{Number T}
    (json : eia_json T) (data : list (eia_item T)) (s : series T) :
  response_data json = Some data ->
  eia_series json = Some s ->
  StronglySorted String.le (labels s) /\
  zip (labels s) (values s) ≡ₚ (fun item => (period item, value item)) <$> data /\
  length (labels s) = length data /\
  length (values s) = length data.
Proof.
  unfold eia_series. intros -> Hs. cbn in Hs.
  destruct (length data =? 0)%nat; [discriminate Hs |].
  injection Hs as <-. cbn [labels values].
  set (gt := fun a b : eia_item T => String.ltb (period b) (period a)).
  split; [| split].
  - apply (StronglySorted_fmap period (fun a b => String.le (period a) (period b))); [done |].
    apply (js_sort_StronglySorted gt).
    + intros a b c Hab Hbc. by trans (period b).
    + intros a b. apply string_ltb_true.
    + intros a b. apply string_ltb_false.
  - rewrite zip_fmap_same. by rewrite js_sort_perm.
  - by rewrite !length_fmap, js_sort_length.
Qed.

Lemma eia_series_chronological_witness :
  exists s : series float,
    eia_series {| response_data :=
                    Some [ {| period := "2024-01-03"; value := 73.25%float |};
                           {| period := "2024-01-02"; value := 72.5%float |} ] |} = Some s /\
    StronglySorted String.le (labels s) /\
    length (values s) = 2%nat.
Proof.
  eexists. split; [reflexivity |].
  destruct (eia_series_chronological
              {| response_data :=
                   Some [ {| period := "2024-01-03"; value := 73.25%float |};
                          {| period := "2024-01-02"; value := 72.5%float |} ] |}
              _ _ eq_refl eq_refl) as (Hsorted & _ & _ & Hlen).
  split; [exact Hsorted | exact Hlen].
Defined.

(** X16.  An accepted AlphaVantage series holds the latest dates of the
    response, at most 30 of them, in ascending order: the dates of the
    response are the labels together with older dates, none of which
    comes after a label. *)
Theorem alphavantage_series_latest {T : Type} `{Number T}
    (json : alpha_json T) (entries : list (string * T)) (s : series T) :
  time_series_daily json = Some entries ->
  alphavantage_series json = Some s ->
  length (labels s) = Nat.min 30 (length entries) /\
  StronglySorted String.le (labels s) /\
  exists older, fst <$> entries ≡ₚ older ++ labels s /\
                forall k d, k ∈ older -> d ∈ labels s -> String.le k d.
Proof.
  unfold alphavantage_series. intros -> Hs. cbn in Hs.
  destruct (mapM _ _) as [vs |]; [cbn in Hs | discriminate Hs].
  destruct (all_numbers vs); [| discriminate Hs].
  injection Hs as <-. cbn [labels].
  set (keys := js_sort (fun a b => String.ltb b a) (fst <$> entries)).
  assert (Hsorted : StronglySorted String.le keys).
  { apply js_sort_StronglySorted; [apply _ | apply string_ltb_true | apply string_ltb_false]. }
  assert (Hlen : length keys = length entries).
  { unfold keys. by rewrite js_sort_length, length_fmap. }
  rewrite <- (take_drop (length keys - 30) keys) in Hsorted.
  apply StronglySorted_app in Hsorted as (Hcross & _ & Hdrop).
  split; [rewrite length_drop; lia |]. split; [exact Hdrop |].
  exists (take (length keys - 30) keys). split; [| exact Hcross].
  rewrite take_drop. unfold keys. by rewrite js_sort_perm.
Qed.

Lemma alphavantage_series_latest_witness :
  exists s : series float,
    alphavantage_series
      {| time_series_daily := Some [("2024-01-03", 73.25%float); ("2024-01-02", 72.5%float)] |}
    = Some s /\
    length (labels s) = 2%nat /\
    StronglySorted String.le (labels s).
Proof.
  exists {| labels := ["2024-01-02"; "2024-01-03"]; values := [72.5; 73.25]%float |}.
  assert (Hs : alphavantage_series
                 {| time_series_daily :=
                      Some [("2024-01-03", 73.25%float); ("2024-01-02", 72.5%float)] |}
               = Some {| labels := ["2024-01-02"; "2024-01-03"];
                         values := [72.5; 73.25]%float |})
    by (vm_compute; reflexivity).
  split; [exact Hs |].
  destruct (alphavantage_series_latest
              {| time_series_daily :=
                   Some [("2024-01-03", 73.25%float); ("2024-01-02", 72.5%float)] |}
              _ _ eq_refl Hs) as (Hlen & Hsorted & _).
  split; [exact Hlen | exact Hsorted].
Defined.

(** ** The histogram of daily returns *)

Section HistogramFacts.
Context {T : Type} `{Number T} `{MinMax T}.

Lemma bin_index_lt (minVal size val : T) (idx : nat) :
  bin_index minVal size val = Some idx -> (idx < binCount)%nat.
Proof.
  unfold bin_index, binCount. destruct (Math_floor _) as [z |].
  - intros [= <-]. destruct (z <? 0)%Z eqn:Hneg; [lia |].
    destruct (Z.of_nat 10 <=? z)%Z eqn:Hbig; [lia |].
    apply Z.ltb_ge in Hneg. apply Z.leb_gt in Hbig. lia.
  - destruct (isNaN _); [discriminate |].
    destruct (_ <?! _); intros [= <-]; lia.
Qed.

Lemma sum_list_alter_S (idx : nat) (counts : list nat) :
  (idx < length counts)%nat -> sum_list (alter S idx counts) = S (sum_list counts).
Proof.
  revert idx. induction counts as [| c counts IH]; intros [| idx] Hidx; cbn in *; try lia.
  rewrite IH by lia. lia.
Qed.

Lemma histogram_fold_mono (minVal size : T) (returns : list T) (counts : list nat)
    (i n : nat) :
  counts !! i = Some n ->
  exists c', fold_left (count_step minVal size) returns counts !! i = Some c' /\ (n <= c')%nat.
Proof.
  revert counts n. induction returns as [| v returns IH]; intros counts n Hi.
  - exists n. by split.
  - cbn [fold_left]. unfold count_step at 2.
    destruct (bin_index minVal size v) as [k |]; [| by apply IH].
    destruct (decide (i = k)) as [-> | Hne].
    + destruct (IH (alter S k counts) (S n)) as (c' & Hc' & Hle).
      { by rewrite list_lookup_alter_eq, Hi. }
      exists c'. split; [exact Hc' | lia].
    + apply IH. by rewrite list_lookup_alter_ne.
Qed.

(** The loop over the returns keeps the ten bins and adds one to the
    total for every return that has a bin. *)
Lemma histogram_fold (minVal size : T) (returns : list T) (counts : list nat) :
  length counts = binCount ->
  let counts' := fold_left (count_step minVal size) returns counts in
  length counts' = binCount /\
  sum_list counts'
  = (sum_list counts
     + length (filter (fun val => is_Some (bin_index minVal size val)) returns))%nat /\
  forall idx val, val ∈ returns -> bin_index minVal size val = Some idx ->
                  exists c', counts' !! idx = Some (S c').
Proof.
  revert counts. induction returns as [| val returns IH]; intros counts Hlen.
  - cbn. repeat split; [exact Hlen | lia |].
    intros idx val Hval. by apply elem_of_nil in Hval.
  - cbn [fold_left]. rewrite filter_cons. unfold count_step at 2 4 6.
    destruct (bin_index minVal size val) as [idx |] eqn:Hidx.
    + pose proof (bin_index_lt _ _ _ _ Hidx) as Hlt.
      destruct (IH (alter S idx counts)) as (Hlen' & Hsum & Hbin);
        [by rewrite length_alter |].
      split; [exact Hlen' |]. split.
      * rewrite Hsum, sum_list_alter_S by lia.
        rewrite decide_True by (by eexists). cbn [length]. lia.
      * intros idx' val' Hval' Hidx'.
        apply elem_of_cons in Hval' as [-> | Hval']; [| by apply (Hbin idx' val')].
        rewrite Hidx in Hidx'. injection Hidx' as ->.
        destruct (lookup_lt_is_Some_2 counts idx') as [c Hc]; [lia |].
        destruct (histogram_fold_mono minVal size returns (alter S idx' counts) idx' (S c))
          as (c' & Hc' & Hle).
        { by rewrite list_lookup_alter_eq, Hc. }
        destruct c' as [| c']; [lia |]. by exists c'.
    + destruct (IH counts Hlen) as (Hlen' & Hsum & Hbin).
      split; [exact Hlen' |]. split.
      * rewrite Hsum. rewrite decide_False by (by intros [? [=]]). done.
      * intros idx' val' Hval' Hidx'.
        apply elem_of_cons in Hval' as [-> | Hval']; [congruence |].
        by apply (Hbin idx' val').
Qed.
End HistogramFacts.

Section HistogramReal.
Local Open Scope R_scope.

Lemma fold_Rmin_spec (returns : list R) (r : R) :
  fold_left Rmin returns r ∈ r :: returns /\
  Forall (fun v => fold_left Rmin returns r <= v) (r :: returns).
Proof.
  revert r. induction returns as [| v returns IH]; intros r.
  - cbn. split; [apply list_elem_of_here | constructor; [lra | constructor]].
  - cbn [fold_left]. destruct (IH (Rmin r v)) as [Hin Hle]. split.
    + apply elem_of_cons in Hin as [Heq | Hin]; [| by do 2 apply list_elem_of_further].
      rewrite Heq. unfold Rmin. destruct (Rle_dec r v);
        [apply list_elem_of_here | apply list_elem_of_further, list_elem_of_here].
    + apply Forall_cons in Hle as [Hmin Hrest].
      pose proof (Rmin_l r v). pose proof (Rmin_r r v).
      constructor; [cbv beta; lra |]. constructor; [cbv beta; lra | exact Hrest].
Qed.

Lemma fold_Rmax_spec (returns : list R) (r : R) :
  Forall (fun v => v <= fold_left Rmax returns r) (r :: returns).
Proof.
  revert r. induction returns as [| v returns IH]; intros r.
  - cbn. constructor; [lra | constructor].
  - cbn [fold_left]. specialize (IH (Rmax r v)).
    apply Forall_cons in IH as [Hmax Hrest].
    pose proof (Rmax_l r v). pose proof (Rmax_r r v).
    constructor; [cbv beta; lra |]. constructor; [cbv beta; lra | exact Hrest].
Qed.

Lemma bin_index_real (minVal size val : R) :
  exists idx, bin_index minVal size val = Some idx.
Proof. unfold bin_index. real_ops. by eexists. Qed.

Lemma bin_index_min (minVal size : R) : bin_index minVal size minVal = Some 0%nat.
Proof.
  unfold bin_index. real_ops.
  replace ((minVal - minVal) / size) with (INR 0) by (cbn; unfold Rdiv; ring).
  by rewrite Int_part_INR.
Qed.
End HistogramReal.

(** X17.  The histogram of [renderPortfolioHistogram] has ten bins.  In
    exact arithmetic, for series whose present values are all non-zero,
    every daily return is counted in exactly one of them, so that the
    counts add up to the number of returns, and the smallest return is
    counted in the first bin, which is therefore never empty.  In
    binary64 the counts add up to at most the number of returns: a
    return whose bin index is NaN is counted nowhere. *)
Theorem histogram_counts :
  (forall (datasets : list (list (option R))) (counts : list nat),
      Forall (Forall (fun v => v <> Some 0%R)) datasets ->
      histogram datasets = Some counts ->
      length counts = 10%nat /\
      sum_list counts = length (all_returns datasets) /\
      exists c, counts !! 0%nat = Some (S c)) /\
  (forall (datasets : list (list (option float))) (counts : list nat),
      histogram datasets = Some counts ->
      length counts = 10%nat /\
      (sum_list counts <= length (all_returns datasets))%nat).
Proof.
  split.
  - intros datasets counts _. unfold histogram.
    destruct (all_returns datasets) as [| r returns]; [discriminate |].
    set (minVal := fold_left Math_min returns r).
    set (size := binSize minVal _).
    intros Hcounts.
    assert (counts = fold_left (count_step minVal size) (r :: returns)
                       (replicate binCount 0%nat)) as -> by congruence.
    clear Hcounts.
    destruct (histogram_fold minVal size (r :: returns) (replicate binCount 0%nat))
      as (Hlen & Hsum & Hbin); [by rewrite length_replicate |].
    split; [exact Hlen |]. split.
    + rewrite Hsum, sum_list_replicate.
      assert (Hall : filter (fun val => is_Some (bin_index minVal size val)) (r :: returns)
                     = r :: returns).
      { generalize (r :: returns). intros l. induction l as [| val l IHl]; [done |].
        rewrite filter_cons_True, IHl; [done |].
        destruct (bin_index_real minVal size val) as [idx Hidx]. by eexists. }
      rewrite Hall. lia.
    + apply (Hbin 0%nat minVal); [| apply bin_index_min].
      apply (fold_Rmin_spec returns r).
  - intros datasets counts. unfold histogram.
    destruct (all_returns datasets) as [| r returns]; [discriminate |].
    set (minVal := fold_left Math_min returns r).
    set (size := binSize minVal _).
    intros Hcounts.
    assert (counts = fold_left (count_step minVal size) (r :: returns)
                       (replicate binCount 0%nat)) as -> by congruence.
    clear Hcounts.
    destruct (histogram_fold minVal size (r :: returns) (replicate binCount 0%nat))
      as (Hlen & Hsum & _); [by rewrite length_replicate |].
    split; [exact Hlen |].
    rewrite Hsum, sum_list_replicate.
    pose proof (length_filter (fun val => is_Some (bin_index minVal size val)) (r :: returns)).
    lia.
Qed.

Lemma histogram_counts_witness :
  exists counts,
    histogram [[Some 100; None; Some 110; Some 121]; [Some 50; Some 40]]%R = Some counts /\
    length counts = 10%nat /\ sum_list counts = 2%nat.
Proof.
  destruct histogram_counts as [Hreal _].
  set (datasets := [[Some 100; None; Some 110; Some 121]; [Some 50; Some 40]]%R).
  assert (Hnz : Forall (Forall (fun v => v <> Some 0%R)) datasets)
    by (repeat constructor; intros [= Heq]; lra).
  destruct (histogram datasets) as [counts |] eqn:Hh; [| discriminate Hh].
  exists counts. split; [reflexivity |].
  destruct (Hreal datasets counts Hnz Hh) as (Hlen & Hsum & _).
  split; [exact Hlen |]. rewrite Hsum. reflexivity.
Defined.

(** In binary64 a single 0/0 among the returns empties the histogram: the
    minimum is NaN, and with it every bin index. *)
Example histogram_nan :
  all_returns [[Some 0%float; Some 0%float; Some 1%float]; [Some 2%float; Some 3%float]]
  = [nan; infinity; 0.5%float] /\
  histogram [[Some 0%float; Some 0%float; Some 1%float]; [Some 2%float; Some 3%float]]
  = Some (replicate 10 0%nat).
Proof. vm_compute. split; reflexivity. Qed.

(** ** The synthetic portfolio of the analytics dashboard *)

Section SyntheticPortfolioReal.
Local Open Scope R_scope.
Variable random : nat -> R.
Hypothesis random_range : forall k, 0 <= random k < 1.

Lemma drift_bounds (start j : nat) : -0.008 <= drift random start j <= 0.012.
Proof.
  unfold drift, decimal. real_ops.
  change (10 ^ Z.of_nat 1)%Z with 10%Z. change (10 ^ Z.of_nat 2)%Z with 100%Z.
  destruct (random_range (start + j)). lra.
Qed.

Lemma holdings_weights (next : nat) (ws : list R) (prices : list (option R)) :
  length ws = length prices -> weight <$> holdings random next ws prices = ws.
Proof.
  revert next ws. induction prices as [| p prices IH]; intros next [| w ws] Hlen;
    try done.
  cbn [holdings]. destruct p as [p |]; rewrite fmap_cons; cbn [weight];
    (rewrite IH; [done | by injection Hlen]).
Qed.

Lemma fold_sum_div (t : R) (xs : list R) (c : R) :
  fold_left Rplus ((fun w => w / t) <$> xs) (c / t) = fold_left Rplus xs c / t.
Proof.
  revert c. induction xs as [| x xs IH]; intros c; [done |].
  cbn. rewrite <- IH. f_equal. unfold Rdiv. ring.
Qed.

Lemma fold_sum_nonneg (xs : list R) (c : R) :
  0 <= c -> Forall (fun x => 0 <= x) xs -> c <= fold_left Rplus xs c.
Proof.
  revert c. induction xs as [| x xs IH]; intros c Hc Hxs; [cbn; lra |].
  inversion_clear Hxs as [| ? ? Hx Hxs']. cbn.
  etrans; [| apply IH; [lra | exact Hxs']]. lra.
Qed.

(** The weighted sum of one day lies between the bounds of the drifts,
    scaled by the sum of the weights. *)
Lemma fold_weighted_bounds (d : nat) (hs : list (holding R)) (value W : R) :
  Forall (fun h => 0 <= weight h) hs ->
  -0.008 * W <= value <= 0.012 * W ->
  let value' := fold_left (fun value h => value +! drift random (first_draw h) d *! weight h)
                          hs value in
  let W' := fold_left Rplus (weight <$> hs) W in
  -0.008 * W' <= value' <= 0.012 * W'.
Proof.
  revert value W. induction hs as [| h hs IH]; intros value W Hws Hvalue; [exact Hvalue |].
  inversion_clear Hws as [| ? ? Hw Hws']. cbn [fold_left fmap list_fmap].
  apply IH; [exact Hws' |]. real_ops.
  pose proof (drift_bounds (first_draw h) d) as Hd. nra.
Qed.
End SyntheticPortfolioReal.

(** X18.  The return series that [setupPortfolioAnalytics] analyses always
    has 60 entries, whatever the watchlist holds.  In exact arithmetic,
    for [Math.random()] results in [0, 1) that are not all 0 for the
    weights, the weights add up to 1 and every portfolio return lies
    between -0.8% and +1.2%, the bounds of the synthetic daily drift. *)
Theorem syntheticReturns_bounds (random : nat -> R) (prices : list (option R)) :
  (forall k, (0 <= random k < 1)%R) ->
  fold_left Rplus (random <$> seq 0 (length prices)) 0%R <> 0%R ->
  length (syntheticReturns random prices) = 60%nat /\
  fold_left Rplus (randWeights random (length prices)) 0%R = 1%R /\
  Forall (fun r => (-0.008 <= r <= 0.012)%R) (syntheticReturns random prices).
Proof.
  intros Hrandom Htotal.
  assert (Hraw : Forall (fun x => (0 <= x)%R) (random <$> seq 0 (length prices))).
  { rewrite Forall_fmap. apply Forall_forall. intros k _. apply Hrandom. }
  pose proof (fold_sum_nonneg _ 0%R (Rle_refl 0) Hraw) as Hpos.
  assert (Hsum : fold_left Rplus (randWeights random (length prices)) 0%R = 1%R).
  { unfold randWeights. real_ops.
    change (fold_left (fun a b : R => (a + b)%R)) with (fold_left Rplus).
    set (t := fold_left Rplus _ 0%R) in *.
    replace 0%R with (0 / t)%R at 1 by (unfold Rdiv; ring).
    rewrite fold_sum_div. fold t. by field. }
  assert (Hweights : Forall (fun w => (0 <= w)%R) (randWeights random (length prices))).
  { unfold randWeights. real_ops.
    change (fold_left (fun a b : R => (a + b)%R)) with (fold_left Rplus).
    set (t := fold_left Rplus _ 0%R) in *.
    rewrite Forall_fmap. eapply Forall_impl; [exact Hraw |].
    intros x Hx. cbn. apply Rmult_le_pos; [exact Hx |].
    left. apply Rinv_0_lt_compat. lra. }
  split; [| split; [exact Hsum |]].
  - unfold syntheticReturns. by rewrite length_fmap, length_seq.
  - unfold syntheticReturns. rewrite Forall_fmap. apply Forall_forall. intros d _.
    set (hs := holdings random _ _ prices).
    assert (Hhs : weight <$> hs = randWeights random (length prices)).
    { apply holdings_weights. unfold randWeights. by rewrite !length_fmap, length_seq. }
    pose proof (fold_weighted_bounds random Hrandom d hs 0 0) as Hbounds.
    rewrite Hhs, Hsum in Hbounds. cbn. cbn in Hbounds.
    assert (Hw : Forall (fun h => (0 <= weight h)%R) hs).
    { rewrite <- Hhs in Hweights. by rewrite Forall_fmap in Hweights. }
    specialize (Hbounds Hw). lra.
Qed.

Lemma syntheticReturns_bounds_witness :
  let random : nat -> R := fun k => (1 / 2)%R in
  length (syntheticReturns random [None; Some 100%R]) = 60%nat /\
  Forall (fun r => (-0.008 <= r <= 0.012)%R) (syntheticReturns random [None; Some 100%R]).
Proof.
  intros random.
  destruct (syntheticReturns_bounds random [None; Some 100%R]) as (Hlen & _ & Hall).
  - intros k. unfold random. lra.
  - unfold random. cbn. lra.
  - split; [exact Hlen | exact Hall].
Defined.

(** ** Synthetic candles *)

Section CandlesReal.
Local Open Scope R_scope.

Lemma candle_well_formed (random : nat -> R) (base : R) (i : nat) :
  (forall k, 0 <= random k < 1) -> well_formed (candle random base i).
Proof.
  intros Hrandom. unfold candle, well_formed, decimal. real_ops.
  change (10 ^ Z.of_nat 1)%Z with 10%Z.
  set (open := base + (random (4 * i)%nat - 5 / 10) * 5).
  set (close := open + (random (4 * i + 1)%nat - 5 / 10) * 5).
  pose proof (Rmax_l open close). pose proof (Rmax_r open close).
  pose proof (Rmin_l open close). pose proof (Rmin_r open close).
  assert (Hspread : Rmax open close - Rmin open close <= 2.5).
  { destruct (Hrandom (4 * i + 1)%nat).
    unfold Rmax, Rmin. destruct (Rle_dec open close); unfold close in *; lra. }
  destruct (Hrandom (4 * i + 2)%nat), (Hrandom (4 * i + 3)%nat).
  change (Math_min open close) with (Rmin open close).
  change (Math_max open close) with (Rmax open close).
  repeat split; lra.
Qed.

Lemma candles_well_formed (random : nat -> R) (base : R) (i n : nat) :
  (forall k, 0 <= random k < 1) ->
  length (candles random base i n) = n /\
  Forall well_formed (candles random base i n).
Proof.
  intros Hrandom. revert base i. induction n as [| n IH]; intros base i; [by split |].
  cbn [candles]. destruct (IH (candle random base i).2 (S i)) as [Hlen Hall].
  split; [cbn [length]; by rewrite Hlen |].
  constructor; [by apply candle_well_formed | exact Hall].
Qed.
End CandlesReal.

(** X19.  The fallback of [fetchOHLC] returns 30 candles.  In exact
    arithmetic, for [Math.random()] results in [0, 1), every candle is
    well formed: its low is not above its open and close, its high not
    below them, and its range is less than 8.5. *)
Theorem generateSample_well_formed (random : nat -> R) :
  (forall k, (0 <= random k < 1)%R) ->
  length (generateSample random) = 30%nat /\
  Forall (fun y => let '(open, high, low, close) := y in
                   (low <= open <= high /\ low <= close <= high /\ high - low < 8.5)%R)
         (generateSample random).
Proof. intros Hrandom. by apply candles_well_formed. Qed.

Lemma generateSample_well_formed_witness :
  length (generateSample (fun _ => (1 / 4)%R)) = 30%nat.
Proof.
  apply (generateSample_well_formed (fun _ => (1 / 4)%R)). intros k. lra.
Defined.

(** ** The points of the oil chart *)

Section SampledFacts.
Context {A B : Type}.

Lemma omap_imap_sublist {C : Type} (g : nat * A -> option C) (p : C -> A)
    (h : nat -> nat) (l : list A) :
  (forall i x c, g (i, x) = Some c -> p c = x) ->
  p <$> omap g (imap (fun i x => (h i, x)) l) `sublist_of` l.
Proof.
  intros Hg. revert h. induction l as [| x l IH]; intros h; [done |].
  rewrite imap_cons. cbn [omap list_omap].
  destruct (g (h 0%nat, x)) as [c |] eqn:Hc.
  - rewrite fmap_cons, (Hg _ _ _ Hc). apply sublist_skip, (IH (h ∘ S)).
  - apply sublist_cons, (IH (h ∘ S)).
Qed.

Lemma omap_imap_elem_of {C : Type} (g : nat * A -> option C) (l : list A) (c : C) :
  c ∈ omap g (imap pair l) -> exists i x, l !! i = Some x /\ g (i, x) = Some c.
Proof.
  rewrite list_elem_of_omap. intros ([i x] & Hin & Hg).
  apply list_elem_of_lookup_1 in Hin as [j Hj].
  rewrite list_lookup_imap in Hj.
  destruct (l !! j) as [y |] eqn:Hy; [| discriminate Hj].
  injection Hj as <- <-. by exists j, y.
Qed.
End SampledFacts.

(** X20.  The oil chart always shows the newest price.  For a range of at
    least one day and a series that is not empty, the points drawn by
    [renderEnergyCharts] are a subsequence of the series that begins with
    the first point of the range and ends with the last point of the
    series, and every point carries the value found at the index of its
    label. *)
Theorem sampled_keeps_ends {A B : Type} (days : Z) (labels : list A) (values : list B) :
  (1 <= days)%Z -> labels <> [] ->
  let points := sampled days labels values in
  fst <$> points `sublist_of` labels /\
  head (fst <$> points) = labels !! Z.to_nat (Z.max 0 (Z.of_nat (length labels) - days)) /\
  last (fst <$> points) = last labels /\
  forall lab v, (lab, v) ∈ points -> exists i, labels !! i = Some lab /\ v = values !! i.
Proof.
  intros Hdays Hne points. subst points. unfold sampled.
  set (start := Z.to_nat (Z.max 0 (Z.of_nat (length labels) - days))).
  set (sliced := drop start labels).
  set (k := Nat.max 1 (length sliced / 12)).
  set (g := fun '(idx, lab) =>
              if ((idx mod k =? 0) || (idx =? length sliced - 1))%nat
              then Some (lab, drop start values !! idx) else None).
  assert (Hlen : (0 < length labels)%nat) by (destruct labels; [done | cbn; lia]).
  assert (Hstart : (start < length labels)%nat) by (unfold start; lia).
  assert (Hg : forall i x c, g (i, x) = Some c -> c.1 = x).
  { intros i x c. cbn. destruct (_ || _); [| discriminate]. by intros [= <-]. }
  split; [| split; [| split]].
  - trans sliced; [| apply sublist_drop].
    apply (omap_imap_sublist g fst (fun i => i) sliced Hg).
  - replace (labels !! start) with (sliced !! 0%nat)
      by (unfold sliced; by rewrite lookup_drop, Nat.add_0_r).
    destruct sliced as [| x rest] eqn:Hsliced.
    { apply (f_equal length) in Hsliced. unfold sliced in Hsliced.
      rewrite length_drop in Hsliced. cbn in Hsliced. lia. }
    rewrite imap_cons. cbn [omap list_omap]. unfold g at 1.
    rewrite Nat.Div0.mod_0_l. cbn [Nat.eqb orb]. done.
  - destruct (last sliced) as [z |] eqn:Hz.
    2:{ apply last_None in Hz. apply (f_equal length) in Hz. unfold sliced in Hz.
        rewrite length_drop in Hz. cbn in Hz. lia. }
    assert (Hlast : last labels = Some z).
    { rewrite <- (take_drop start labels). fold sliced. apply last_app_Some.
      by left. }
    rewrite Hlast. apply last_Some in Hz as [init Hinit].
    rewrite Hinit, imap_app, omap_app, fmap_app. cbn [imap omap list_omap].
    assert (Hgz : g ((length init + 0)%nat, z)
                  = Some (z, drop start values !! (length init + 0)%nat)).
    { cbn. replace (length init + 0 =? length sliced - 1)%nat with true.
      - by rewrite orb_true_r.
      - symmetry. apply Nat.eqb_eq. rewrite Hinit, length_app. cbn. lia. }
    rewrite Hgz. cbn. apply last_snoc.
  - intros lab v Hin. apply omap_imap_elem_of in Hin as (i & x & Hi & Hgi).
    cbn in Hgi. destruct (_ || _); [| discriminate Hgi]. injection Hgi as -> <-.
    exists (start + i)%nat. unfold sliced in Hi. rewrite lookup_drop in Hi.
    split; [exact Hi | by rewrite lookup_drop].
Qed.

Lemma sampled_keeps_ends_witness :
  fst <$> sampled 3 ["a"; "b"; "c"; "d"; "e"] [1%Z; 2%Z; 3%Z; 4%Z; 5%Z]
    `sublist_of` ["a"; "b"; "c"; "d"; "e"] /\
  last (fst <$> sampled 3 ["a"; "b"; "c"; "d"; "e"] [1%Z; 2%Z; 3%Z; 4%Z; 5%Z]) = Some "e".
Proof.
  destruct (sampled_keeps_ends 3 ["a"; "b"; "c"; "d"; "e"] [1%Z; 2%Z; 3%Z; 4%Z; 5%Z])
    as (Hsub & _ & Hlast & _); [lia | discriminate |].
  split; [exact Hsub | exact Hlast].
Defined.

(** ** The energy mix *)

Section EnergyReal.
Local Open Scope R_scope.

Lemma fold_Rplus_shift (l : list R) (c : R) : fold_left Rplus l c = c + fold_left Rplus l 0.
Proof.
  revert c. induction l as [| x l IH]; intros c; cbn; [ring |].
  rewrite (IH (c + x)), (IH (0 + x)). ring.
Qed.

Lemma fold_Rplus_perm (l1 l2 : list R) :
  l1 ≡ₚ l2 -> fold_left Rplus l1 0 = fold_left Rplus l2 0.
Proof.
  induction 1 as [| x l1 l2 _ IH | x y l | l1 l2 l3 _ IH1 _ IH2]; cbn.
  - done.
  - rewrite (fold_Rplus_shift l1), (fold_Rplus_shift l2), IH. done.
  - rewrite (fold_Rplus_shift l (0 + y + x)), (fold_Rplus_shift l (0 + x + y)). ring.
  - by rewrite IH1.
Qed.

Lemma fold_Rplus_scale (k : R) (l : list R) (c : R) :
  fold_left Rplus ((fun v => v * k) <$> l) (c * k) = fold_left Rplus l c * k.
Proof.
  revert c. induction l as [| x l IH]; intros c; [done |].
  cbn. rewrite <- IH. f_equal. ring.
Qed.

Lemma by_share_true (a b : string * R) : by_share a b = true -> a.2 <= b.2.
Proof. unfold by_share, num_gtb. rewrite real_ltb_true. real_ops. lra. Qed.

Lemma by_share_false (a b : string * R) : by_share a b = false -> b.2 <= a.2.
Proof.
  unfold by_share, num_gtb. intros Hf.
  destruct (Rle_lt_dec b.2 a.2) as [| Hlt]; [assumption | exfalso].
  assert (Ht : (of_Z 0 <?! b.2 -! a.2) = true) by (apply real_ltb_true; real_ops; lra).
  congruence.
Qed.

(** The value that [dominant_step] compares, in exact arithmetic. *)
Lemma dominant_value (lastIdx : nat) (series : list R) :
  match series !! lastIdx with
  | Some v => if truthy (JNum v) then v else of_Z 0
  | None => of_Z 0
  end = default 0 (series !! lastIdx).
Proof.
  destruct (series !! lastIdx) as [v |]; [| done]. cbn.
  destruct (Req_dec_T v 0) as [-> | Hne]; done.
Qed.

Lemma dominant_fold (lastIdx : nat) (datasets : list (string * list R)) :
  let val (series : list R) := default 0 (series !! lastIdx) in
  match fold_left (dominant_step lastIdx) datasets (None, None) with
  | (Some maxVal, Some fuel) =>
      (exists series, (fuel, series) ∈ datasets /\ val series = maxVal) /\
      Forall (fun entry => val entry.2 <= maxVal) datasets
  | (None, None) => datasets = []
  | _ => False
  end.
Proof.
  intros val. induction datasets as [| [fuel series] datasets IH] using rev_ind; [done |].
  rewrite fold_left_app. cbn [fold_left].
  destruct (fold_left (dominant_step lastIdx) datasets (None, None)) as [[maxVal |] [best |]];
    try done; unfold dominant_step; rewrite dominant_value; fold (val series);
    cbn [fst]; real_ops.
  - destruct IH as [(s & Hs & Hval) Hall].
    unfold num_gtb. real_ops. destruct (Rlt_dec maxVal (val series)) as [Hlt | Hge].
    + split.
      * exists series. split; [| done]. apply elem_of_app. right. apply list_elem_of_here.
      * apply Forall_app. split.
        -- eapply Forall_impl; [exact Hall |]. intros e He. cbn in He. lra.
        -- constructor; [cbn; lra | constructor].
    + split.
      * exists s. split; [| done]. apply elem_of_app. by left.
      * apply Forall_app. split; [exact Hall |].
        constructor; [cbn; lra | constructor].
  - subst datasets. cbn [orb]. split.
    + exists series. split; [| done]. apply list_elem_of_here.
    + constructor; [cbn; lra | constructor].
Qed.
End EnergyReal.

(** X21.  In exact arithmetic the shares of the energy-mix donut belong
    to the fuels of the data, one each, are drawn in descending order and
    add up to 100, or to 0 when the last values of the fuels add up to 0
    and the total defaults to 1. *)
Theorem sortedShares_total (datasets : list (string * list R)) :
  let total := fold_left Rplus (lastValues datasets) 0%R in
  sortedShares datasets ≡ₚ shares datasets /\
  fst <$> shares datasets = fst <$> datasets /\
  StronglySorted (fun a b => (b.2 <= a.2)%R) (sortedShares datasets) /\
  fold_left Rplus (snd <$> sortedShares datasets) 0%R
  = (if total =?! 0%R then 0%R else 100%R).
Proof.
  intros total.
  assert (Hperm : sortedShares datasets ≡ₚ shares datasets) by apply js_sort_perm.
  split; [exact Hperm |]. split; [| split].
  - unfold shares.
    by rewrite fst_zip by (unfold lastValues; rewrite !length_fmap; lia).
  - apply js_sort_StronglySorted.
    + intros a b c Hab Hbc. lra.
    + intros a b. apply by_share_true.
    + intros a b. apply by_share_false.
  - rewrite (fold_Rplus_perm _ _ (fmap_Permutation snd _ _ Hperm)).
    unfold shares.
    rewrite snd_zip by (unfold lastValues; rewrite !length_fmap; lia).
    change (fold_left (fun sum v : R => sum +! v) (lastValues datasets) (of_Z 0)) with total.
    real_ops. cbn [truthy]. real_ops. rewrite orb_false_r.
    destruct (Req_dec_T total 0) as [Hz | Hnz]; cbn [negb].
    + rewrite (list_fmap_ext _ (fun v => v * 100)%R (lastValues datasets))
        by (intros i v _; cbn; field).
      replace 0%R with (0 * 100)%R at 1 by ring.
      rewrite fold_Rplus_scale. fold total. rewrite Hz. ring.
    + rewrite (list_fmap_ext _ (fun v => v * (100 / total))%R (lastValues datasets))
        by (intros i v _; cbn; by field).
      replace 0%R with (0 * (100 / total))%R at 1 by ring.
      rewrite fold_Rplus_scale. fold total. by field.
Qed.

(** X22.  In exact arithmetic the dominant fuel of [renderEnergyStats] is
    a fuel of the data whose value in the last period, 0 when it is
    missing, is not below that of any other fuel; it is [null] only when
    there are no labels or no fuels. *)
Theorem dominantFuel_is_maximal (labels : list string) (datasets : list (string * list R)) :
  labels <> [] -> datasets <> [] ->
  let val (series : list R) := default 0%R (series !! (length labels - 1)%nat) in
  exists fuel series,
    dominantFuel labels datasets = Some fuel /\
    (fuel, series) ∈ datasets /\
    Forall (fun entry => (val entry.2 <= val series)%R) datasets.
Proof.
  intros Hlabels Hdatasets val. unfold dominantFuel.
  destruct labels as [| lab labels]; [done |]. cbn [length Nat.ltb Nat.leb].
  pose proof (dominant_fold (length (lab :: labels) - 1) datasets) as Hfold.
  cbn [length] in *.
  destruct (fold_left _ datasets (None, None)) as [[maxVal |] [fuel |]]; try done.
  destruct Hfold as [(series & Hin & Hval) Hall].
  exists fuel, series. split; [done |]. split; [exact Hin |].
  unfold val. by rewrite Hval.
Qed.

Lemma dominantFuel_is_maximal_witness :
  exists fuel series,
    dominantFuel ["2023-12"; "2024-01"] [("NG", [210; 230]%R); ("SUN", [20]%R)] = Some fuel /\
    (fuel, series) ∈ [("NG", [210; 230]%R); ("SUN", [20]%R)].
Proof.
  destruct (dominantFuel_is_maximal ["2023-12"; "2024-01"]
              [("NG", [210; 230]%R); ("SUN", [20]%R)])
    as (fuel & series & Hfuel & Hin & _); [discriminate | discriminate |].
  by exists fuel, series.
Defined.

(** ** Correlation does not depend on the unit of the returns *)

Section CorrAffine.
Local Open Scope R_scope.
Variables k c : R.

Lemma zip_fmap_l_pair (a b : list R) :
  zip ((fun x => k * x + c) <$> a) b = (fun xy : R * R => (k * xy.1 + c, xy.2)) <$> zip a b.
Proof.
  revert b. induction a as [| x a IH]; intros [| y b]; try done.
  cbn. by rewrite <- IH.
Qed.

Lemma fold_mean_affine (l : list (R * R)) (sa sb : R) (m : nat) :
  fold_left mean_step ((fun xy : R * R => (k * xy.1 + c, xy.2)) <$> l)
    (k * sa + INR m * c, sb)
  = (k * (fold_left mean_step l (sa, sb)).1 + INR (m + length l) * c,
     (fold_left mean_step l (sa, sb)).2).
Proof.
  revert sa sb m. induction l as [| [x y] l IH]; intros sa sb m.
  - cbn. by rewrite Nat.add_0_r.
  - cbn [fmap list_fmap fold_left mean_step length fst snd]. real_ops.
    replace (k * sa + INR m * c + (k * x + c)) with (k * (sa + x) + INR (S m) * c)
      by (rewrite S_INR; ring).
    rewrite IH. by replace (S m + length l)%nat with (m + S (length l))%nat by lia.
Qed.

Lemma fold_corr_affine (mA mB : R) (l : list (R * R)) (cov va vb : R) :
  fold_left (corr_step (k * mA + c) mB) ((fun xy : R * R => (k * xy.1 + c, xy.2)) <$> l)
    (k * cov, k * k * va, vb)
  = let '(cov', va', vb') := fold_left (corr_step mA mB) l (cov, va, vb) in
    (k * cov', k * k * va', vb').
Proof.
  revert cov va vb. induction l as [| [x y] l IH]; intros cov va vb; [done |].
  cbn [fmap list_fmap fold_left corr_step fst snd]. real_ops.
  rewrite <- IH. do 3 f_equal; ring.
Qed.
End CorrAffine.

(** [corr] with its loops named. *)
Lemma corr_real (a b : list R) :
  let n := Nat.min (length a) (length b) in
  let sums := fold_left mean_step (zip a b) (0%R, 0%R) in
  let acc := fold_left (corr_step (sums.1 / INR n)%R (sums.2 / INR n)%R) (zip a b)
               (0%R, 0%R, 0%R) in
  let denom := R_sqrt.sqrt (acc.1.2 * acc.2) in
  corr a b = if (n =? 0)%nat then 0%R
             else if Req_dec_T denom 0 then 0%R else (acc.1.1 / denom)%R.
Proof.
  unfold corr. cbv zeta. destruct (_ =? 0)%nat; [done |].
  change (of_Z 0 : R) with 0%R.
  destruct (fold_left mean_step (zip a b) (0%R, 0%R)) as [SA SB]. cbn [fst snd].
  rewrite real_of_nat. real_ops.
  destruct (fold_left _ (zip a b) (0%R, 0%R, 0%R)) as [[cov va] vb]. cbn [fst snd].
  by destruct (Req_dec_T _ _).
Qed.

(** X23.  In exact arithmetic the correlation of the heatmap does not
    depend on the unit or the level of a series: replacing every return
    [x] of one series by [k x + c] with [k > 0] leaves [corr] unchanged. *)
Theorem corr_affine_invariant (k c : R) (a b : list R) :
  (0 < k)%R ->
  corr ((fun x => k * x + c)%R <$> a) b = corr a b.
Proof.
  intros Hk. rewrite !corr_real. cbv zeta. rewrite length_fmap.
  destruct (Nat.min (length a) (length b) =? 0)%nat eqn:Hn; [done |].
  apply Nat.eqb_neq in Hn.
  assert (Hlen : length (zip a b) = Nat.min (length a) (length b)) by apply length_zip_with.
  set (n := Nat.min (length a) (length b)) in *.
  assert (Hn0 : INR n <> 0%R) by (by apply not_0_INR).
  rewrite zip_fmap_l_pair.
  pose proof (fold_mean_affine k c (zip a b) 0 0 0) as Hmean.
  replace (k * 0 + INR 0 * c)%R with 0%R in Hmean by (cbn; ring).
  rewrite Hmean, Hlen. cbn [plus fst snd]. clear Hmean.
  destruct (fold_left mean_step (zip a b) (0%R, 0%R)) as [SA SB]. cbn [fst snd].
  replace ((k * SA + INR n * c) / INR n)%R with (k * (SA / INR n) + c)%R by (by field).
  set (mA := (SA / INR n)%R). set (mB := (SB / INR n)%R).
  pose proof (fold_corr_affine k c mA mB (zip a b) 0 0 0) as Hcorr.
  replace (k * 0)%R with 0%R in Hcorr by ring.
  replace (k * k * 0)%R with 0%R in Hcorr by ring.
  rewrite Hcorr. clear Hcorr.
  pose proof (corr_fold_cauchy_schwarz mA mB (zip a b) 0 0 0) as Hinv.
  destruct (fold_left (corr_step mA mB) (zip a b) (0%R, 0%R, 0%R)) as [[cov va] vb].
  destruct Hinv as (Hva & Hvb & _); [lra | lra | lra |].
  cbn [fst snd].
  assert (Hsqrt : R_sqrt.sqrt (k * k * va * vb) = (k * R_sqrt.sqrt (va * vb))%R).
  { replace (k * k * va * vb)%R with ((k * k) * (va * vb))%R by ring.
    rewrite sqrt_mult by nra. by rewrite sqrt_square by lra. }
  rewrite Hsqrt. set (d := R_sqrt.sqrt (va * vb)).
  destruct (Req_dec_T (k * d) 0) as [Hz | Hnz], (Req_dec_T d 0) as [Hd | Hd]; try done.
  - exfalso. apply Hd. nra.
  - exfalso. apply Hnz. rewrite Hd. ring.
  - field. split; [exact Hd | lra].
Qed.

Lemma corr_affine_invariant_witness :
  corr ((fun x => 100 * x + 3)%R <$> [1; 2; 4]%R) [2; 1; 5]%R = corr [1; 2; 4]%R [2; 1; 5]%R.
Proof. apply (corr_affine_invariant 100 3 [1; 2; 4]%R [2; 1; 5]%R). lra. Defined.

(** ** Value-at-Risk as a function of the tail probability *)

(** X24.  In exact arithmetic the Value-at-Risk of a non-empty return
    series does not increase with the tail probability: for
    [0 <= p <= q < 1] both figures are defined and [VaR q <= VaR p].
    Neither exceeds the loss of the worst day. *)
Theorem VaR_antitone (p q : R) (portfolioReturns : list R) :
  (0 <= p <= q)%R -> (q < 1)%R -> portfolioReturns <> [] ->
  exists vp vq worst,
    PortfolioAnalytics.VaR p portfolioReturns = Some vp /\
    PortfolioAnalytics.VaR q portfolioReturns = Some vq /\
    (vq <= vp)%R /\
    worst ∈ portfolioReturns /\
    Forall (fun r => (worst <= r)%R) portfolioReturns /\
    (vp <= - worst * 100)%R.
Proof.
  intros Hpq Hq Hne.
  assert (Hn : (0 < length portfolioReturns)%nat)
    by (destruct portfolioReturns; [done | cbn; lia]).
  destruct (VaR_real p portfolioReturns) as (xp & Hxp & Hvp); [lra | exact Hne |].
  destruct (VaR_real q portfolioReturns) as (xq & Hxq & Hvq); [lra | exact Hne |].
  pose proof (sortedReturns_sorted portfolioReturns) as Hsorted.
  assert (Hperm : PortfolioAnalytics.sortedReturns portfolioReturns ≡ₚ portfolioReturns)
    by apply js_sort_perm.
  destruct (lookup_lt_is_Some_2 (PortfolioAnalytics.sortedReturns portfolioReturns) 0)
    as [worst Hworst]; [rewrite Hperm; lia |].
  exists (- xp * 100)%R, (- xq * 100)%R, worst.
  split; [exact Hvp |]. split; [exact Hvq |].
  assert (HINR : (0 <= INR (length portfolioReturns))%R) by apply pos_INR.
  destruct (Int_part_index (length portfolioReturns) p) as [Hp0 _]; [lra | exact Hn |].
  assert (Hidx : (Z.to_nat (Int_part (INR (length portfolioReturns) * p))
                  <= Z.to_nat (Int_part (INR (length portfolioReturns) * q)))%nat).
  { apply Z2Nat.inj_le; [exact Hp0 | | apply Int_part_le; nra].
    etrans; [exact Hp0 | apply Int_part_le; nra]. }
  pose proof (sorted_lookup_le _ _ _ _ _ Hsorted Hidx Hxp Hxq) as Hle.
  assert (Hmin : (worst <= xp)%R).
  { apply (sorted_lookup_le _ 0%nat (Z.to_nat (Int_part (INR (length portfolioReturns) * p)))
             _ _ Hsorted); [lia | exact Hworst | exact Hxp]. }
  split; [lra |]. split; [| split; [| lra]].
  - rewrite <- Hperm. by eapply list_elem_of_lookup_2.
  - rewrite <- Hperm. apply Forall_forall. intros r Hr.
    apply list_elem_of_lookup_1 in Hr as [i Hi].
    apply (sorted_lookup_le _ 0%nat i _ _ Hsorted); [lia | exact Hworst | exact Hi].
Qed.

Lemma VaR_antitone_witness :
  exists vp vq worst,
    PortfolioAnalytics.VaR (1 / 10)%R [3; -2; 1]%R = Some vp /\
    PortfolioAnalytics.VaR (1 / 2)%R [3; -2; 1]%R = Some vq /\
    (vq <= vp)%R /\ worst ∈ [3; -2; 1]%R.
Proof.
  destruct (VaR_antitone (1 / 10) (1 / 2) [3; -2; 1]%R)
    as (vp & vq & worst & Hp & Hq & Hle & Hin & _); [lra | lra | discriminate |].
  by exists vp, vq, worst.
Defined.

(** ** Volatility and the Sharpe ratio under scaling *)

Section ScalingReal.
Local Open Scope R_scope.

Lemma fold_sum_scaled (k : R) (l : list R) (c : R) :
  fold_left (fun acc r : R => acc +! r) (Rmult k <$> l) (k * c)
  = k * fold_left (fun acc r : R => acc +! r) l c.
Proof.
  revert c. induction l as [| x l IH]; intros c; [done |].
  cbn. real_ops. rewrite <- IH. f_equal. ring.
Qed.

Lemma fold_squares_scaled (k m : R) (l : list R) (c : R) :
  fold_left (fun acc r : R => acc +! pow2 (r -! k * m)) (Rmult k <$> l) (k * k * c)
  = k * k * fold_left (fun acc r : R => acc +! pow2 (r -! m)) l c.
Proof.
  revert c. induction l as [| x l IH]; intros c; [done |].
  cbn. unfold pow2. real_ops. rewrite <- IH. f_equal. ring.
Qed.

Lemma stats_scaled (k : R) (l : list R) :
  0 <= k ->
  PortfolioStats.meanDaily (Rmult k <$> l) = k * PortfolioStats.meanDaily l /\
  PortfolioStats.volatility (Rmult k <$> l) = k * PortfolioStats.volatility l.
Proof.
  intros Hk.
  assert (Hmean : PortfolioStats.meanDaily (Rmult k <$> l) = k * PortfolioStats.meanDaily l).
  { unfold PortfolioStats.meanDaily. rewrite length_fmap.
    change (of_Z 0 : R) with 0. replace 0 with (k * 0) at 1 by ring.
    rewrite fold_sum_scaled. destruct (0 <? length l)%nat; real_ops; [| ring].
    unfold Rdiv. ring. }
  split; [exact Hmean |].
  unfold PortfolioStats.volatility, PortfolioStats.variance. rewrite Hmean, length_fmap.
  change (of_Z 0 : R) with 0. replace 0 with (k * k * 0) at 1 by ring.
  rewrite fold_squares_scaled. real_ops.
  set (s := fold_left _ l 0).
  replace (if (0 <? length l)%nat then k * k * s / of_nat (length l) else 0)
    with ((k * k) * (if (0 <? length l)%nat then s / of_nat (length l) else 0))
    by (destruct (0 <? length l)%nat; unfold Rdiv; ring).
  rewrite sqrt_mult_alt by nra. by rewrite sqrt_square.
Qed.

Lemma fold_squares_zero (m : R) (l : list R) (c : R) :
  0 <= c -> fold_left (fun acc r : R => acc +! pow2 (r -! m)) l c = 0 ->
  c = 0 /\ Forall (fun r => r = m) l.
Proof.
  revert c. induction l as [| x l IH]; intros c Hc Hsum; [by split |].
  cbn [fold_left] in Hsum.
  pose proof (Rle_0_sqr (x - m)) as Hsq. unfold Rsqr in Hsq.
  destruct (IH (c +! pow2 (x -! m))) as [Hz Hall];
    [unfold pow2; real_ops; lra | exact Hsum |].
  unfold pow2 in Hz. real_ops.
  split; [lra |]. constructor; [| exact Hall].
  assert (Hx : (x - m) * (x - m) = 0) by lra.
  apply Rmult_integral in Hx. lra.
Qed.

Lemma fold_sum_constant (m : R) (l : list R) (c : R) :
  Forall (fun r => r = m) l ->
  fold_left (fun acc r : R => acc +! r) l c = c + INR (length l) * m.
Proof.
  intros Hall. revert c. induction Hall as [| x l -> _ IH]; intros c; [cbn; ring |].
  cbn [fold_left length]. rewrite IH, S_INR. real_ops. ring.
Qed.

Lemma fold_squares_constant (m : R) (l : list R) (c : R) :
  Forall (fun r => r = m) l ->
  fold_left (fun acc r : R => acc +! pow2 (r -! m)) l c = c.
Proof.
  intros Hall. revert c. induction Hall as [| x l -> _ IH]; intros c; [done |].
  cbn [fold_left]. rewrite IH. unfold pow2. real_ops. ring.
Qed.
End ScalingReal.

(** X25.  In exact arithmetic the Sharpe ratio of [renderPortfolioStats]
    does not depend on the unit of the returns: multiplying every return
    by [k > 0] multiplies the mean and the volatility by [k] and leaves
    the ratio unchanged. *)
Theorem sharpe_scale_invariant (k : R) (portfolioReturns : list R) :
  (0 < k)%R ->
  PortfolioStats.meanDaily (Rmult k <$> portfolioReturns)
  = (k * PortfolioStats.meanDaily portfolioReturns)%R /\
  PortfolioStats.volatility (Rmult k <$> portfolioReturns)
  = (k * PortfolioStats.volatility portfolioReturns)%R /\
  PortfolioStats.sharpe (Rmult k <$> portfolioReturns) = PortfolioStats.sharpe portfolioReturns.
Proof.
  intros Hk.
  destruct (stats_scaled k portfolioReturns) as [Hmean Hvol]; [lra |].
  split; [exact Hmean |]. split; [exact Hvol |].
  unfold PortfolioStats.sharpe, PortfolioStats.annualisedVol, PortfolioStats.annualisedReturn.
  rewrite Hmean, Hvol. real_ops.
  set (v := PortfolioStats.volatility portfolioReturns).
  set (m := PortfolioStats.meanDaily portfolioReturns).
  pose proof (sqrt_lt_R0 252) as Hs.
  destruct (Req_dec_T (k * v * R_sqrt.sqrt 252) 0) as [Hz | Hnz],
           (Req_dec_T (v * R_sqrt.sqrt 252) 0) as [Hv | Hv]; cbn [negb]; try done.
  - exfalso. apply Hv. assert (Hkv : (k * (v * R_sqrt.sqrt 252) = 0)%R) by lra.
    apply Rmult_integral in Hkv. lra.
  - exfalso. apply Hnz. rewrite Rmult_assoc, Hv. ring.
  - field. repeat split; try lra. intros Hv0. apply Hv. rewrite Hv0. ring.
Qed.

Lemma sharpe_scale_invariant_witness :
  PortfolioStats.sharpe (Rmult 100 <$> [1; 2; 4]%R) = PortfolioStats.sharpe [1; 2; 4]%R.
Proof. apply (sharpe_scale_invariant 100 [1; 2; 4]%R). lra. Defined.

(** X26.  In exact arithmetic the volatility of [renderPortfolioStats] is
    0 exactly when all daily returns are equal; the Sharpe ratio is then
    reported as 0, whatever the mean return. *)
Theorem volatility_zero_iff_constant (portfolioReturns : list R) :
  (PortfolioStats.volatility portfolioReturns = 0%R <->
   exists c, Forall (fun r => r = c) portfolioReturns) /\
  (PortfolioStats.volatility portfolioReturns = 0%R ->
   PortfolioStats.sharpe portfolioReturns = 0%R).
Proof.
  split.
  - unfold PortfolioStats.volatility, PortfolioStats.variance.
    set (m := PortfolioStats.meanDaily portfolioReturns).
    pose proof (sum_squares_nonneg m portfolioReturns 0 (Rle_refl 0)) as Hs.
    change (of_Z 0 : R) with 0%R.
    destruct (0 <? length portfolioReturns)%nat eqn:Hn.
    2:{ apply Nat.ltb_ge in Hn. assert (Hnil : portfolioReturns = [])
          by (apply nil_length_inv; lia).
        split; [intros _; exists 0%R; rewrite Hnil; constructor | intros _; apply sqrt_0]. }
    rewrite real_of_nat. real_ops.
    assert (HINR : (0 < INR (length portfolioReturns))%R)
      by (apply lt_0_INR; by apply Nat.ltb_lt).
    set (s := fold_left _ portfolioReturns 0%R) in *.
    split.
    + intros Hvol. exists m.
      assert (Hs0 : s = 0%R).
      { apply sqrt_eq_0 in Hvol.
        - apply (Rmult_eq_compat_r (INR (length portfolioReturns))) in Hvol.
          unfold Rdiv in Hvol. rewrite Rmult_assoc, Rinv_l, Rmult_1_r, Rmult_0_l in Hvol by lra.
          exact Hvol.
        - apply Rmult_le_pos; [exact Hs | left; by apply Rinv_0_lt_compat]. }
      by destruct (fold_squares_zero m portfolioReturns 0 (Rle_refl 0) Hs0).
    + intros [c Hc].
      assert (Hm : m = c).
      { unfold m, PortfolioStats.meanDaily. rewrite Hn.
        change (of_Z 0 : R) with 0%R.
        rewrite (fold_sum_constant c) by exact Hc. rewrite real_of_nat. real_ops.
        field. lra. }
      unfold s. rewrite Hm, (fold_squares_constant c) by exact Hc.
      unfold Rdiv. rewrite Rmult_0_l. apply sqrt_0.
  - intros Hvol. unfold PortfolioStats.sharpe, PortfolioStats.annualisedVol.
    rewrite Hvol. real_ops. rewrite Rmult_0_l.
    by destruct (Req_dec_T 0 0).
Qed.

(** ** Candles and moving average of a token *)

Section CryptoCandlesReal.
Local Open Scope R_scope.
Variable random : nat -> R.
Hypothesis random_range : forall k, 0 <= random k < 1.

Lemma crypto_candles_closes (prev : option R) (i : nat) (closes : list R) :
  (fun y : R * R * R * R => y.2) <$> crypto_candles random prev i closes = closes.
Proof.
  revert prev i. induction closes as [| close closes IH]; intros prev i; [done |].
  cbn [crypto_candles]. rewrite fmap_cons. cbn [snd]. by rewrite IH.
Qed.

Lemma crypto_candles_opens (prev : option R) (i : nat) (closes : list R) :
  (fun y : R * R * R * R => y.1.1.1) <$> crypto_candles random prev i closes
  = match closes with
    | [] => []
    | close :: rest => default close prev :: take (length rest) closes
    end.
Proof.
  revert prev i. induction closes as [| close closes IH]; intros prev i; [done |].
  cbn [crypto_candles]. rewrite fmap_cons. cbn [fst]. rewrite IH.
  destruct prev, closes; reflexivity.
Qed.

Lemma crypto_candles_bounds (prev : option R) (i : nat) (closes : list R) :
  (forall p, prev = Some p -> 0 <= p) ->
  Forall (fun close => 0 <= close) closes ->
  Forall (fun y : R * R * R * R =>
            let '(open, high, low, close) := y in
            0 <= low <= open /\ low <= close /\ open <= high /\ close <= high)
         (crypto_candles random prev i closes).
Proof.
  intros Hprev Hcloses. revert prev i Hprev.
  induction Hcloses as [| close closes Hclose _ IH]; intros prev i Hprev; [constructor |].
  cbn [crypto_candles]. constructor; [| apply IH; by intros p [= <-]].
  set (open := match prev with None => close | Some p => p end).
  assert (Hopen : 0 <= open) by (unfold open; destruct prev; [by apply Hprev | done]).
  change (Math_max open close) with (Rmax open close).
  change (Math_min open close) with (Rmin open close).
  change (Math_max ?x (of_Z 0)) with (Rmax x 0).
  unfold decimal. real_ops. change (10 ^ Z.of_nat 2)%Z with 100%Z.
  pose proof (Rmax_l open close). pose proof (Rmax_r open close).
  pose proof (Rmin_l open close). pose proof (Rmin_r open close).
  assert (Hmin : 0 <= Rmin open close) by (unfold Rmin; destruct (Rle_dec open close); lra).
  destruct (random_range (2 * i)), (random_range (2 * i + 1)).
  set (range := Rmax open close * (2 / 100)).
  assert (Hrange : 0 <= range) by (unfold range; nra).
  assert (Hup : 0 <= random (2 * i)%nat * range) by nra.
  assert (Hdown : 0 <= random (2 * i + 1)%nat * range) by nra.
  pose proof (Rmax_r (Rmin open close - random (2 * i + 1)%nat * range) 0).
  assert (Hlow : Rmax (Rmin open close - random (2 * i + 1)%nat * range) 0 <= Rmin open close).
  { apply Rmax_lub; lra. }
  repeat split; lra.
Qed.

Lemma fold_sum_bounds (lo hi : R) (l : list R) (c : R) :
  Forall (fun v => lo <= v <= hi) l ->
  c + INR (length l) * lo <= fold_left (fun sum v : R => sum +! v) l c
  <= c + INR (length l) * hi.
Proof.
  intros Hl. revert c. induction Hl as [| x l Hx _ IH]; intros c; [cbn; lra |].
  cbn [fold_left length]. rewrite S_INR. specialize (IH (c +! x)). real_ops. lra.
Qed.
End CryptoCandlesReal.

(** X27.  The candles that [renderCryptoCandleChart] derives from a price
    series keep its closes and are chained: the first candle opens at its
    own close and every later one at the close before it.  In exact
    arithmetic, for prices that are not negative and [Math.random()]
    results in [0, 1), no low is negative or above the open or the close,
    and no high is below them.  The moving average has one entry per day,
    and each of its numbers lies between any two bounds of the closes. *)
Theorem crypto_candles_well_formed (random : nat -> R) (closes : list R) (lo hi : R) :
  (forall k, (0 <= random k < 1)%R) ->
  Forall (fun close => (0 <= close)%R) closes ->
  Forall (fun close => (lo <= close <= hi)%R) closes ->
  let candles := crypto_candles random None 0 closes in
  (fun y : R * R * R * R => y.2) <$> candles = closes /\
  (fun y : R * R * R * R => y.1.1.1) <$> candles
  = match closes with
    | [] => []
    | close :: rest => close :: take (length rest) closes
    end /\
  Forall (fun y : R * R * R * R =>
            let '(open, high, low, close) := y in
            (0 <= low <= open /\ low <= close /\ open <= high /\ close <= high)%R) candles /\
  length (movingAverage closes) = length closes /\
  Forall (fun avg => forall v, avg = Some v -> (lo <= v <= hi)%R) (movingAverage closes).
Proof.
  intros Hrandom Hpos Hbounds candles. subst candles.
  split; [apply crypto_candles_closes |].
  split; [apply crypto_candles_opens |].
  split; [by apply crypto_candles_bounds |].
  unfold movingAverage. split; [by rewrite length_imap |].
  apply Forall_forall. intros avg Havg v ->.
  apply list_elem_of_lookup_1 in Havg as [i Hi].
  rewrite list_lookup_imap in Hi.
  destruct (closes !! i) as [close |] eqn:Hclose; [| discriminate Hi].
  apply lookup_lt_Some in Hclose. cbn [fmap option_fmap option_map] in Hi.
  destruct (i <? 4)%nat eqn:Hi4; [discriminate Hi |]. apply Nat.ltb_ge in Hi4.
  injection Hi as <-.
  set (window := take 5 (drop (i - 4) closes)).
  assert (Hlen : length window = 5%nat).
  { unfold window. rewrite length_take, length_drop. lia. }
  assert (Hwindow : Forall (fun close => (lo <= close <= hi)%R) window).
  { unfold window. by apply Forall_take, Forall_drop. }
  pose proof (fold_sum_bounds lo hi window 0 Hwindow) as Hsum.
  rewrite Hlen in Hsum. change (INR 5) with (1 + 1 + 1 + 1 + 1)%R in Hsum.
  change (of_Z 0 : R) with 0%R. real_ops. lra.
Qed.

Lemma crypto_candles_well_formed_witness :
  (fun y : R * R * R * R => y.2) <$> crypto_candles (fun _ => (1 / 2)%R) None 0 [1; 2; 3]%R
  = [1; 2; 3]%R.
Proof.
  apply (crypto_candles_well_formed (fun _ => (1 / 2)%R) [1; 2; 3]%R 1 3).
  - intros k. lra.
  - repeat constructor; lra.
  - repeat constructor; lra.
Defined.

(** ** Open interest below and above the median strike *)

Section CallPutReal.
Local Open Scope R_scope.

Lemma oi_fold_nonneg (median : R) (oi : list (option R)) (entries : list (nat * R))
    (lowerOI higherOI : R) :
  Forall (fun v => forall x, v = Some x -> 0 <= x) oi ->
  0 <= lowerOI -> 0 <= higherOI ->
  0 <= (fold_left (oi_step median oi) entries (lowerOI, higherOI)).1 /\
  0 <= (fold_left (oi_step median oi) entries (lowerOI, higherOI)).2.
Proof.
  intros Hoi. revert lowerOI higherOI.
  induction entries as [| [idx strike] entries IH]; intros lowerOI higherOI Hl Hh;
    [by split |].
  cbn [fold_left]. unfold oi_step at 2 4.
  set (oiVal := match mjoin (oi !! idx) with
                | Some v => if isNaN v then of_Z 0 else v
                | None => of_Z 0
                end).
  assert (HoiVal : 0 <= oiVal).
  { unfold oiVal. destruct (oi !! idx) as [[v |] |] eqn:Hv; cbn; try lra.
    rewrite Forall_forall in Hoi. apply (Hoi (Some v)); [| done].
    by eapply list_elem_of_lookup_2. }
  destruct (num_leb strike median); apply IH; real_ops; lra.
Qed.
End CallPutReal.

(** X28.  In exact arithmetic, for open-interest figures that are not
    negative, the two percentages of [renderCallPutRatioChart] lie between
    0 and 100 and add up to 100; without any open interest they are 50 and
    50. *)
Theorem callPutPercentages_total (strikes : list R) (oi : list (option R)) :
  Forall (fun v => forall x, v = Some x -> (0 <= x)%R) oi ->
  let lowerPct := (callPutPercentages strikes oi).1 in
  let higherPct := (callPutPercentages strikes oi).2 in
  (lowerPct + higherPct = 100 /\ 0 <= lowerPct <= 100 /\ 0 <= higherPct <= 100)%R /\
  callPutPercentages [] oi = (50%R, 50%R).
Proof.
  intros Hoi. cbv zeta.
  assert (Hsplit : forall lowerOI higherOI : R, (0 <= lowerOI)%R -> (0 <= higherOI)%R ->
    let '(l, h) := if (lowerOI =?! of_Z 0) && (higherOI =?! of_Z 0)
                   then (of_Z 1 : R, of_Z 1 : R) else (lowerOI, higherOI) in
    let total := l +! h in
    let lowerPct := (l /! total) *! of_Z 100 in
    let higherPct := (h /! total) *! of_Z 100 in
    (lowerPct + higherPct = 100 /\ 0 <= lowerPct <= 100 /\ 0 <= higherPct <= 100)%R).
  { intros l h Hl Hh. real_ops.
    destruct (Req_dec_T l 0) as [-> | Hl0], (Req_dec_T h 0) as [-> | Hh0]; cbn [andb];
      cbv zeta.
    - lra.
    - assert (Hpos : (0 < 0 + h)%R) by lra.
      replace (0 / (0 + h) * 100)%R with 0%R by (field; lra).
      replace (h / (0 + h) * 100)%R with 100%R by (field; lra). lra.
    - assert (Hpos : (0 < l + 0)%R) by lra.
      replace (l / (l + 0) * 100)%R with 100%R by (field; lra).
      replace (0 / (l + 0) * 100)%R with 0%R by (field; lra). lra.
    - assert (Hpos : (0 < l + h)%R) by lra.
      assert (Hinv : (0 < / (l + h))%R) by (by apply Rinv_0_lt_compat).
      assert (Hsum : (l / (l + h) * 100 + h / (l + h) * 100 = 100)%R) by (field; lra).
      assert (Hlp : (0 <= l / (l + h) * 100)%R) by (unfold Rdiv; nra).
      assert (Hhp : (0 <= h / (l + h) * 100)%R) by (unfold Rdiv; nra).
      lra. }
  unfold callPutPercentages.
  split.
  - destruct (median strikes) as [m |].
    + pose proof (oi_fold_nonneg m oi (imap pair strikes) 0 0 Hoi (Rle_refl 0) (Rle_refl 0))
        as [Hl Hh].
      change (of_Z 0 : R, of_Z 0 : R) with (0%R, 0%R).
      destruct (fold_left (oi_step m oi) (imap pair strikes) (0%R, 0%R)) as [l h].
      cbn [fst snd] in Hl, Hh. specialize (Hsplit l h Hl Hh).
      by destruct ((l =?! of_Z 0) && (h =?! of_Z 0)).
    + specialize (Hsplit 0%R 0%R (Rle_refl 0) (Rle_refl 0)).
      change (of_Z 0 : R) with 0%R in *.
      by destruct ((0%R =?! 0%R) && (0%R =?! 0%R)).
  - cbn. destruct (Req_dec_T 0 0) as [_ | Hne]; [| done]. cbn. f_equal; lra.
Qed.

Lemma callPutPercentages_total_witness :
  let pct := callPutPercentages [100; 110; 120]%R [Some 30%R; None; Some 10%R] in
  (pct.1 + pct.2 = 100)%R.
Proof.
  apply (callPutPercentages_total [100; 110; 120]%R [Some 30%R; None; Some 10%R]).
  apply Forall_forall. intros v Hv x ->.
  repeat (apply elem_of_cons in Hv as [Hv | Hv];
          [first [discriminate Hv | injection Hv as ->; lra] |]).
  by apply elem_of_nil in Hv.
Defined.

(** ** Stock fundamentals and their cache entries *)

Section FundamentalsFacts.
Context {T : Type} `{Number T}.

Lemma json_value_number_or_null (x : T) :
  json_value (number_or_null x) = Some (if isNaN x then JNull else json_number x).
Proof. unfold number_or_null. by destruct (isNaN x). Qed.

Lemma json_value_fundamentals (data : overview T) :
  json_value (fundamentals_result data)
  = Some (JObj [("pe", if isNaN (PERatio data) then JNull else json_number (PERatio data));
                ("marketCap", if isNaN (MarketCapitalization data) then JNull
                              else json_number (MarketCapitalization data));
                ("eps", if isNaN (EPS data) then JNull else json_number (EPS data));
                ("beta", if isNaN (Beta data) then JNull else json_number (Beta data));
                ("dividendYield", if isNaN (DividendYield data) then JNull
                                  else json_number (DividendYield data))]).
Proof.
  unfold fundamentals_result. rewrite json_value_JObj. unfold json_members.
  cbn [omap list_omap]. by rewrite !json_value_number_or_null.
Qed.
End FundamentalsFacts.

(** X29.  The fundamentals of a symbol are cached under a key of their
    own.  After a call of [fetchStockFundamentals] that obtained an
    answer, a call for the same symbol that finds the provider down
    returns the earlier ratios as JSON wrote them, an infinite ratio as
    [null] like a missing one, and a call for another symbol returns what
    it would have returned before.  No result holds a NaN. *)
Theorem fetchStockFundamentals_stale {T : Type} `{Number T}
    (data : overview T) (now now' : Z) (symbol other : string) (ls : localStorage T) :
  available ls = true ->
  other <> symbol ->
  let first := fetchStockFundamentals (Body (Some data)) now symbol ls in
  first.1 = fundamentals_result data /\
  json_value (fundamentals_result data)
  = Some (fetchStockFundamentals Rejected now' symbol first.2).1 /\
  (fetchStockFundamentals Rejected now' other first.2).1
  = (fetchStockFundamentals Rejected now' other ls).1 /\
  forall field x, get (fundamentals_result data) field = Some (JNum x) -> isNaN x = false.
Proof.
  intros Hav Hother first. subst first. unfold fetchStockFundamentals.
  cbn [body mjoin option_join fst snd]. split; [done |]. split; [| split].
  - rewrite load_save_same by done. rewrite json_value_fundamentals. done.
  - rewrite load_save_other; [done |].
    intros Heq. apply Hother. by apply (inj (String.app "fundamentals:")).
  - intros field x. unfold fundamentals_result, get, number_or_null. cbn [assoc].
    repeat (destruct (String.eqb field _);
            [destruct (isNaN _) eqn:Hnan; [discriminate | by intros [= <-]] |]).
    discriminate.
Qed.

Lemma fetchStockFundamentals_stale_witness :
  let data : overview float :=
    {| PERatio := 28.5%float; MarketCapitalization := infinity; EPS := nan;
       Beta := 1.25%float; DividendYield := 0.5%float |} in
  let ls : localStorage float := {| items := ∅; available := true |} in
  (fetchStockFundamentals Rejected 2 "AAPL"
     (fetchStockFundamentals (Body (Some data)) 1 "AAPL" ls).2).1
  = JObj [("pe", JNum 28.5%float); ("marketCap", JNull); ("eps", JNull);
          ("beta", JNum 1.25%float); ("dividendYield", JNum 0.5%float)].
Proof.
  intros data ls.
  destruct (fetchStockFundamentals_stale data 1 2 "AAPL" "MSFT" ls)
    as (_ & Himage & _); [reflexivity | discriminate |].
  apply (inj Some). rewrite <- Himage. reflexivity.
Defined.
